(** * Cache.py: a RAM / SSD / HDD tiering cache

    A shallow embedding of [src/Cache.py] and the properties of its
    in-memory LRU tier ([RAMCache]), of its disk-budget arithmetic and of
    the migration / eviction protocol of [AutoCacheManager].

    Conventions.
    - Python [int] is [Z]; [bytes] is [list byte], [len] is [data_len].
    - Python [float] is the kernel's binary64 [float]; conversions between
      [int] and [float] follow CPython (round to nearest even, truncation
      towards zero, exact mixed comparisons).
    - An [OrderedDict] / insertion-ordered [dict] is an association list,
      oldest entry first.
    - The file system is a finite map from paths to nodes.
    - Exceptions are results [Exc e]; state changes made before an
      exception is raised persist, as they do in Python. *)

From Stdlib Require Import ZArith Floats.
From stdpp Require Import base option list strings gmap.

Set Warnings "-inexact-float".
Open Scope Z_scope.

(** ** Python values and exceptions *)

Definition bytes := list Byte.byte.

Definition data_len (data : bytes) : Z := Z.of_nat (length data).

(** The exception classes the program can meet.  [IOError] is an alias of
    [OSError] in Python 3. *)
Inductive exn :=
| OSError
| KeyError
| UnboundLocalError
| ValueError
| OverflowError.

#[global] Instance exn_eq_dec : EqDecision exn.
Proof. solve_decision. Defined.

(** [except (IOError, OSError)] and [except (OSError, IOError)]. *)
Definition is_OSError (e : exn) : bool :=
  match e with OSError => true | _ => false end.

Inductive Res (A : Type) :=
| Val (a : A)
| Exc (e : exn).
Arguments Val {A} a.
Arguments Exc {A} e.

(** ** Python dictionaries *)

(** [dict] and [collections.OrderedDict] keep their entries in insertion
    order; the association list has the oldest entry first and at most one
    entry per key. *)
Module PyDict.

Abbreviation t K V := (list (K * V)).

Section WithKeyValue.
Context {K V : Type} `{EqDecision K}.

(** [d.keys()] *)
Definition keys (d : t K V) : list K := d.*1.

(** [d[key]], [None] standing for [KeyError]. *)
Fixpoint get (key : K) (d : t K V) : option V :=
  match d with
  | [] => None
  | (k, v) :: rest => if decide (k = key) then Some v else get key rest
  end.

(** [key in d] *)
Definition mem (key : K) (d : t K V) : bool := bool_decide (key ∈ keys d).

(** [d[key] = v]: an existing key keeps its position, a new key goes to
    the end. *)
Fixpoint set (key : K) (v : V) (d : t K V) : t K V :=
  match d with
  | [] => [(key, v)]
  | (k, v0) :: rest =>
      if decide (k = key) then (k, v) :: rest
      else (k, v0) :: set key v rest
  end.

(** What [del d[key]] leaves. *)
Definition remove (key : K) (d : t K V) : t K V :=
  filter (λ kv, kv.1 ≠ key) d.

(** [del d[key]], [None] standing for [KeyError]. *)
Definition del (key : K) (d : t K V) : option (t K V) :=
  if mem key d then Some (remove key d) else None.

(** [d.move_to_end(key)] of an [OrderedDict]; [None] is [KeyError]. *)
Definition move_to_end (key : K) (d : t K V) : option (t K V) :=
  v ← get key d; Some (remove key d ++ [(key, v)]).

End WithKeyValue.
End PyDict.

(** ** The in-memory tier: [class RAMCache] *)

Module RAMCache.
Section WithKey.
Context {K : Type} `{EqDecision K}.

(** [sum(len(data) for data in self.cache.values())] *)
Definition current_size (c : PyDict.t K bytes) : Z :=
  foldr (λ kv acc, data_len kv.2 + acc) 0 c.

Record t := mk { cache : PyDict.t K bytes; max_size : Z }.

(** [__init__]: [new_size] is what [get_available_ram()] returns. *)
Definition init (new_size : Z) : t := {| cache := []; max_size := new_size |}.

(** The loop of [trim_cache].  [popitem(last=False)] drops the head of a
    non-empty dictionary, so each iteration continues on the tail and the
    recursion is structural. *)
Fixpoint trim_entries (limit : Z) (c : PyDict.t K bytes) : PyDict.t K bytes :=
  match c with
  | [] => []
  | oldest :: rest =>
      if decide (current_size (oldest :: rest) > limit)
      then trim_entries limit rest
      else oldest :: rest
  end.

Definition trim_cache (s : t) : t :=
  {| cache := trim_entries (max_size s) (cache s); max_size := max_size s |}.

(** [update_max_size]; [new_size] is the value [get_available_ram()]
    returns during this call. *)
Definition update_max_size (new_size : Z) (s : t) : t :=
  trim_cache {| cache := cache s; max_size := new_size |}.

(** [add(path, data)]; the outer [option] is [None] on [KeyError]. *)
Definition add (new_size : Z) (path : K) (data : bytes) (s : t)
  : option (bool * t) :=
  let s1 := update_max_size new_size s in
  if decide (data_len data > max_size s1) then Some (false, s1)
  else
    let s2 := trim_cache s1 in
    let c3 := PyDict.set path data (cache s2) in
    c4 ← PyDict.move_to_end path c3;
    Some (true, {| cache := c4; max_size := max_size s2 |}).

(** [get(path)]: the inner [option] is Python's [None] on a miss. *)
Definition get (path : K) (s : t) : option (option bytes * t) :=
  if PyDict.mem path (cache s) then
    c' ← PyDict.move_to_end path (cache s);
    d ← PyDict.get path c';
    Some (Some d, {| cache := c'; max_size := max_size s |})
  else Some (None, s).

(** [remove(path)] *)
Definition remove (path : K) (s : t) : option t :=
  if PyDict.mem path (cache s) then
    c' ← PyDict.del path (cache s);
    Some {| cache := c'; max_size := max_size s |}
  else Some s.

(** The invariant the tier is meant to keep. *)
Definition within_capacity (s : t) : Prop :=
  current_size (cache s) <= max_size s.

End WithKey.
Arguments t K : clear implicits.
Arguments current_size : simpl never.
End RAMCache.

(** ** Mixed [int] / [float] arithmetic *)

(** [float(z)]: round to nearest even; CPython raises [OverflowError]
    when the integer is too large for a double. *)
Definition float_of_int (z : Z) : Res float :=
  let f := SF2Prim (binary_normalize prec emax z 0 false) in
  if is_infinity f then Exc OverflowError else Val f.

(** [z * f] for an [int] and a [float]. *)
Definition int_mul_float (z : Z) (f : float) : Res float :=
  match float_of_int z with
  | Val x => Val (x * f)%float
  | Exc e => Exc e
  end.

(** [int(f)]: truncation towards zero; [ValueError] on NaN and
    [OverflowError] on an infinity. *)
Definition py_int (f : float) : Res Z :=
  match Prim2SF f with
  | S754_zero _ => Val 0
  | S754_finite sign m e =>
      let a := match e with
               | Z0 => Zpos m
               | Zpos p => Zpos m * 2 ^ Zpos p
               | Zneg p => Zpos m / 2 ^ Zpos p
               end in
      Val (if sign then - a else a)
  | S754_infinity _ => Exc OverflowError
  | S754_nan => Exc ValueError
  end.

(** [z < f] and [z > f] for an [int] and a [float]: CPython compares the
    exact values. *)
Definition int_cmp_float (z : Z) (f : float) : option comparison :=
  match Prim2SF f with
  | S754_nan => None
  | S754_infinity sign => Some (if sign then Gt else Lt)
  | S754_zero _ => Some (z ?= 0)
  | S754_finite sign m e =>
      let v := if sign then Zneg m else Zpos m in
      match e with
      | Z0 => Some (z ?= v)
      | Zpos p => Some (z ?= v * 2 ^ Zpos p)
      | Zneg p => Some (z * 2 ^ Zpos p ?= v)
      end
  end.

Definition int_lt_float (z : Z) (f : float) : bool :=
  match int_cmp_float z f with Some Lt => true | _ => false end.

Definition int_gt_float (z : Z) (f : float) : bool :=
  match int_cmp_float z f with Some Gt => true | _ => false end.

(** ** The disk budget *)

Definition DEFAULT_CACHE_PERCENT : float := 0.5.
Definition MIN_CACHE_GB : Z := 10.
Definition MAX_CACHE_GB : Z := 500.
Definition GiB : Z := 1024 ^ 3.

(** [max(self.min_cache_bytes, min(self.max_cache_bytes, v))] *)
Definition clamp_cache_size (min_cache_bytes max_cache_bytes v : Z) : Z :=
  Z.max min_cache_bytes (Z.min max_cache_bytes v).

(** The value [adjust_cache_size] proposes before clamping (lines
    113-116): under disk pressure 0.8 of the free space, else the
    configured fraction. *)
Definition proposed_cache_size (free total : Z) (cache_percent : float)
  : Res Z :=
  match int_mul_float total 0.1 with
  | Exc e => Exc e
  | Val threshold =>
      if int_lt_float free threshold then
        match int_mul_float free 0.8 with
        | Val x => py_int x
        | Exc e => Exc e
        end
      else
        match int_mul_float free cache_percent with
        | Val x => py_int x
        | Exc e => Exc e
        end
  end.

(** Lines 113-117 of [adjust_cache_size]: the new budget. *)
Definition compute_disk_budget
  (free total : Z) (cache_percent : float) (min_cache_bytes max_cache_bytes : Z)
  : Res Z :=
  match proposed_cache_size free total cache_percent with
  | Val new_size => Val (clamp_cache_size min_cache_bytes max_cache_bytes new_size)
  | Exc e => Exc e
  end.

(** Lines 107-108 of [set_initial_cache_size]: no pressure fallback. *)
Definition initial_cache_size
  (free : Z) (cache_percent : float) (min_cache_bytes max_cache_bytes : Z)
  : Res Z :=
  match int_mul_float free cache_percent with
  | Val x =>
      match py_int x with
      | Val proposed_size =>
          Val (clamp_cache_size min_cache_bytes max_cache_bytes proposed_size)
      | Exc e => Exc e
      end
  | Exc e => Exc e
  end.

(** ** The machine: file system, sensors, log *)

(** A [pathlib.Path], as its components; [str(path)] is the key of the
    RAM tier and of the index. *)
Definition path := list string.

(** [p.relative_to(base)]; [None] is the [ValueError] of a path outside
    [base]. *)
Fixpoint relative_to (base p : path) : option path :=
  match base, p with
  | [], _ => Some p
  | b :: base', c :: p' => if decide (b = c) then relative_to base' p' else None
  | _ :: _, [] => None
  end.

(** [p] lies strictly below [dir]: what the recursive glob of [dir]
    enumerates. *)
Definition below (dir p : path) : bool :=
  match relative_to dir p with
  | Some (_ :: _) => true
  | _ => false
  end.

(** [p.parent] *)
Definition parent (p : path) : path := removelast p.

(** What a path holds.  Directories are implicit. *)
Inductive node :=
| File (data : bytes) (atime : Z)
| Symlink (target : path).

(** How the next I/O operation ends: it succeeds, it fails before it has
    any effect, or (a copy or a move) it fails after [written] bytes
    reached the destination. *)
Inductive io_outcome :=
| IoOk
| IoFail
| IoFailPartial (written : nat).

(** The operations the program asks of the operating system. *)
Inductive fs_op :=
| OpRead (p : path)
| OpStat (p : path)
| OpMkdir (p : path)
| OpCopy (src dst : path)
| OpRemove (p : path)
| OpSymlink (target link : path)
| OpMove (src dst : path)
| OpScan (dir : path)
| OpDiskUsage
| OpVirtualMemory
| OpSaveConfig.

#[global] Instance fs_op_eq_dec : EqDecision fs_op.
Proof. solve_decision. Defined.

Inductive level := INFO | WARNING | ERROR | CRITICAL.

Record World := mkWorld {
  fs : gmap path node;
  disk_total : Z;              (* psutil.disk_usage(ssd_path).total *)
  disk_free : Z;               (* psutil.disk_usage(ssd_path).free *)
  mem_available : Z;           (* psutil.virtual_memory().available *)
  now : Z;                     (* the clock, for new files *)
  config_file : option (PyDict.t path path); (* cache_config.json *)
  faults : list io_outcome;    (* how the coming operations end *)
  trace : list fs_op;          (* operations issued so far, oldest first *)
  log : list (level * string)  (* cache_manager.log, oldest first *)
}.

Definition with_fs (m : gmap path node) (w : World) : World :=
  mkWorld m (disk_total w) (disk_free w) (mem_available w) (now w)
          (config_file w) (faults w) (trace w) (log w).

Definition with_config_file (c : option (PyDict.t path path)) (w : World) : World :=
  mkWorld (fs w) (disk_total w) (disk_free w) (mem_available w) (now w)
          c (faults w) (trace w) (log w).

Definition with_faults (f : list io_outcome) (w : World) : World :=
  mkWorld (fs w) (disk_total w) (disk_free w) (mem_available w) (now w)
          (config_file w) f (trace w) (log w).

Definition with_trace (t : list fs_op) (w : World) : World :=
  mkWorld (fs w) (disk_total w) (disk_free w) (mem_available w) (now w)
          (config_file w) (faults w) t (log w).

Definition with_log (l : list (level * string)) (w : World) : World :=
  mkWorld (fs w) (disk_total w) (disk_free w) (mem_available w) (now w)
          (config_file w) (faults w) (trace w) l.

(** An operating-system call: a result or an exception, and the world it
    leaves. *)
Definition IO (A : Type) := World → Res A * World.

(** Every call is recorded in the trace and takes the next outcome of the
    fault schedule; past the end of the schedule every call succeeds. *)
Definition issue (op : fs_op) (w : World) : io_outcome * World :=
  let w1 := with_trace (trace w ++ [op]) w in
  match faults w1 with
  | [] => (IoOk, w1)
  | o :: rest => (o, with_faults rest w1)
  end.

(** The kernel follows at most [MAXSYMLINKS] links. *)
Definition MAXSYMLINKS : nat := 40.

(** The regular file a path leads to through symbolic links, with its
    content and access time. *)
Fixpoint resolve (fuel : nat) (m : gmap path node) (p : path)
  : option (path * bytes * Z) :=
  match m !! p with
  | None => None
  | Some (File d a) => Some (p, d, a)
  | Some (Symlink target) =>
      match fuel with
      | O => None
      | S n => resolve n m target
      end
  end.

Definition lookup_file (w : World) (p : path) : option (path * bytes * Z) :=
  resolve MAXSYMLINKS (fs w) p.

(** [open(p, 'rb').read()].  The refresh of the access time that a read
    may cause is not recorded. *)
Definition read_file (p : path) : IO bytes := λ w,
  match issue (OpRead p) w with
  | (IoOk, w1) =>
      match lookup_file w1 p with
      | Some (_, d, _) => (Val d, w1)
      | None => (Exc OSError, w1)
      end
  | (_, w1) => (Exc OSError, w1)
  end.

(** [p.stat()] follows links; the pair is [(st_size, st_atime)].
    Directories are not nodes: a path that leads to no node has no
    [stat] here. *)
Definition stat (p : path) : IO (Z * Z) := λ w,
  match issue (OpStat p) w with
  | (IoOk, w1) =>
      match lookup_file w1 p with
      | Some (_, d, a) => (Val (data_len d, a), w1)
      | None => (Exc OSError, w1)
      end
  | (_, w1) => (Exc OSError, w1)
  end.

(** [p.exists()] follows links and answers [False] for a dangling one. *)
Definition path_exists (p : path) (w : World) : bool :=
  bool_decide (is_Some (lookup_file w p)).

(** [p.mkdir(parents=True, exist_ok=True)] *)
Definition mkdir_parents (p : path) : IO unit := λ w,
  match issue (OpMkdir p) w with
  | (IoOk, w1) => (Val (), w1)
  | (_, w1) => (Exc OSError, w1)
  end.

(** [shutil.copy2(src, dst)]: content and times of [src] reach [dst]; a
    copy that fails midway leaves the bytes written so far at [dst].
    [src] and [dst] are taken to be different files. *)
Definition copy2 (src dst : path) : IO unit := λ w,
  let (o, w1) := issue (OpCopy src dst) w in
  match lookup_file w1 src with
  | None => (Exc OSError, w1)
  | Some (_, d, a) =>
      match o with
      | IoOk => (Val (), with_fs (<[dst := File d a]> (fs w1)) w1)
      | IoFail => (Exc OSError, w1)
      | IoFailPartial n =>
          (Exc OSError, with_fs (<[dst := File (take n d) (now w1)]> (fs w1)) w1)
      end
  end.

(** [os.remove(p)] and [os.unlink(p)]: the entry itself goes, link or
    file. *)
Definition os_remove (p : path) : IO unit := λ w,
  match issue (OpRemove p) w with
  | (IoOk, w1) =>
      match fs w1 !! p with
      | Some _ => (Val (), with_fs (delete p (fs w1)) w1)
      | None => (Exc OSError, w1)
      end
  | (_, w1) => (Exc OSError, w1)
  end.

(** [os.symlink(target, link)] *)
Definition os_symlink (target link : path) : IO unit := λ w,
  match issue (OpSymlink target link) w with
  | (IoOk, w1) =>
      match fs w1 !! link with
      | None => (Val (), with_fs (<[link := Symlink target]> (fs w1)) w1)
      | Some _ => (Exc OSError, w1)
      end
  | (_, w1) => (Exc OSError, w1)
  end.

(** [shutil.move(src, dst)]: [dst] is replaced by what [src] held (by
    [os.rename], or by copy and unlink across devices); a move that fails
    midway leaves the bytes written so far at [dst] and [src] in place. *)
Definition shutil_move (src dst : path) : IO unit := λ w,
  let (o, w1) := issue (OpMove src dst) w in
  match fs w1 !! src with
  | None => (Exc OSError, w1)
  | Some nd =>
      match o with
      | IoOk => (Val (), with_fs (<[dst := nd]> (delete src (fs w1))) w1)
      | IoFail => (Exc OSError, w1)
      | IoFailPartial n =>
          match nd with
          | File d _ =>
              (Exc OSError, with_fs (<[dst := File (take n d) (now w1)]> (fs w1)) w1)
          | Symlink _ => (Exc OSError, w1)
          end
      end
  end.

(** The sum of [f.stat().st_size] over the files [f] that the recursive
    glob of [dir] enumerates ([f.is_file()] follows links). *)
Definition tree_size (dir : path) (w : World) : Z :=
  map_fold (λ p _ acc,
              if below dir p then
                match lookup_file w p with
                | Some (_, d, _) => data_len d + acc
                | None => acc
                end
              else acc) 0 (fs w).

Definition scan (dir : path) : IO Z := λ w,
  match issue (OpScan dir) w with
  | (IoOk, w1) => (Val (tree_size dir w1), w1)
  | (_, w1) => (Exc OSError, w1)
  end.

(** [psutil.disk_usage(ssd_path)]: [(total, free)]. *)
Definition disk_usage : IO (Z * Z) := λ w,
  match issue OpDiskUsage w with
  | (IoOk, w1) => (Val (disk_total w1, disk_free w1), w1)
  | (_, w1) => (Exc OSError, w1)
  end.

(** [psutil.virtual_memory().available] *)
Definition virtual_memory_available : IO Z := λ w,
  match issue OpVirtualMemory w with
  | (IoOk, w1) => (Val (mem_available w1), w1)
  | (_, w1) => (Exc OSError, w1)
  end.

(** [with open(CONFIG_FILE, "w") as f: json.dump(index, f)]; a write that
    fails midway leaves an unparsable file. *)
Definition write_config (index : PyDict.t path path) : IO unit := λ w,
  match issue OpSaveConfig w with
  | (IoOk, w1) => (Val (), with_config_file (Some index) w1)
  | (IoFail, w1) => (Exc OSError, w1)
  | (IoFailPartial _, w1) => (Exc OSError, with_config_file None w1)
  end.

(** ** [class AutoCacheManager] *)

Record AutoCacheManager := mkManager {
  cache_percent : float;
  min_cache_bytes : Z;
  max_cache_bytes : Z;
  running : bool;
  cache_dir : path;
  hdd_dir : path;
  cache_size_bytes : Z;
  cached_files : PyDict.t path path;
  ram_cache : RAMCache.t path
}.

Definition with_cache_size_bytes (v : Z) (m : AutoCacheManager) : AutoCacheManager :=
  mkManager (cache_percent m) (min_cache_bytes m) (max_cache_bytes m) (running m)
            (cache_dir m) (hdd_dir m) v (cached_files m) (ram_cache m).

Definition with_cached_files (d : PyDict.t path path) (m : AutoCacheManager)
  : AutoCacheManager :=
  mkManager (cache_percent m) (min_cache_bytes m) (max_cache_bytes m) (running m)
            (cache_dir m) (hdd_dir m) (cache_size_bytes m) d (ram_cache m).

Definition with_ram_cache (r : RAMCache.t path) (m : AutoCacheManager)
  : AutoCacheManager :=
  mkManager (cache_percent m) (min_cache_bytes m) (max_cache_bytes m) (running m)
            (cache_dir m) (hdd_dir m) (cache_size_bytes m) (cached_files m) r.

(** The manager object and the machine it runs on. *)
Record St := mkSt { mgr : AutoCacheManager; world : World }.

(** A method: a result or an exception, and the state it leaves. *)
Definition M (A : Type) := St → Res A * St.

#[global] Instance M_ret : MRet M := λ A a s, (Val a, s).

#[global] Instance M_bind : MBind M := λ A B f m s,
  match m s with
  | (Val a, s1) => f a s1
  | (Exc e, s1) => (Exc e, s1)
  end.

Definition raise {A} (e : exn) : M A := λ s, (Exc e, s).

Definition of_res {A} (r : Res A) : M A := λ s, (r, s).

Definition of_option {A} (e : exn) (o : option A) : M A :=
  match o with
  | Some a => mret a
  | None => raise e
  end.

Definition gets {A} (f : AutoCacheManager → A) : M A := λ s, (Val (f (mgr s)), s).

Definition modify (f : AutoCacheManager → AutoCacheManager) : M unit :=
  λ s, (Val (), mkSt (f (mgr s)) (world s)).

Definition io {A} (a : IO A) : M A := λ s,
  let (r, w) := a (world s) in (r, mkSt (mgr s) w).

Definition ask {A} (f : World → A) : M A := λ s, (Val (f (world s)), s).

(** [logging.info], [logging.error], ...: the record keeps the fixed part
    of the message. *)
Definition logging (lvl : level) (msg : string) : M unit := λ s,
  (Val (), mkSt (mgr s) (with_log (log (world s) ++ [(lvl, msg)]) (world s))).

(** [try: body / except (IOError, OSError): handler] *)
Definition try_except {A} (body : M A) (handler : M A) : M A := λ s,
  match body s with
  | (Exc e, s1) => if is_OSError e then handler s1 else (Exc e, s1)
  | r => r
  end.

(** [try: body / except Exception: handler] *)
Definition try_except_Exception {A} (body : M A) (handler : M A) : M A := λ s,
  match body s with
  | (Exc e, s1) => handler s1
  | r => r
  end.

(** The outcome of a [try] body whose [OSError] is handled by the caller:
    [inl ()] when the body raised it. *)
Definition attempt {A} (body : M A) : M (unit + A) :=
  try_except (a ← body; mret (inr a)) (mret (inl ())).

(** *** The RAM tier, as the manager uses it *)

(** [RAMCache.get_available_ram] *)
Definition get_available_ram : M Z :=
  available ← io virtual_memory_available;
  x ← of_res (int_mul_float available 0.9);
  of_res (py_int x).

(** [self.ram_cache.update_max_size()] *)
Definition ram_update_max_size : M unit :=
  new_size ← get_available_ram;
  modify (λ m, with_ram_cache (RAMCache.update_max_size new_size (ram_cache m)) m).

(** [self.ram_cache.trim_cache()] *)
Definition ram_trim_cache : M unit :=
  modify (λ m, with_ram_cache (RAMCache.trim_cache (ram_cache m)) m).

(** [self.ram_cache.add(path, data)] *)
Definition ram_add (p : path) (data : bytes) : M bool :=
  new_size ← get_available_ram;
  r ← gets ram_cache;
  '(ok, r') ← of_option KeyError (RAMCache.add new_size p data r);
  modify (with_ram_cache r');;
  mret ok.

(** [self.ram_cache.get(path)] *)
Definition ram_get (p : path) : M (option bytes) :=
  r ← gets ram_cache;
  '(data, r') ← of_option KeyError (RAMCache.get p r);
  modify (with_ram_cache r');;
  mret data.

(** *** Index persistence and usage *)

Definition save_cache : M unit :=
  try_except
    (index ← gets cached_files; io (write_config index))
    (logging ERROR "Failed to save cache config").

Definition get_cache_size : M Z :=
  try_except_Exception
    (dir ← gets cache_dir; io (scan dir))
    (logging ERROR "Error calculating cache size";; mret 0).

(** *** Eviction *)

(** The first entry of a non-empty list with the least key, as [min(...,
    key=...)] returns it. *)
Fixpoint first_min (best : path * Z) (rest : list (path * Z)) : path :=
  match rest with
  | [] => best.1
  | x :: rest' => if decide (x.2 < best.2) then first_min x rest' else first_min best rest'
  end.

(** [Path(f).stat().st_atime] for every key, in order. *)
Fixpoint atimes (ks : list path) : M (list (path * Z)) :=
  match ks with
  | [] => mret []
  | f :: ks' =>
      '(_, a) ← io (stat f);
      rest ← atimes ks';
      mret ((f, a) :: rest)
  end.

(** [min(self.cached_files.keys(), key=lambda f: Path(f).stat().st_atime)] *)
Definition select_oldest : M path :=
  ks ← gets (λ m, PyDict.keys (cached_files m));
  keyed ← atimes ks;
  match keyed with
  | [] => raise ValueError
  | x :: rest => mret (first_min x rest)
  end.

(** [del self.cached_files[f]] *)
Definition del_index (f : path) : M unit :=
  index ← gets cached_files;
  index' ← of_option KeyError (PyDict.del f index);
  modify (with_cached_files index').

(** Lines 198-203: the [try] body of [clean_cache] after [oldest_file]
    is bound. *)
Definition evict (oldest_file : path) : M Z :=
  index ← gets cached_files;
  cache_dest ← of_option KeyError (PyDict.get oldest_file index);
  io (os_remove oldest_file);;
  io (shutil_move cache_dest oldest_file);;
  del_index oldest_file;;
  save_cache;;
  get_cache_size.

(** Lines 204-206: the handler uses whatever [oldest_file] is bound to
    when the exception arrives. *)
Definition evict_failed (oldest_file : option path) : M unit :=
  logging ERROR "Error cleaning cache";;
  f ← of_option UnboundLocalError oldest_file;
  del_index f.

(** One iteration of the [while] loop of [clean_cache].  The locals
    [oldest_file] and [current_size] go in and come out. *)
Definition clean_iteration (oldest_file : option path) (current_size : Z)
  : M (option path * Z) :=
  selected ← attempt select_oldest;
  match selected with
  | inl _ => evict_failed oldest_file;; mret (oldest_file, current_size)
  | inr f =>
      evicted ← attempt (evict f);
      match evicted with
      | inl _ => evict_failed (Some f);; mret (Some f, current_size)
      | inr size => mret (Some f, size)
      end
  end.

(** [current_size > self.cache_size_bytes and self.cached_files] *)
Definition clean_guard (current_size : Z) (m : AutoCacheManager) : bool :=
  bool_decide (current_size > cache_size_bytes m)
  && bool_decide (cached_files m ≠ []).

(** The [while] loop, for at most [fuel] evaluations of its guard;
    [None] when the fuel is used up first. *)
Fixpoint clean_loop (fuel : nat) (oldest_file : option path) (current_size : Z)
  : M (option unit) :=
  match fuel with
  | O => mret None
  | S fuel' =>
      continue ← gets (clean_guard current_size);
      if continue : bool then
        '(oldest_file', current_size') ← clean_iteration oldest_file current_size;
        clean_loop fuel' oldest_file' current_size'
      else mret (Some ())
  end.

(** [clean_cache]: every iteration that completes shortens the index, so
    one guard evaluation more than there are entries is enough. *)
Definition clean_cache : M unit :=
  ram_trim_cache;;
  current_size ← get_cache_size;
  n ← gets (λ m, length (cached_files m));
  clean_loop (S n) None current_size;;
  mret ().

(** *** Budget *)

Definition adjust_cache_size : M unit :=
  '(total, free) ← io disk_usage;
  pct ← gets cache_percent;
  lo ← gets min_cache_bytes;
  hi ← gets max_cache_bytes;
  new_size ← of_res (compute_disk_budget free total pct lo hi);
  current ← gets cache_size_bytes;
  if decide (Z.abs (new_size - current) > GiB) then
    modify (with_cache_size_bytes new_size);;
    clean_cache
  else mret ().

Definition has_space (file_size : Z) : M bool :=
  '(total, free) ← io disk_usage;
  min_free ← of_res (int_mul_float total 0.05);
  if int_gt_float (free - file_size) min_free then
    used ← get_cache_size;
    budget ← gets cache_size_bytes;
    mret (bool_decide (used + file_size <= budget))
  else mret false.

(** *** Migration *)

(** Lines 176-186: the [try] body of [cache_file]. *)
Definition migrate (file_path cache_dest : path) : M unit :=
  data ← io (read_file file_path);
  ok ← ram_add file_path data;
  (if ok : bool then logging INFO "Cached to RAM" else mret ());;
  io (mkdir_parents (parent cache_dest));;
  io (copy2 file_path cache_dest);;
  io (os_remove file_path);;
  io (os_symlink cache_dest file_path);;
  modify (λ m, with_cached_files (PyDict.set file_path cache_dest (cached_files m)) m);;
  save_cache;;
  logging INFO "Cached to SSD".

(** Lines 187-190: the handler. *)
Definition roll_back (file_path cache_dest : path) : M unit :=
  logging ERROR "Failed to cache";;
  present ← ask (path_exists cache_dest);
  if present : bool then io (shutil_move cache_dest file_path) else mret ().

Definition cache_file (file_path : path) : M unit :=
  ram_data ← ram_get file_path;
  match ram_data with
  | Some _ => logging INFO "File served from RAM cache"
  | None =>
      index ← gets cached_files;
      match PyDict.get file_path index with
      | Some cache_dest =>
          data ← io (read_file cache_dest);
          ok ← ram_add file_path data;
          if ok : bool then logging INFO "Loaded to RAM cache" else mret ()
      | None =>
          base ← gets hdd_dir;
          rel ← of_option ValueError (relative_to base file_path);
          dir ← gets cache_dir;
          let cache_dest := dir ++ rel in
          '(file_size, _) ← io (stat file_path);
          adjust_cache_size;;
          enough ← has_space file_size;
          proceed ← (if enough : bool then mret true
                     else clean_cache;; has_space file_size);
          if proceed : bool
          then try_except (migrate file_path cache_dest)
                          (roll_back file_path cache_dest)
          else mret ()
      end
  end.

(** *** The monitor *)

(** One pass of the body of [monitor_system], [time.sleep(60)] left
    out. *)
Definition monitor_tick : M unit :=
  adjust_cache_size;;
  ram_update_max_size.

(** [monitor_system], for at most [ticks] passes; [None] when the loop is
    still running after them. *)
Fixpoint monitor_system (ticks : nat) : M (option unit) :=
  match ticks with
  | O => mret None
  | S ticks' =>
      continue ← gets running;
      if continue : bool then monitor_tick;; monitor_system ticks'
      else mret (Some ())
  end.

(** *** The initial caching run *)

(** [cache_file] on each path of a list, in order; the first exception
    ends it. *)
Fixpoint cache_each (ps : list path) : M unit :=
  match ps with
  | [] => mret ()
  | p :: ps' => cache_file p;; cache_each ps'
  end.

(** Lines 221-229 of [run], for the sequence of [(root, files)] that
    [os.walk(self.hdd_dir)] yields; [is_target p] stands for
    [p.suffix.lower() in TARGET_EXTENSIONS].  The monitor thread that
    [run] starts beforehand and the idle loop that follows are not part
    of it. *)
Section InitialRun.
Variable is_target : path → bool.

(** The inner loop, lines 224-227. *)
Fixpoint cache_files (root : path) (files : list string) : M unit :=
  match files with
  | [] => mret ()
  | file :: files' =>
      (if is_target (root ++ [file]) then cache_file (root ++ [file]) else mret ());;
      cache_files root files'
  end.

(** The outer loop, lines 221-227, with its [break]. *)
Fixpoint sweep (walk : list (path * list string)) : M unit :=
  match walk with
  | [] => mret ()
  | (root, files) :: walk' =>
      continue ← gets running;
      if continue : bool then cache_files root files;; sweep walk' else mret ()
  end.

Definition initial_run (walk : list (path * list string)) : M unit :=
  sweep walk;;
  clean_cache;;
  logging INFO "Initial cache run completed".

(** The paths of a walk with a target extension, in the order of the
    walk. *)
Definition targets (walk : list (path * list string)) : list path :=
  flat_map (λ rf : path * list string,
              filter (λ p, is_target p = true) (map (λ file, rf.1 ++ [file]) rf.2))
           walk.

End InitialRun.

(** ** Observations on a trace *)

Definition is_copy (op : fs_op) : bool :=
  match op with OpCopy _ _ => true | _ => false end.

(** The number of copy operations issued. *)
Definition copy_count (t : list fs_op) : nat := length (filter (λ op, is_copy op = true) t).

(** ** Relations between the states before and after a method *)

(** Every run of [m] relates the state before to the state after. *)
Definition frame {A} (R : relation St) (m : M A) : Prop :=
  ∀ (s : St) (r : Res A) (s' : St), m s = (r, s') → R s s'.

(** Relations that the operations of eviction, budget and RAM tier
    respect: every operation but the copy, the creation of a link and the
    insertion into the index. *)
Class Quiet (R : relation St) := {
  quiet_preorder :: PreOrder R;
  quiet_stat p : frame R (io (stat p));
  quiet_remove p : frame R (io (os_remove p));
  quiet_move src dst : frame R (io (shutil_move src dst));
  quiet_scan dir : frame R (io (scan dir));
  quiet_disk_usage : frame R (io disk_usage);
  quiet_virtual_memory : frame R (io virtual_memory_available);
  quiet_write_config index : frame R (io (write_config index));
  quiet_logging lvl msg : frame R (logging lvl msg);
  quiet_ram g : frame R (modify (λ m, with_ram_cache (g m) m));
  quiet_budget v : frame R (modify (with_cache_size_bytes v));
  quiet_del f : frame R (del_index f)
}.

(** The index only loses entries. *)
Definition index_sub : relation St := λ s s',
  cached_files (mgr s') `sublist_of` cached_files (mgr s).

(** [a] issues exactly the operation [op]. *)
Definition issues {A} (op : fs_op) (a : IO A) : Prop :=
  ∀ (w : World) (r : Res A) (w' : World),
    a w = (r, w') → trace w' = trace w ++ [op].

(** The operations issued between two states all satisfy [P]. *)
Definition trace_ext (P : fs_op → Prop) : relation St := λ s s',
  ∃ ops, trace (world s') = trace (world s) ++ ops ∧ Forall P ops.

Definition not_copy (op : fs_op) : Prop := is_copy op = false.

(** [a] leaves the file system as it is. *)
Definition reads_only {A} (a : IO A) : Prop :=
  ∀ (w : World) (r : Res A) (w' : World), a w = (r, w') → fs w' = fs w.

(** Two relations at once. *)
Definition both (R1 R2 : relation St) : relation St := λ s s', R1 s s' ∧ R2 s s'.

(** Only paths that satisfy [P] enter the index. *)
Definition adds_only (P : path → Prop) : relation St := λ s s',
  ∀ q, ¬ P q →
       PyDict.get q (cached_files (mgr s)) = None →
       PyDict.get q (cached_files (mgr s')) = None.

(** A component of the manager stays as it is. *)
Definition keeps {X} (proj : AutoCacheManager → X) : relation St := λ s s',
  proj (mgr s') = proj (mgr s).

(** Relations on the manager that no system call, no log record, no
    change of the RAM tier and no removal from the index disturbs. *)
Class Steady (R : relation St) := {
  steady_preorder :: PreOrder R;
  steady_io {A} (a : IO A) : frame R (io a);
  steady_logging lvl msg : frame R (logging lvl msg);
  steady_ram g : frame R (modify (λ m, with_ram_cache (g m) m));
  steady_del f : frame R (del_index f)
}.

(** Every entry of the index is a link at the origin that leads to a
    regular file, and no two entries share a cached copy. *)
Definition index_consistent (index : PyDict.t path path) (files : gmap path node)
  : Prop :=
  NoDup index.*2
  ∧ ∀ f dest, (f, dest) ∈ index →
      files !! f = Some (Symlink dest) ∧ ∃ d a, files !! dest = Some (File d a).

(** The state [s] is what completed evictions leave of an index [index0]
    over the files [files0]: the entries still recorded are untouched, the
    origin of every other entry holds what its cached copy held and the
    copy is gone, and no other path has changed. *)
Definition restored_from (index0 : PyDict.t path path) (files0 : gmap path node)
    (s : St) : Prop :=
  cached_files (mgr s) `sublist_of` index0
  ∧ (∀ f dest, (f, dest) ∈ cached_files (mgr s) →
       fs (world s) !! f = files0 !! f ∧ fs (world s) !! dest = files0 !! dest)
  ∧ (∀ f dest, (f, dest) ∈ index0 → (f, dest) ∉ cached_files (mgr s) →
       fs (world s) !! f = files0 !! dest ∧ fs (world s) !! dest = None)
  ∧ (∀ o, o ∉ index0.*1 → o ∉ index0.*2 → fs (world s) !! o = files0 !! o).

(** How the next call ends, and the world once it is issued. *)
Definition next_outcome (w : World) : io_outcome := default IoOk (head (faults w)).

Definition advance (op : fs_op) (w : World) : World :=
  with_faults (tail (faults w)) (with_trace (trace w ++ [op]) w).

(** The state [s'] is [s] after the call [op] has been issued and has left
    the files [files]. *)
Definition after_call (op : fs_op) (files : gmap path node) (s s' : St) : Prop :=
  mgr s' = mgr s
  ∧ fs (world s') = files
  ∧ faults (world s') = tail (faults (world s))
  ∧ trace (world s') = trace (world s) ++ [op]
  ∧ log (world s') = log (world s).

(** No coming call fails midway through a copy or a move. *)
Definition no_partial (w : World) : Prop :=
  Forall (λ o, ∀ n, o ≠ IoFailPartial n) (faults w).

(** ** Scenarios *)

Definition zeros (n : nat) : bytes := repeat Byte.x00 n.

(** A tier of capacity 1000 that holds 600 bytes under ["a"]. *)
Definition ram_with_a : RAMCache.t string :=
  {| RAMCache.cache := [("a"%string, zeros 600)]; RAMCache.max_size := 1000 |}.

(** A tier of capacity 1000 that holds "a" (600 bytes, least recently
    used) and "b" (300 bytes). *)
Definition ram_with_a_b : RAMCache.t string :=
  {| RAMCache.cache := [("a"%string, zeros 600); ("b"%string, zeros 300)];
     RAMCache.max_size := 1000 |}.

(** The same tier after a hit on "a". *)
Definition ram_with_b_a : RAMCache.t string :=
  {| RAMCache.cache := [("b"%string, zeros 300); ("a"%string, zeros 600)];
     RAMCache.max_size := 1000 |}.

(** A machine with a 1000 GiB fast disk and a manager with the default
    tunables, an empty index and an empty RAM tier. *)
Definition hdd_root : path := ["D:"%string].
Definition ssd_cache_root : path := ["C:"%string; "Cache"%string].

Definition manager0 (budget : Z) : AutoCacheManager :=
  mkManager DEFAULT_CACHE_PERCENT (MIN_CACHE_GB * GiB) (MAX_CACHE_GB * GiB) true
            ssd_cache_root hdd_root budget [] (RAMCache.init 0).

Definition world0 (files : gmap path node) (free : Z) (schedule : list io_outcome)
  : World :=
  mkWorld files (1000 * GiB) free (8 * GiB) 100 None schedule [] [].

(** The fast disk has exactly 5% of its capacity free once a 1 MiB file
    is added; nothing is cached yet and the budget is 300 GiB. *)
Definition MiB : Z := 1024 * 1024.

Definition st_exact_reserve : St :=
  mkSt (manager0 (300 * GiB)) (world0 ∅ (50 * GiB + MiB) []).

(** One file has been migrated: the origin is a link to the copy on the
    fast disk and the index records it. *)
Definition origin_a : path := ["D:"; "apps"; "a.exe"]%string.
Definition cached_a : path := ["C:"; "Cache"; "apps"; "a.exe"]%string.
Definition content_a : bytes := [Byte.x4d; Byte.x5a; Byte.x90; Byte.x00].

Definition fs_migrated : gmap path node :=
  {[ origin_a := Symlink cached_a; cached_a := File content_a 7 ]}.

Definition manager_migrated (budget : Z) : AutoCacheManager :=
  mkManager DEFAULT_CACHE_PERCENT (MIN_CACHE_GB * GiB) (MAX_CACHE_GB * GiB) true
            ssd_cache_root hdd_root budget [(origin_a, cached_a)] (RAMCache.init 0).

(** The migrated file, ample space and no failure ahead. *)
Definition st_migrated : St :=
  mkSt (manager_migrated (300 * GiB)) (world0 fs_migrated (600 * GiB) []).

(** Two files have been migrated; the second one was accessed longer
    ago. *)
Definition origin_b : path := ["D:"; "apps"; "b.dll"]%string.
Definition cached_b : path := ["C:"; "Cache"; "apps"; "b.dll"]%string.

Definition st_two_migrated : St :=
  mkSt (mkManager DEFAULT_CACHE_PERCENT (MIN_CACHE_GB * GiB) (MAX_CACHE_GB * GiB) true
          ssd_cache_root hdd_root (300 * GiB)
          [(origin_a, cached_a); (origin_b, cached_b)] (RAMCache.init 0))
       (world0 {[ origin_a := Symlink cached_a; cached_a := File content_a 7;
                  origin_b := Symlink cached_b; cached_b := File content_a 3 ]}
               (600 * GiB) []).

(** A link on the slow disk whose target is gone, beside a plain file;
    the walk lists the link first. *)
Definition origin_ghost : path := ["D:"; "apps"; "ghost.exe"]%string.

Definition st_dangling : St :=
  mkSt (manager0 (300 * GiB))
       (world0 {[ origin_ghost := Symlink ["D:"; "gone"]%string;
                  origin_a := File content_a 7 ]}
               (600 * GiB) []).

Definition walk_apps : list (path * list string) :=
  [(["D:"; "apps"]%string, ["ghost.exe"; "a.exe"; "notes.txt"]%string)].

Definition walk_plain : list (path * list string) :=
  [(["D:"; "apps"]%string, ["a.exe"; "notes.txt"]%string)].

Definition notes : path := ["D:"; "apps"; "notes.txt"]%string.

(** [True] for the names of [walk_apps] that end in [.exe]. *)
Definition is_exe (p : path) : bool :=
  bool_decide (last p = Some "ghost.exe"%string ∨ last p = Some "a.exe"%string).

(** The same two files with a budget of four bytes: one of them has to
    go. *)
Definition st_two_over_budget : St :=
  mkSt (with_cache_size_bytes 4 (mgr st_two_migrated)) (world st_two_migrated).

(** The budget is exhausted and the unlink of the origin is about to
    fail (the [stat] before it succeeds). *)
Definition st_unlink_fails : St :=
  mkSt (manager_migrated 0) (world0 fs_migrated (600 * GiB) [IoOk; IoFail]).

(** A plain file on the slow disk, not migrated yet. *)
Definition fs_plain : gmap path node := {[ origin_a := File content_a 7 ]}.

(** The file is held in RAM. *)
Definition st_in_ram : St :=
  mkSt (mkManager DEFAULT_CACHE_PERCENT (MIN_CACHE_GB * GiB) (MAX_CACHE_GB * GiB) true
          ssd_cache_root hdd_root (300 * GiB) []
          (RAMCache.mk [(origin_a, content_a); (origin_b, content_a)] 1000))
       (world0 fs_plain (600 * GiB) []).

(** 1112 bytes of memory are available, so that the RAM tier has room
    for 1000 bytes, and the tier holds "a" (600 bytes, least recently
    used) and "b" (500 bytes), as two calls of [add] leave it. *)
Definition st_ram_overfull : St :=
  mkSt (mkManager DEFAULT_CACHE_PERCENT (MIN_CACHE_GB * GiB) (MAX_CACHE_GB * GiB) true
          ssd_cache_root hdd_root (300 * GiB) []
          (RAMCache.mk [(origin_a, zeros 600); (origin_b, zeros 500)] 1000))
       (mkWorld fs_plain (1000 * GiB) (600 * GiB) 1112 100 None [] [] []).

(** Ample space, but the next system call fails: the file has become
    unreachable. *)
Definition st_stat_fails : St :=
  mkSt (manager0 (300 * GiB)) (world0 fs_plain (600 * GiB) [IoFail]).

(** Ample space: the first [cache_file] migrates the file. *)
Definition st_fresh : St :=
  mkSt (manager0 (300 * GiB)) (world0 fs_plain (600 * GiB) []).

(** 10 GiB free of 1000 GiB: less than the 5% reserve. *)
Definition st_no_space : St :=
  mkSt (manager0 (300 * GiB)) (world0 fs_plain (10 * GiB) []).

(** Ample space, but the copy to the fast disk fails after two bytes (the
    seven operations before it succeed). *)
Definition st_copy_fails : St :=
  mkSt (manager0 (300 * GiB))
       (world0 fs_plain (600 * GiB) (replicate 7 IoOk ++ [IoFailPartial 2])).

(** Ample space, but the origin cannot be removed after the copy (it is
    in use) and the move back fails for the same reason. *)
Definition st_origin_locked : St :=
  mkSt (manager0 (300 * GiB))
       (world0 fs_plain (600 * GiB) (replicate 8 IoOk ++ [IoFail; IoFail])).

(** Seen from [migrate] alone: the removal of the origin fails after the
    copy (read, memory query, mkdir and copy succeed). *)
Definition st_remove_fails : St :=
  mkSt (manager0 (300 * GiB))
       (world0 fs_plain (600 * GiB) (replicate 4 IoOk ++ [IoFail])).

(** The disk-usage query of the next monitor tick fails. *)
Definition st_usage_query_fails : St :=
  mkSt (manager_migrated (300 * GiB)) (world0 fs_migrated (600 * GiB) [IoFail]).

(** The memory query of the next monitor tick fails. *)
Definition st_memory_query_fails : St :=
  mkSt (manager_migrated (300 * GiB)) (world0 fs_migrated (600 * GiB) [IoOk; IoFail]).

(** * Properties *)

(** ** Dictionaries *)

Section PyDictFacts.
Context {K V : Type} `{EqDecision K}.
Implicit Types (d : PyDict.t K V) (key : K) (v : V).

Lemma dict_mem_get key d :
  PyDict.mem key d = true ↔ is_Some (PyDict.get key d).
Proof.
  unfold PyDict.mem, PyDict.keys. rewrite bool_decide_eq_true.
  induction d as [|[k v0] d IH]; simpl.
  - split; [intros Hin; inversion Hin | intros [? ?]; discriminate].
  - rewrite elem_of_cons. destruct (decide (k = key)) as [->|Hne].
    + split; eauto.
    + rewrite <- IH. split; [intros [?|?]; [congruence|done] | auto].
Qed.

Lemma dict_get_set key v d : PyDict.get key (PyDict.set key v d) = Some v.
Proof.
  induction d as [|[k v0] d IH]; simpl.
  - by rewrite decide_True.
  - destruct (decide (k = key)) as [->|Hne]; simpl.
    + by rewrite decide_True.
    + by rewrite decide_False.
Qed.

Lemma dict_get_set_ne key key' v d :
  key ≠ key' → PyDict.get key' (PyDict.set key v d) = PyDict.get key' d.
Proof.
  intros Hne. induction d as [|[k v0] d IH]; simpl.
  - by rewrite decide_False.
  - destruct (decide (k = key)) as [->|Hk]; simpl.
    + by rewrite !decide_False.
    + destruct (decide (k = key')); auto.
Qed.

Lemma dict_remove_set key v d :
  PyDict.remove key (PyDict.set key v d) = PyDict.remove key d.
Proof.
  unfold PyDict.remove. induction d as [|[k v0] d IH]; simpl.
  - rewrite filter_cons. simpl. by rewrite decide_False by auto.
  - destruct (decide (k = key)) as [->|Hne].
    + rewrite !filter_cons. simpl. by rewrite !decide_False by auto.
    + rewrite !filter_cons. simpl. rewrite !decide_True by auto. by rewrite IH.
Qed.

Lemma dict_keys_remove key d : key ∉ PyDict.keys (PyDict.remove key d).
Proof.
  unfold PyDict.keys, PyDict.remove. rewrite list_elem_of_fmap.
  intros [[k v] [-> Hin]]. apply list_elem_of_filter in Hin as [Hne _]. by apply Hne.
Qed.

Lemma dict_remove_length key d :
  (length (PyDict.remove key d) <= length d)%nat.
Proof. apply length_filter. Qed.

Lemma dict_remove_shorter key d :
  key ∈ PyDict.keys d → (length (PyDict.remove key d) < length d)%nat.
Proof.
  unfold PyDict.keys, PyDict.remove. induction d as [|[k v0] d IH]; simpl.
  - intros Hin; inversion Hin.
  - rewrite elem_of_cons, filter_cons. simpl. intros Hin.
    destruct (decide (k ≠ key)) as [Hne|Heq].
    + simpl. destruct Hin as [->|Hin]; [done|]. specialize (IH Hin). lia.
    + pose proof (length_filter (λ kv : K * V, kv.1 ≠ key) d). lia.
Qed.

Lemma dict_del_shorter key d d' :
  PyDict.del key d = Some d' → (length d' < length d)%nat.
Proof.
  unfold PyDict.del. destruct (PyDict.mem key d) eqn:Hmem; [|discriminate].
  intros [= <-]. apply dict_remove_shorter.
  unfold PyDict.mem in Hmem. by apply bool_decide_eq_true in Hmem.
Qed.

Lemma dict_move_to_end_set key v d :
  PyDict.move_to_end key (PyDict.set key v d)
  = Some (PyDict.remove key d ++ [(key, v)]).
Proof.
  unfold PyDict.move_to_end. rewrite dict_get_set. simpl.
  by rewrite dict_remove_set.
Qed.

Lemma dict_get_remove_app key v d :
  PyDict.get key (PyDict.remove key d ++ [(key, v)]) = Some v.
Proof.
  unfold PyDict.remove. induction d as [|[k v0] d IH]; simpl.
  - by rewrite decide_True.
  - rewrite filter_cons. simpl. destruct (decide (k ≠ key)) as [Hne|Heq]; [|done].
    simpl. by rewrite decide_False.
Qed.

Lemma dict_count_remove_app key v d :
  length (filter (λ kv : K * V, kv.1 = key) (PyDict.remove key d ++ [(key, v)])) = 1%nat.
Proof.
  rewrite filter_app, length_app, (filter_cons _ (key, v)), filter_nil. simpl.
  rewrite decide_True by done. simpl.
  assert (filter (λ kv : K * V, kv.1 = key) (PyDict.remove key d) = []) as ->; [|done].
  unfold PyDict.remove. induction d as [|[k v0] d IH]; [done|].
  rewrite filter_cons. simpl. destruct (decide (k ≠ key)) as [Hne|Heq]; [|done].
  rewrite filter_cons. simpl. by rewrite decide_False.
Qed.

End PyDictFacts.

(** ** The RAM tier *)

Section RAMCacheFacts.
Context {K : Type} `{EqDecision K}.
Implicit Types (c : PyDict.t K bytes) (s : RAMCache.t K) (key : K).

Lemma data_len_nonneg (data : bytes) : 0 <= data_len data.
Proof. unfold data_len. lia. Qed.

Lemma current_size_nil : RAMCache.current_size (@nil (K * bytes)) = 0.
Proof. reflexivity. Qed.

Lemma current_size_cons key (data : bytes) c :
  RAMCache.current_size ((key, data) :: c) = data_len data + RAMCache.current_size c.
Proof. reflexivity. Qed.

Lemma current_size_nonneg c : 0 <= RAMCache.current_size c.
Proof.
  induction c as [|[k d] c IH]; [done|].
  rewrite current_size_cons. pose proof (data_len_nonneg d). lia.
Qed.

Lemma current_size_app c1 c2 :
  RAMCache.current_size (c1 ++ c2) = RAMCache.current_size c1 + RAMCache.current_size c2.
Proof.
  induction c1 as [|[k d] c1 IH]; [done|].
  rewrite <- app_comm_cons, !current_size_cons, IH. lia.
Qed.

Lemma current_size_remove key c :
  RAMCache.current_size (PyDict.remove key c) <= RAMCache.current_size c.
Proof.
  unfold PyDict.remove. induction c as [|[k d] c IH]; [done|].
  rewrite filter_cons. simpl. pose proof (data_len_nonneg d).
  destruct (decide (k ≠ key)); rewrite ?current_size_cons; lia.
Qed.

Lemma current_size_remove_get key (data : bytes) c :
  PyDict.get key c = Some data →
  RAMCache.current_size (PyDict.remove key c) + data_len data <= RAMCache.current_size c.
Proof.
  unfold PyDict.remove. induction c as [|[k d] c IH]; simpl; [done|].
  rewrite filter_cons. simpl. destruct (decide (k = key)) as [->|Hne].
  - intros [= ->]. rewrite decide_False by auto. rewrite current_size_cons.
    pose proof (current_size_remove key c). unfold PyDict.remove in *. lia.
  - intros Hget. rewrite decide_True by auto. rewrite !current_size_cons.
    specialize (IH Hget). lia.
Qed.

(** The trimming loop ends within the capacity, whatever it started
    from. *)
Lemma trim_entries_fits limit c :
  0 <= limit → RAMCache.current_size (RAMCache.trim_entries limit c) <= limit.
Proof.
  intros Hlim. induction c as [|kv c IH]; simpl; [done|].
  case_decide; [done|]. lia.
Qed.

Lemma trim_entries_id limit c :
  RAMCache.current_size c <= limit → RAMCache.trim_entries limit c = c.
Proof.
  destruct c as [|kv c]; simpl; [done|]. intros Hle. case_decide; [lia|done].
Qed.

Lemma trim_entries_fits_or_empty limit c :
  RAMCache.trim_entries limit c = []
  ∨ RAMCache.current_size (RAMCache.trim_entries limit c) <= limit.
Proof.
  induction c as [|kv c IH]; simpl; [by left|].
  case_decide; [done|]. right. lia.
Qed.

(** The trim stops as soon as what is left fits. *)
Lemma trim_entries_longest limit c c' :
  c' `suffix_of` c → RAMCache.current_size c' <= limit →
  c' `suffix_of` RAMCache.trim_entries limit c.
Proof.
  induction c as [|kv c IH]; intros Hsuf Hfit; simpl; [done|].
  case_decide as Hgt; [|done]. apply IH; [|done].
  destruct c' as [|kv' c'']; [apply suffix_nil|].
  apply suffix_cons_inv in Hsuf as [Heq | Hsuf]; [|done].
  rewrite Heq in Hfit. lia.
Qed.

Lemma trim_entries_idem limit c :
  RAMCache.trim_entries limit (RAMCache.trim_entries limit c)
  = RAMCache.trim_entries limit c.
Proof.
  induction c as [|kv c IH]; simpl; [done|].
  case_decide as Hgt; [done|]. simpl. by rewrite decide_False.
Qed.

(** Only the oldest entries go: what stays is a suffix, in order. *)
Lemma trim_entries_suffix limit c :
  RAMCache.trim_entries limit c `suffix_of` c.
Proof.
  induction c as [|kv c IH]; simpl; [done|].
  case_decide; [by apply suffix_cons_r | done].
Qed.

Lemma trim_cache_idem s :
  RAMCache.trim_cache (RAMCache.trim_cache s) = RAMCache.trim_cache s.
Proof. unfold RAMCache.trim_cache. simpl. by rewrite trim_entries_idem. Qed.

Lemma trim_cache_within s :
  0 <= RAMCache.max_size s → RAMCache.within_capacity (RAMCache.trim_cache s).
Proof. intros Hn. unfold RAMCache.within_capacity. simpl. by apply trim_entries_fits. Qed.

Lemma update_max_size_within new_size s :
  0 <= new_size →
  RAMCache.within_capacity (RAMCache.update_max_size new_size s).
Proof. intros Hn. unfold RAMCache.within_capacity. simpl. by apply trim_entries_fits. Qed.

(** [add] in closed form: it never raises, refuses a payload above the
    fresh capacity and otherwise appends it to what the trim left. *)
Lemma add_eq new_size key (data : bytes) s :
  RAMCache.add new_size key data s =
  if decide (data_len data > new_size)
  then Some (false, RAMCache.update_max_size new_size s)
  else Some (true,
             {| RAMCache.cache :=
                  PyDict.remove key (RAMCache.trim_entries new_size (RAMCache.cache s))
                  ++ [(key, data)];
                RAMCache.max_size := new_size |}).
Proof.
  unfold RAMCache.add. simpl. case_decide; [done|].
  rewrite trim_entries_idem, dict_move_to_end_set. done.
Qed.

Lemma get_eq key s :
  RAMCache.get key s =
  match PyDict.get key (RAMCache.cache s) with
  | Some data =>
      Some (Some data,
            {| RAMCache.cache := PyDict.remove key (RAMCache.cache s) ++ [(key, data)];
               RAMCache.max_size := RAMCache.max_size s |})
  | None => Some (None, s)
  end.
Proof.
  unfold RAMCache.get. destruct (PyDict.mem key (RAMCache.cache s)) eqn:Hmem.
  - apply dict_mem_get in Hmem as [data Hget]. unfold PyDict.move_to_end.
    rewrite Hget. simpl. by rewrite dict_get_remove_app.
  - destruct (PyDict.get key (RAMCache.cache s)) eqn:Hget; [|done].
    assert (PyDict.mem key (RAMCache.cache s) = true) by (apply dict_mem_get; eauto).
    congruence.
Qed.

(** [get] and [remove] keep the tier within its capacity. *)
Lemma get_within key s r s' :
  RAMCache.within_capacity s → RAMCache.get key s = Some (r, s') →
  RAMCache.within_capacity s'.
Proof.
  unfold RAMCache.within_capacity. rewrite get_eq.
  destruct (PyDict.get key (RAMCache.cache s)) as [data|] eqn:Hget; intros Hin [= <- <-]; [|done].
  simpl. rewrite current_size_app. pose proof (current_size_remove_get _ _ _ Hget).
  rewrite current_size_cons, current_size_nil. lia.
Qed.

Lemma remove_within key s s' :
  RAMCache.within_capacity s → RAMCache.remove key s = Some s' →
  RAMCache.within_capacity s'.
Proof.
  unfold RAMCache.within_capacity, RAMCache.remove, PyDict.del.
  destruct (PyDict.mem key (RAMCache.cache s)); simpl; intros Hin [= <-]; [|done].
  simpl. pose proof (current_size_remove key (RAMCache.cache s)). lia.
Qed.

(** What [add] does guarantee: the new payload on top of a trimmed
    tier. *)
Lemma add_size_bound new_size key (data : bytes) s s' :
  0 <= new_size → RAMCache.add new_size key data s = Some (true, s') →
  RAMCache.current_size (RAMCache.cache s') <= RAMCache.max_size s' + data_len data.
Proof.
  intros Hn. rewrite add_eq. case_decide; [done|]. intros [= <-]. simpl.
  rewrite current_size_app, current_size_cons, current_size_nil.
  pose proof (current_size_remove key (RAMCache.trim_entries new_size (RAMCache.cache s))).
  pose proof (trim_entries_fits new_size (RAMCache.cache s) Hn). lia.
Qed.

End RAMCacheFacts.

(** *** Claims on the RAM tier *)

(** C1 (fails on the code): the tier is meant to hold at most its capacity
    after every operation, but [add] trims before it inserts and never
    makes room for the incoming payload.  With a capacity of 1000 bytes,
    adding 600 bytes under "a" and then 500 bytes under "b" returns
    success twice and leaves 1100 bytes stored. *)
Theorem add_leaves_tier_over_capacity :
  ∃ s1 s2 : RAMCache.t string,
    RAMCache.add 1000 "a"%string (zeros 600) (RAMCache.init 1000) = Some (true, s1)
    ∧ RAMCache.within_capacity s1
    ∧ RAMCache.add 1000 "b"%string (zeros 500) s1 = Some (true, s2)
    ∧ RAMCache.max_size s2 = 1000
    ∧ RAMCache.current_size (RAMCache.cache s2) = 1100
    ∧ ¬ RAMCache.within_capacity s2.
Proof.
  eexists _, _. split; [vm_compute; reflexivity|].
  split; [unfold RAMCache.within_capacity; vm_compute; discriminate|].
  split; [vm_compute; reflexivity|].
  split; [reflexivity|]. split; [vm_compute; reflexivity|].
  unfold RAMCache.within_capacity. vm_compute. intros Hle. by apply Hle.
Qed.

(** C2 (fails on the code): in the scenario of capacity 1000, add("a", 600
    bytes) succeeds, and add("b", 500 bytes) succeeds too but evicts
    nothing: both "a" and "b" are present afterwards, "a" with its 600
    bytes. *)
Theorem scenario_add_b_does_not_evict_a :
  ∃ s1 s2 : RAMCache.t string,
    RAMCache.add 1000 "a"%string (zeros 600) (RAMCache.init 1000) = Some (true, s1)
    ∧ RAMCache.add 1000 "b"%string (zeros 500) s1 = Some (true, s2)
    ∧ PyDict.keys (RAMCache.cache s2) = ["a"; "b"]%string
    ∧ PyDict.get "a"%string (RAMCache.cache s2) = Some (zeros 600).
Proof.
  eexists _, _. split; [vm_compute; reflexivity|].
  split; [vm_compute; reflexivity|]. split; vm_compute; reflexivity.
Qed.

(** C3 as stated fails: an oversize [add] first runs [update_max_size],
    whose trim evicts entries that no longer fit the fresh capacity.
    With "a" (600 bytes) stored and a fresh capacity of 500, adding 700
    bytes returns failure and leaves the tier empty. *)
Lemma add_oversize_evicts :
  data_len (zeros 700) > 500
  ∧ RAMCache.add 500 "b"%string (zeros 700) ram_with_a
    = Some (false, {| RAMCache.cache := []; RAMCache.max_size := 500 |})
  ∧ RAMCache.cache ram_with_a ≠ [].
Proof. split; [vm_compute; reflexivity|]. split; [vm_compute; reflexivity|done]. Qed.

(** C3, amended: when the payload exceeds the freshly recomputed
    capacity, [add] returns failure without raising and inserts nothing;
    the tier is left as [update_max_size] leaves it.  The capacity is the
    fresh one; the entries are a suffix of the entries before, so the
    least recently used ones are evicted and the others keep their
    payloads and their order; what is left fits the fresh capacity, or
    nothing is left (a negative capacity); no more is evicted than needed,
    since every suffix of the tier that fits is kept; and when the stored
    payloads fit the fresh capacity already, no entry changes. *)
Theorem add_oversize {K : Type} `{EqDecision K}
    (new_size : Z) (key : K) (data : bytes) (s : RAMCache.t K) :
  data_len data > new_size →
  ∃ s' : RAMCache.t K,
    RAMCache.add new_size key data s = Some (false, s')
    ∧ RAMCache.max_size s' = new_size
    ∧ RAMCache.cache s' `suffix_of` RAMCache.cache s
    ∧ (RAMCache.cache s' = []
       ∨ RAMCache.current_size (RAMCache.cache s') <= new_size)
    ∧ (∀ kept, kept `suffix_of` RAMCache.cache s →
               RAMCache.current_size kept <= new_size →
               kept `suffix_of` RAMCache.cache s')
    ∧ (RAMCache.current_size (RAMCache.cache s) <= new_size →
       RAMCache.cache s' = RAMCache.cache s).
Proof.
  intros Hbig. rewrite add_eq, decide_True by done. eexists. split; [reflexivity|].
  simpl. split; [done|]. split; [apply trim_entries_suffix|].
  split; [apply trim_entries_fits_or_empty|].
  split; [intros kept; apply trim_entries_longest | apply trim_entries_id].
Qed.

(** "a" (600 bytes) and "b" (300 bytes) are stored and the fresh capacity
    is 500: the refused [add] evicts "a" and keeps "b". *)
Lemma add_oversize_witness :
  ∃ s' : RAMCache.t string,
    RAMCache.add 500 "c"%string (zeros 501) ram_with_a_b = Some (false, s')
    ∧ RAMCache.max_size s' = 500
    ∧ RAMCache.cache s' `suffix_of` RAMCache.cache ram_with_a_b
    ∧ (RAMCache.cache s' = []
       ∨ RAMCache.current_size (RAMCache.cache s') <= 500)
    ∧ (∀ kept, kept `suffix_of` RAMCache.cache ram_with_a_b →
               RAMCache.current_size kept <= 500 →
               kept `suffix_of` RAMCache.cache s')
    ∧ (RAMCache.current_size (RAMCache.cache ram_with_a_b) <= 500 →
       RAMCache.cache s' = RAMCache.cache ram_with_a_b).
Proof.
  apply (add_oversize 500 "c"%string (zeros 501) ram_with_a_b).
  vm_compute. reflexivity.
Defined.

(** C10: a successful [add] under a key that is already present leaves
    exactly one entry for the key; it holds the new payload and is the
    most recently used; the other entries are those the trim kept, in
    their order, and the stored size counts them and the new payload
    only. *)
Theorem add_existing_key {K : Type} `{EqDecision K}
    (new_size : Z) (key : K) (data : bytes) (s s' : RAMCache.t K) :
  key ∈ PyDict.keys (RAMCache.cache s) →
  RAMCache.add new_size key data s = Some (true, s') →
  ∃ others : list (K * bytes),
    others = PyDict.remove key (RAMCache.trim_entries new_size (RAMCache.cache s))
    ∧ (key ∉ PyDict.keys others)
    ∧ RAMCache.cache s' = others ++ [(key, data)]
    ∧ length (filter (λ kv : K * bytes, kv.1 = key) (RAMCache.cache s')) = 1%nat
    ∧ PyDict.get key (RAMCache.cache s') = Some data
    ∧ last (RAMCache.cache s') = Some (key, data)
    ∧ RAMCache.current_size (RAMCache.cache s')
      = RAMCache.current_size others + data_len data.
Proof.
  intros _. rewrite add_eq. case_decide; [done|]. intros [= <-]. simpl.
  eexists. split; [reflexivity|]. split; [apply dict_keys_remove|].
  split; [done|]. split; [apply dict_count_remove_app|].
  split; [apply dict_get_remove_app|]. split; [apply last_snoc|].
  rewrite current_size_app, current_size_cons, current_size_nil. lia.
Qed.

Lemma add_existing_key_witness :
  ∃ others : list (string * bytes),
    others = PyDict.remove "a"%string
               (RAMCache.trim_entries 1000 (RAMCache.cache ram_with_a))
    ∧ ("a"%string ∉ PyDict.keys others)
    ∧ RAMCache.cache {| RAMCache.cache := [("a"%string, zeros 5)];
                        RAMCache.max_size := 1000 |}
      = others ++ [("a"%string, zeros 5)]
    ∧ length (filter (λ kv : string * bytes, kv.1 = "a"%string)
                (RAMCache.cache {| RAMCache.cache := [("a"%string, zeros 5)];
                                   RAMCache.max_size := 1000 |})) = 1%nat
    ∧ PyDict.get "a"%string
        (RAMCache.cache {| RAMCache.cache := [("a"%string, zeros 5)];
                           RAMCache.max_size := 1000 |}) = Some (zeros 5)
    ∧ last (RAMCache.cache {| RAMCache.cache := [("a"%string, zeros 5)];
                              RAMCache.max_size := 1000 |})
      = Some ("a"%string, zeros 5)
    ∧ RAMCache.current_size
        (RAMCache.cache {| RAMCache.cache := [("a"%string, zeros 5)];
                           RAMCache.max_size := 1000 |})
      = RAMCache.current_size others + data_len (zeros 5).
Proof.
  apply (add_existing_key 1000 "a"%string (zeros 5) ram_with_a).
  - apply list_elem_of_here.
  - vm_compute. reflexivity.
Defined.

(** ** The disk budget *)

Lemma clamp_cache_size_range lo hi v :
  lo <= hi → lo <= clamp_cache_size lo hi v <= hi.
Proof. unfold clamp_cache_size. lia. Qed.

Lemma clamp_cache_size_inside lo hi v :
  lo <= v <= hi → clamp_cache_size lo hi v = v.
Proof. unfold clamp_cache_size. lia. Qed.

(** [int] raises only on a value that is not finite. *)
Lemma py_int_finite (f : float) :
  (∃ z, py_int f = Val z) ∨ py_int f = Exc OverflowError ∨ py_int f = Exc ValueError.
Proof. unfold py_int. destruct (Prim2SF f); eauto. Qed.

(** Whatever the inputs, a budget that is returned lies within the
    configured bounds, and the only failures are those of the float
    conversions. *)
Lemma compute_disk_budget_range free total pct lo hi :
  lo <= hi →
  match compute_disk_budget free total pct lo hi with
  | Val budget => lo <= budget <= hi
  | Exc e => e = OverflowError ∨ e = ValueError
  end.
Proof.
  intros Hle. unfold compute_disk_budget, proposed_cache_size, int_mul_float, float_of_int.
  repeat match goal with
         | |- context [if ?b then _ else _] => destruct b
         | |- context [py_int ?x] =>
             destruct (py_int_finite x) as [[? ->]|[-> | ->]]
         end; auto using clamp_cache_size_range.
Qed.

Lemma initial_cache_size_range free pct lo hi :
  lo <= hi →
  match initial_cache_size free pct lo hi with
  | Val budget => lo <= budget <= hi
  | Exc e => e = OverflowError ∨ e = ValueError
  end.
Proof.
  intros Hle. unfold initial_cache_size, int_mul_float, float_of_int.
  repeat match goal with
         | |- context [if ?b then _ else _] => destruct b
         | |- context [py_int ?x] =>
             destruct (py_int_finite x) as [[? ->]|[-> | ->]]
         end; auto using clamp_cache_size_range.
Qed.

(** The initial budget of [set_initial_cache_size] has no pressure
    fallback: with 50 GiB free of 1000 GiB it is half the free space,
    where [adjust_cache_size] computes 0.8 of it. *)
Example initial_cache_size_no_fallback :
  initial_cache_size (50 * GiB) 0.5 (10 * GiB) (500 * GiB) = Val (25 * GiB)
  ∧ compute_disk_budget (50 * GiB) (1000 * GiB) 0.5 (10 * GiB) (500 * GiB)
    = Val (40 * GiB).
Proof. split; vm_compute; reflexivity. Qed.




(** ** Methods as state transformers *)

Lemma bind_eq {A B} (m : M A) (f : A → M B) (s : St) :
  (m ≫= f) s = match m s with
               | (Val a, s1) => f a s1
               | (Exc e, s1) => (Exc e, s1)
               end.
Proof. reflexivity. Qed.

Lemma bind_val {A B} (m : M A) (f : A → M B) (s s1 : St) (a : A) :
  m s = (Val a, s1) → (m ≫= f) s = f a s1.
Proof. intros Hm. by rewrite bind_eq, Hm. Qed.

Lemma bind_exc {A B} (m : M A) (f : A → M B) (s s1 : St) (e : exn) :
  m s = (Exc e, s1) → (m ≫= f) s = (Exc e, s1).
Proof. intros Hm. by rewrite bind_eq, Hm. Qed.

(** The usage scan never raises: an error is logged and read as 0. *)
Lemma get_cache_size_returns (s : St) :
  ∃ used s', get_cache_size s = (Val used, s') ∧ mgr s' = mgr s.
Proof.
  unfold get_cache_size, try_except_Exception. rewrite bind_eq. simpl.
  unfold io, scan. destruct (issue _ (world s)) as [[| |n] w1]; simpl; eauto.
Qed.

(** ** Free-space check *)

(** C5 as stated fails: [has_space] asks for strictly more than the 5%
    reserve.  On a 1000 GiB disk with 50 GiB + 1 MiB free, a 1 MiB file
    leaves exactly 5% free and fits the budget, yet the answer is
    [False]. *)
Lemma has_space_rejects_exact_reserve :
  (has_space MiB st_exact_reserve).1 = Val false
  ∧ 100 * (disk_free (world st_exact_reserve) - MiB)
    >= 5 * disk_total (world st_exact_reserve)
  ∧ (get_cache_size st_exact_reserve).1 = Val 0
  ∧ 0 + MiB <= cache_size_bytes (mgr st_exact_reserve).
Proof.
  split; [vm_compute; reflexivity|]. split; [vm_compute; discriminate|].
  split; [vm_compute; reflexivity|]. vm_compute; discriminate.
Qed.

(** C5, amended: with [total] and [free] what the disk-usage query
    reports and [used] what the usage scan reports, [has_space] returns
    a boolean, and it is [True] exactly when (a) [free - file_size] is
    strictly greater than the reserve [total * 0.05] and (b)
    [used + file_size <= cache_size_bytes]. *)
Theorem has_space_iff
    (file_size total free used : Z) (min_free : float) (s s1 s2 : St) :
  io disk_usage s = (Val (total, free), s1) →
  int_mul_float total 0.05 = Val min_free →
  get_cache_size s1 = (Val used, s2) →
  ∃ (b : bool) (s' : St),
    has_space file_size s = (Val b, s')
    ∧ (b = true ↔
       int_gt_float (free - file_size) min_free = true
       ∧ used + file_size <= cache_size_bytes (mgr s)).
Proof.
  intros Hdu Hmin Hused. unfold has_space.
  rewrite (bind_val _ _ _ _ _ Hdu). rewrite Hmin. simpl.
  rewrite bind_eq. simpl.
  destruct (int_gt_float (free - file_size) min_free) eqn:Hgt.
  - rewrite (bind_val _ _ _ _ _ Hused). simpl.
    destruct (get_cache_size_returns s1) as (used' & s2' & Hret & Hmgr).
    rewrite Hused in Hret. injection Hret as <- <-.
    assert (mgr s1 = mgr s) as Hs1.
    { unfold io in Hdu. destruct (disk_usage (world s)). by injection Hdu as _ <-. }
    eexists _, _. split; [reflexivity|].
    rewrite bool_decide_eq_true, Hmgr, Hs1. tauto.
  - eexists _, _. split; [reflexivity|]. split; [done|]. intros [? _]. done.
Qed.

Lemma has_space_iff_witness :
  ∃ (b : bool) (s' : St),
    has_space MiB st_exact_reserve = (Val b, s')
    ∧ (b = true ↔
       int_gt_float (50 * GiB + MiB - MiB) 53687091200%float = true
       ∧ 0 + MiB <= cache_size_bytes (mgr st_exact_reserve)).
Proof.
  eapply (has_space_iff MiB (1000 * GiB) (50 * GiB + MiB) 0 53687091200%float
            st_exact_reserve).
  - vm_compute. reflexivity.
  - vm_compute. reflexivity.
  - vm_compute. reflexivity.
Defined.

(** ** Eviction *)

Lemma io_mgr {A} (a : IO A) (s s' : St) (r : Res A) :
  io a s = (r, s') → mgr s' = mgr s.
Proof. unfold io. destruct (a (world s)). by intros [= _ <-]. Qed.

Lemma logging_eq (lvl : level) (msg : string) (s : St) :
  logging lvl msg s
  = (Val (), mkSt (mgr s) (with_log (log (world s) ++ [(lvl, msg)]) (world s))).
Proof. reflexivity. Qed.

(** [attempt] turns an [OSError] into [inl ()] and lets everything else
    through. *)
Lemma attempt_eq {A} (m : M A) (s : St) :
  attempt m s = match m s with
                | (Val a, s1) => (Val (inr a), s1)
                | (Exc e, s1) => if is_OSError e then (Val (inl ()), s1) else (Exc e, s1)
                end.
Proof.
  unfold attempt, try_except. rewrite bind_eq.
  destruct (m s) as [[a|e] s1]; [done|]. by destruct (is_OSError e).
Qed.

(** Persisting the index never raises and leaves the manager alone. *)
Lemma save_cache_returns (s : St) :
  ∃ s', save_cache s = (Val (), s') ∧ mgr s' = mgr s.
Proof.
  unfold save_cache, try_except. rewrite bind_eq. simpl.
  unfold io, write_config. destruct (issue _ (world s)) as [[| |n] w1]; simpl; eauto.
Qed.

(** The selection of the oldest entry leaves the manager alone. *)
Lemma atimes_mgr (ks : list path) (s s' : St) (r : Res (list (path * Z))) :
  atimes ks s = (r, s') → mgr s' = mgr s.
Proof.
  revert s s' r. induction ks as [|f ks IH]; intros s s' r; simpl.
  - by intros [= _ <-].
  - rewrite bind_eq. destruct (io (stat f) s) as [[[sz a]|e] s1] eqn:Hstat.
    + apply io_mgr in Hstat. rewrite bind_eq.
      destruct (atimes ks s1) as [[rest|e] s2] eqn:Hrest.
      * apply IH in Hrest. intros [= _ <-]. congruence.
      * apply IH in Hrest. intros [= _ <-]. congruence.
    + apply io_mgr in Hstat. intros [= _ <-]. congruence.
Qed.

Lemma select_oldest_mgr (s s' : St) (r : Res path) :
  select_oldest s = (r, s') → mgr s' = mgr s.
Proof.
  unfold select_oldest. rewrite bind_eq. simpl. rewrite bind_eq.
  destruct (atimes _ s) as [[keyed|e] s1] eqn:Hat; apply atimes_mgr in Hat.
  - destruct keyed; intros [= _ <-]; done.
  - intros [= _ <-]; done.
Qed.

Lemma del_index_eq (f : path) (s : St) :
  del_index f s =
  match PyDict.del f (cached_files (mgr s)) with
  | Some index' => (Val (), mkSt (with_cached_files index' (mgr s)) (world s))
  | None => (Exc KeyError, s)
  end.
Proof.
  unfold del_index. rewrite bind_eq. simpl. rewrite bind_eq.
  by destruct (PyDict.del f (cached_files (mgr s))).
Qed.

(** The handler in closed form. *)
Lemma evict_failed_eq (oldest_file : option path) (s : St) :
  evict_failed oldest_file s =
  let s1 := mkSt (mgr s)
                 (with_log (log (world s) ++ [(ERROR, "Error cleaning cache"%string)])
                           (world s)) in
  match oldest_file with
  | None => (Exc UnboundLocalError, s1)
  | Some f =>
      match PyDict.del f (cached_files (mgr s)) with
      | Some index' => (Val (), mkSt (with_cached_files index' (mgr s)) (world s1))
      | None => (Exc KeyError, s1)
      end
  end.
Proof.
  unfold evict_failed. rewrite bind_eq, logging_eq. simpl.
  destruct oldest_file as [f|]; [|done]. rewrite bind_eq. simpl.
  rewrite del_index_eq. simpl.
  by destruct (PyDict.del f (cached_files (mgr s))).
Qed.

(** The [try] body: when it completes the entry is gone from the index;
    when it raises the index is as it was. *)
Lemma evict_index (f : path) (s s' : St) (r : Res Z) :
  evict f s = (r, s') →
  match r with
  | Val _ => PyDict.del f (cached_files (mgr s)) = Some (cached_files (mgr s'))
  | Exc _ => mgr s' = mgr s
  end.
Proof.
  unfold evict. rewrite bind_eq. simpl. rewrite bind_eq.
  destruct (PyDict.get f (cached_files (mgr s))) as [dest|]; simpl;
    [|by intros [= <- <-]].
  rewrite bind_eq. destruct (io (os_remove f) s) as [[[]|e] s1] eqn:Hrm;
    pose proof (io_mgr _ _ _ _ Hrm) as Hm1; [|by intros [= <- <-]].
  rewrite bind_eq. destruct (io (shutil_move dest f) s1) as [[[]|e] s2] eqn:Hmv;
    pose proof (io_mgr _ _ _ _ Hmv) as Hm2; [|intros [= <- <-]; congruence].
  rewrite bind_eq, del_index_eq.
  destruct (PyDict.del f (cached_files (mgr s2))) as [index'|] eqn:Hdel; simpl;
    [|intros [= <- <-]; congruence].
  rewrite bind_eq.
  destruct (save_cache_returns (mkSt (with_cached_files index' (mgr s2)) (world s2)))
    as (s3 & -> & Hm3).
  destruct (get_cache_size_returns s3) as (used & s4 & -> & Hm4).
  intros [= <- <-]. rewrite Hm4, Hm3. simpl. congruence.
Qed.

(** An [OSError] out of the [try] body is a failed unlink or a failed
    move back of an entry that is in the index. *)
Lemma evict_OSError (f : path) (s s' : St) :
  evict f s = (Exc OSError, s') ↔
  ∃ dest, PyDict.get f (cached_files (mgr s)) = Some dest
    ∧ (io (os_remove f) s = (Exc OSError, s')
       ∨ ∃ s1, io (os_remove f) s = (Val (), s1)
               ∧ io (shutil_move dest f) s1 = (Exc OSError, s')).
Proof.
  unfold evict. rewrite bind_eq. simpl. rewrite bind_eq.
  destruct (PyDict.get f (cached_files (mgr s))) as [dest|]; simpl.
  2: { split; [discriminate | intros (? & ? & _); discriminate]. }
  rewrite bind_eq. destruct (io (os_remove f) s) as [[[]|e] s1] eqn:Hrm.
  2: { split.
       - intros [= -> ->]. eauto.
       - intros (d & [= <-] & [[= -> ->] | (s1' & [=] & _)]); done. }
  rewrite bind_eq. destruct (io (shutil_move dest f) s1) as [[[]|e] s2] eqn:Hmv.
  2: { split.
       - intros [= -> ->]. eauto 10.
       - intros (d & [= <-] & [[=] | (s1' & [= <-] & Hr)]).
         rewrite Hmv in Hr. by injection Hr as -> ->. }
  split.
  - rewrite bind_eq, del_index_eq.
    destruct (PyDict.del f (cached_files (mgr s2))) as [index'|]; simpl; [|discriminate].
    rewrite bind_eq.
    destruct (save_cache_returns (mkSt (with_cached_files index' (mgr s2)) (world s2)))
      as (s3 & -> & _).
    destruct (get_cache_size_returns s3) as (used & s4 & -> & _). discriminate.
  - intros (d & [= <-] & [Hl | (s1' & [= <-] & Hr)]); [discriminate|].
    rewrite Hmv in Hr. discriminate.
Qed.

Lemma first_min_in (best : path * Z) (rest : list (path * Z)) :
  first_min best rest ∈ (best :: rest).*1.
Proof.
  revert best. induction rest as [|x rest IH]; intros best; simpl.
  - apply list_elem_of_here.
  - case_decide.
    + apply list_elem_of_further, IH.
    + specialize (IH best). simpl in IH. rewrite elem_of_cons in IH.
      destruct IH as [-> | Hin]; [apply list_elem_of_here|].
      by do 2 apply list_elem_of_further.
Qed.

Lemma atimes_keys (ks : list path) (s s' : St) (keyed : list (path * Z)) :
  atimes ks s = (Val keyed, s') → keyed.*1 = ks.
Proof.
  revert s s' keyed. induction ks as [|f ks IH]; intros s s' keyed; simpl.
  - by intros [= <- _].
  - rewrite bind_eq. destruct (io (stat f) s) as [[[sz a]|e] s1]; [|discriminate].
    rewrite bind_eq. destruct (atimes ks s1) as [[rest|e] s2] eqn:Hrest; [|discriminate].
    intros [= <- _]. rewrite fmap_cons. simpl. f_equal. by eapply IH.
Qed.

(** The entry selected for eviction is an entry of the index. *)
Lemma select_oldest_in (s s1 : St) (f : path) :
  select_oldest s = (Val f, s1) → f ∈ PyDict.keys (cached_files (mgr s)).
Proof.
  unfold select_oldest. rewrite bind_eq. simpl. rewrite bind_eq.
  destruct (atimes _ s) as [[keyed|e] s0] eqn:Hat; [|discriminate].
  apply atimes_keys in Hat. destruct keyed as [|x rest]; [discriminate|].
  intros [= <- _]. rewrite <- Hat. apply first_min_in.
Qed.

(** One iteration in closed form. *)
Lemma clean_iteration_eq (oldest_file : option path) (current_size : Z) (s : St) :
  clean_iteration oldest_file current_size s =
  match select_oldest s with
  | (Val f, s1) =>
      match evict f s1 with
      | (Val size, s2) => (Val (Some f, size), s2)
      | (Exc e, s2) =>
          if is_OSError e then
            match evict_failed (Some f) s2 with
            | (Val _, s3) => (Val (Some f, current_size), s3)
            | (Exc e', s3) => (Exc e', s3)
            end
          else (Exc e, s2)
      end
  | (Exc e, s1) =>
      if is_OSError e then
        match evict_failed oldest_file s1 with
        | (Val _, s2) => (Val (oldest_file, current_size), s2)
        | (Exc e', s2) => (Exc e', s2)
        end
      else (Exc e, s1)
  end.
Proof.
  unfold clean_iteration. rewrite bind_eq, attempt_eq.
  destruct (select_oldest s) as [[f|e] s1].
  - rewrite bind_eq, attempt_eq. destruct (evict f s1) as [[size|e] s2]; [done|].
    destruct (is_OSError e); [|done]. rewrite bind_eq.
    by destruct (evict_failed (Some f) s2) as [[[]|e'] s3].
  - destruct (is_OSError e); [|done]. rewrite bind_eq.
    by destruct (evict_failed oldest_file s1) as [[[]|e'] s2].
Qed.

Lemma evict_failed_shrinks (oldest_file : option path) (s s' : St) (r : Res unit) :
  evict_failed oldest_file s = (r, s') →
  match r with
  | Val _ => (length (cached_files (mgr s')) < length (cached_files (mgr s)))%nat
  | Exc _ => cached_files (mgr s') = cached_files (mgr s)
  end.
Proof.
  rewrite evict_failed_eq. simpl. destruct oldest_file as [f|]; [|by intros [= <- <-]].
  destruct (PyDict.del f (cached_files (mgr s))) as [index'|] eqn:Hdel;
    intros [= <- <-]; [|done].
  simpl. by apply dict_del_shorter in Hdel.
Qed.

(** An iteration that completes has shortened the index; one that raises
    has not lengthened it. *)
Lemma clean_iteration_shrinks
    (oldest_file : option path) (current_size : Z) (s s' : St)
    (r : Res (option path * Z)) :
  clean_iteration oldest_file current_size s = (r, s') →
  match r with
  | Val _ => (length (cached_files (mgr s')) < length (cached_files (mgr s)))%nat
  | Exc _ => cached_files (mgr s') = cached_files (mgr s)
  end.
Proof.
  rewrite clean_iteration_eq.
  destruct (select_oldest s) as [[f|e] s1] eqn:Hsel;
    pose proof (select_oldest_mgr _ _ _ Hsel) as Hm1.
  - destruct (evict f s1) as [[size|e] s2] eqn:Hev;
      pose proof (evict_index _ _ _ _ Hev) as Hidx; simpl in Hidx.
    + intros [= <- <-]. apply dict_del_shorter in Hidx. by rewrite <- Hm1.
    + destruct (is_OSError e); [|intros [= <- <-]; congruence].
      destruct (evict_failed (Some f) s2) as [[[]|e'] s3] eqn:Hfail;
        apply evict_failed_shrinks in Hfail; intros [= <- <-]; congruence.
  - destruct (is_OSError e); [|intros [= <- <-]; congruence].
    destruct (evict_failed oldest_file s1) as [[[]|e'] s2] eqn:Hfail;
      apply evict_failed_shrinks in Hfail; intros [= <- <-]; congruence.
Qed.

(** The loop of [clean_cache] ends before the fuel does as soon as the
    fuel exceeds the number of index entries. *)
Lemma clean_loop_terminates (fuel : nat) :
  ∀ (oldest_file : option path) (current_size : Z) (s : St),
    (length (cached_files (mgr s)) < fuel)%nat →
    (clean_loop fuel oldest_file current_size s).1 ≠ Val None.
Proof.
  induction fuel as [|fuel IH]; intros o cur s Hlen; [lia|].
  simpl. rewrite bind_eq. simpl. destruct (clean_guard cur (mgr s)); [|done].
  rewrite bind_eq. destruct (clean_iteration o cur s) as [[[o' cur']|e] s1] eqn:Hit; [|done].
  apply clean_iteration_shrinks in Hit. apply IH. lia.
Qed.

(** More fuel than that changes nothing. *)
Lemma clean_loop_fuel (fuel fuel' : nat) :
  ∀ (oldest_file : option path) (current_size : Z) (s : St),
    (length (cached_files (mgr s)) < fuel)%nat →
    (length (cached_files (mgr s)) < fuel')%nat →
    clean_loop fuel oldest_file current_size s
    = clean_loop fuel' oldest_file current_size s.
Proof.
  revert fuel'. induction fuel as [|fuel IH]; intros fuel' o cur s Hlen Hlen'; [lia|].
  destruct fuel' as [|fuel']; [lia|].
  simpl. rewrite !bind_eq. simpl. destruct (clean_guard cur (mgr s)); [|done].
  rewrite !bind_eq. destruct (clean_iteration o cur s) as [[[o' cur']|e] s1] eqn:Hit; [|done].
  apply clean_iteration_shrinks in Hit. apply IH; lia.
Qed.

(** C8: the entry that an iteration of the loop of [clean_cache] selects
    is an entry of the index, and if the unlink of its origin or the move
    back of its cached file fails with a file-system error, the iteration
    still completes and the entry is dropped from the index; every
    iteration either shortens the index or ends the loop with the
    exception it raises; and the loop ends within as many iterations as
    the index has entries, whatever the file system does. *)
Theorem clean_cache_drops_entry_and_terminates
    (oldest_file : option path) (current_size : Z) (s : St) :
  (∀ (f : path) (s1 : St),
      select_oldest s = (Val f, s1) →
      ∃ dest : path,
        PyDict.get f (cached_files (mgr s)) = Some dest
        ∧ ∀ s2 : St,
            (io (os_remove f) s1 = (Exc OSError, s2)
             ∨ ∃ s', io (os_remove f) s1 = (Val (), s')
                     ∧ io (shutil_move dest f) s' = (Exc OSError, s2)) →
            ∃ s', clean_iteration oldest_file current_size s
                  = (Val (Some f, current_size), s')
                  ∧ cached_files (mgr s') = PyDict.remove f (cached_files (mgr s))
                  ∧ (f ∉ PyDict.keys (cached_files (mgr s')))
                  ∧ (length (cached_files (mgr s'))
                     < length (cached_files (mgr s)))%nat)
  ∧ (∀ (r : Res (option path * Z)) (s' : St),
      clean_iteration oldest_file current_size s = (r, s') →
      match r with
      | Val _ => (length (cached_files (mgr s')) < length (cached_files (mgr s)))%nat
      | Exc e =>
          ∀ fuel : nat, clean_guard current_size (mgr s) = true →
            clean_loop (S fuel) oldest_file current_size s = (Exc e, s')
      end)
  ∧ (∀ fuel : nat,
      (length (cached_files (mgr s)) < fuel)%nat →
      (clean_loop fuel oldest_file current_size s).1 ≠ Val None
      ∧ clean_loop fuel oldest_file current_size s
        = clean_loop (S (length (cached_files (mgr s)))) oldest_file current_size s).
Proof.
  split; [|split].
  - intros f s1 Hsel.
    pose proof (select_oldest_mgr _ _ _ Hsel) as Hm1.
    assert (PyDict.mem f (cached_files (mgr s)) = true) as Hmem.
    { apply bool_decide_eq_true. by eapply select_oldest_in. }
    destruct (proj1 (dict_mem_get _ _) Hmem) as [dest Hget].
    exists dest. split; [done|]. intros s2 Hfail.
    assert (evict f s1 = (Exc OSError, s2)) as Hev.
    { apply evict_OSError. exists dest. rewrite Hm1. eauto. }
    pose proof (evict_index _ _ _ _ Hev) as Hm2. simpl in Hm2.
    rewrite clean_iteration_eq, Hsel, Hev. simpl. rewrite evict_failed_eq. simpl.
    unfold PyDict.del. rewrite Hm2, Hm1, Hmem. eexists. split; [reflexivity|]. simpl.
    split; [done|]. split; [apply dict_keys_remove|].
    apply dict_remove_shorter. unfold PyDict.mem in Hmem.
    by apply bool_decide_eq_true in Hmem.
  - intros r s' Hit. pose proof (clean_iteration_shrinks _ _ _ _ _ Hit) as Hsh.
    destruct r as [v|e]; [done|]. intros fuel Hguard. simpl.
    rewrite bind_eq. simpl. rewrite Hguard. by rewrite bind_eq, Hit.
  - intros fuel Hlen. split; [by apply clean_loop_terminates|].
    apply clean_loop_fuel; lia.
Qed.

Lemma clean_cache_drops_entry_and_terminates_witness :
  ∃ s', clean_iteration None 4 st_unlink_fails = (Val (Some origin_a, 4), s')
        ∧ cached_files (mgr s') = PyDict.remove origin_a (cached_files (mgr st_unlink_fails))
        ∧ (origin_a ∉ PyDict.keys (cached_files (mgr s')))
        ∧ (length (cached_files (mgr s')) < length (cached_files (mgr st_unlink_fails)))%nat.
Proof.
  destruct (clean_cache_drops_entry_and_terminates None 4 st_unlink_fails) as [Hdrop _].
  destruct (Hdrop origin_a (select_oldest st_unlink_fails).2) as (dest & _ & Hfail).
  - vm_compute. reflexivity.
  - apply (Hfail (io (os_remove origin_a) (select_oldest st_unlink_fails).2).2).
    left. vm_compute. reflexivity.
Defined.

(** ** Frames: relations every run of a method respects *)

Section FrameRules.
Context (R : relation St) `{!PreOrder R}.

Lemma frame_ret {A} (a : A) : frame R (mret a).
Proof. intros s r s' [= _ <-]. reflexivity. Qed.

Lemma frame_raise {A} (e : exn) : frame R (raise (A:=A) e).
Proof. intros s r s' [= _ <-]. reflexivity. Qed.

Lemma frame_of_res {A} (x : Res A) : frame R (of_res x).
Proof. intros s r s' [= _ <-]. reflexivity. Qed.

Lemma frame_of_option {A} (e : exn) (o : option A) : frame R (of_option e o).
Proof. destruct o; [apply frame_ret | apply frame_raise]. Qed.

Lemma frame_gets {A} (f : AutoCacheManager → A) : frame R (gets f).
Proof. intros s r s' [= _ <-]. reflexivity. Qed.

Lemma frame_ask {A} (f : World → A) : frame R (ask f).
Proof. intros s r s' [= _ <-]. reflexivity. Qed.

Lemma frame_bind {A B} (m : M A) (f : A → M B) :
  frame R m → (∀ a, frame R (f a)) → frame R (m ≫= f).
Proof.
  intros Hm Hf s r s'. rewrite bind_eq. destruct (m s) as [[a|e] s1] eqn:Hms.
  - intros Hfa. etrans; [by eapply Hm | by eapply Hf].
  - intros [= _ <-]. by eapply Hm.
Qed.

Lemma frame_try_except {A} (body handler : M A) :
  frame R body → frame R handler → frame R (try_except body handler).
Proof.
  intros Hb Hh s r s'. unfold try_except.
  destruct (body s) as [[a|e] s1] eqn:Hbs.
  - intros [= _ <-]. by eapply Hb.
  - destruct (is_OSError e).
    + intros Hhs. etrans; [by eapply Hb | by eapply Hh].
    + intros [= _ <-]. by eapply Hb.
Qed.

Lemma frame_try_except_Exception {A} (body handler : M A) :
  frame R body → frame R handler → frame R (try_except_Exception body handler).
Proof.
  intros Hb Hh s r s'. unfold try_except_Exception.
  destruct (body s) as [[a|e] s1] eqn:Hbs.
  - intros [= _ <-]. by eapply Hb.
  - intros Hhs. etrans; [by eapply Hb | by eapply Hh].
Qed.

Lemma frame_attempt {A} (body : M A) : frame R body → frame R (attempt body).
Proof.
  intros Hb. unfold attempt. apply frame_try_except; [|apply frame_ret].
  apply frame_bind; [done|]. intros a. apply frame_ret.
Qed.

End FrameRules.

Ltac frame_step :=
  lazymatch goal with
  | |- frame _ (mret _) => apply frame_ret; tc_solve
  | |- frame _ (raise _) => apply frame_raise; tc_solve
  | |- frame _ (of_res _) => apply frame_of_res; tc_solve
  | |- frame _ (of_option _ _) => apply frame_of_option; tc_solve
  | |- frame _ (gets _) => apply frame_gets; tc_solve
  | |- frame _ (ask _) => apply frame_ask; tc_solve
  | |- frame _ (attempt _) => apply frame_attempt; [tc_solve|]
  | |- frame _ (try_except _ _) => apply frame_try_except; [tc_solve| |]
  | |- frame _ (try_except_Exception _ _) =>
      apply frame_try_except_Exception; [tc_solve| |]
  | |- frame _ (_ ≫= _) => apply frame_bind; [tc_solve| |intros ?]
  | |- frame _ (io (stat _)) => apply quiet_stat
  | |- frame _ (io (os_remove _)) => apply quiet_remove
  | |- frame _ (io (shutil_move _ _)) => apply quiet_move
  | |- frame _ (io (scan _)) => apply quiet_scan
  | |- frame _ (io disk_usage) => apply quiet_disk_usage
  | |- frame _ (io virtual_memory_available) => apply quiet_virtual_memory
  | |- frame _ (io (write_config _)) => apply quiet_write_config
  | |- frame _ (logging _ _) => apply quiet_logging
  | |- frame _ (modify (with_cache_size_bytes _)) => apply quiet_budget
  | |- frame _ (modify (with_ram_cache ?r)) => apply (quiet_ram (λ _, r))
  | |- frame _ (modify (λ m, with_ram_cache _ m)) => apply quiet_ram
  | |- frame _ (del_index _) => apply quiet_del
  | |- frame _ (if ?b then _ else _) => destruct b
  | |- frame _ (match ?x with _ => _ end) => destruct x
  end.

Create HintDb frame.

Ltac frame_solve := repeat frame_step; eauto with frame.

Section QuietMethods.
Context (R : relation St) `{!Quiet R}.

Lemma quiet_get_available_ram : frame R get_available_ram.
Proof. unfold get_available_ram. frame_solve. Qed.
Local Hint Resolve quiet_get_available_ram : frame.

Lemma quiet_ram_update_max_size : frame R ram_update_max_size.
Proof. unfold ram_update_max_size. frame_solve. Qed.

Lemma quiet_ram_trim_cache : frame R ram_trim_cache.
Proof. unfold ram_trim_cache. frame_solve. Qed.

Lemma quiet_ram_add p data : frame R (ram_add p data).
Proof. unfold ram_add. frame_solve. Qed.

Lemma quiet_ram_get p : frame R (ram_get p).
Proof. unfold ram_get. frame_solve. Qed.

Lemma quiet_save_cache : frame R save_cache.
Proof. unfold save_cache. frame_solve. Qed.

Lemma quiet_get_cache_size : frame R get_cache_size.
Proof. unfold get_cache_size. frame_solve. Qed.
Local Hint Resolve quiet_ram_trim_cache quiet_save_cache quiet_get_cache_size : frame.

Lemma quiet_atimes ks : frame R (atimes ks).
Proof. induction ks as [|f ks IH]; simpl; frame_solve. Qed.
Local Hint Resolve quiet_atimes : frame.

Lemma quiet_select_oldest : frame R select_oldest.
Proof. unfold select_oldest. frame_solve. Qed.

Lemma quiet_evict f : frame R (evict f).
Proof. unfold evict. frame_solve. Qed.

Lemma quiet_evict_failed o : frame R (evict_failed o).
Proof. unfold evict_failed. frame_solve. Qed.
Local Hint Resolve quiet_select_oldest quiet_evict quiet_evict_failed : frame.

Lemma quiet_clean_iteration o cur : frame R (clean_iteration o cur).
Proof. unfold clean_iteration. frame_solve. Qed.
Local Hint Resolve quiet_clean_iteration : frame.

Lemma quiet_clean_loop fuel : ∀ o cur, frame R (clean_loop fuel o cur).
Proof. induction fuel as [|fuel IH]; intros o cur; simpl; frame_solve. Qed.
Local Hint Resolve quiet_clean_loop : frame.

Lemma quiet_clean_cache : frame R clean_cache.
Proof. unfold clean_cache. frame_solve. Qed.
Local Hint Resolve quiet_clean_cache : frame.

Lemma quiet_adjust_cache_size : frame R adjust_cache_size.
Proof. unfold adjust_cache_size. frame_solve. Qed.

Lemma quiet_has_space file_size : frame R (has_space file_size).
Proof. unfold has_space. frame_solve. Qed.

End QuietMethods.

(** *** The index only loses entries *)

Lemma index_sub_of_mgr (s s' : St) : mgr s' = mgr s → index_sub s s'.
Proof. unfold index_sub. by intros ->. Qed.

#[global] Instance index_sub_preorder : PreOrder index_sub.
Proof.
  split.
  - intros s. by apply index_sub_of_mgr.
  - intros s1 s2 s3 H12 H23. unfold index_sub in *. by etrans.
Qed.

#[global] Instance index_sub_quiet : Quiet index_sub.
Proof.
  split; try apply _;
    try (intros; intros s r s' Hio; apply index_sub_of_mgr; by eapply io_mgr).
  - intros lvl msg s r s' [= _ <-]. by apply index_sub_of_mgr.
  - intros g s r s' [= _ <-]. by unfold index_sub.
  - intros v s r s' [= _ <-]. by unfold index_sub.
  - intros f s r s'. rewrite del_index_eq. unfold PyDict.del.
    destruct (PyDict.mem f (cached_files (mgr s))); intros [= _ <-];
      [|by apply index_sub_of_mgr].
    unfold index_sub, PyDict.remove. simpl. apply sublist_filter.
Qed.

Lemma dict_get_None_keys {K V : Type} `{EqDecision K} (key : K) (d : list (K * V)) :
  PyDict.get key d = None ↔ key ∉ PyDict.keys d.
Proof.
  assert (PyDict.mem key d = true ↔ key ∈ PyDict.keys d) as Hmem
    by apply bool_decide_eq_true.
  rewrite <- Hmem, dict_mem_get. destruct (PyDict.get key d) as [v|].
  - split; [done|]. intros Hn. destruct Hn. eauto.
  - split; [|done]. intros _ [v Hv]. done.
Qed.

(** A key that is absent stays absent while the index only loses
    entries. *)
Lemma index_sub_absent (p : path) (s s' : St) :
  index_sub s s' →
  PyDict.get p (cached_files (mgr s)) = None →
  PyDict.get p (cached_files (mgr s')) = None.
Proof.
  unfold index_sub. rewrite !dict_get_None_keys. intros Hsub Hnin Hin.
  apply Hnin. unfold PyDict.keys in *.
  apply list_elem_of_fmap in Hin as [kv [-> Hkv]].
  apply list_elem_of_fmap_2. by eapply elem_of_sublist.
Qed.

(** *** Every operation leaves its mark in the trace *)

Lemma issue_trace (op : fs_op) (w w' : World) (o : io_outcome) :
  issue op w = (o, w') → trace w' = trace w ++ [op] ∧ fs w' = fs w.
Proof.
  unfold issue. simpl. destruct (faults w); by intros [= _ <-].
Qed.

Ltac issues_tac :=
  intros w r w';
  match goal with
  | |- context [issue ?op w] =>
      destruct (issue op w) as [o w1] eqn:Hissue;
      apply issue_trace in Hissue as [Htrace Hfs]
  end;
  repeat match goal with
         | |- context [match ?x with _ => _ end] => destruct x
         end;
  intros [= _ <-]; done.

Lemma issues_read_file p : issues (OpRead p) (read_file p).
Proof. unfold read_file. issues_tac. Qed.

Lemma issues_stat p : issues (OpStat p) (stat p).
Proof. unfold stat. issues_tac. Qed.

Lemma issues_mkdir_parents p : issues (OpMkdir p) (mkdir_parents p).
Proof. unfold mkdir_parents. issues_tac. Qed.

Lemma issues_copy2 src dst : issues (OpCopy src dst) (copy2 src dst).
Proof. unfold copy2. issues_tac. Qed.

Lemma issues_os_remove p : issues (OpRemove p) (os_remove p).
Proof. unfold os_remove. issues_tac. Qed.

Lemma issues_os_symlink target link : issues (OpSymlink target link) (os_symlink target link).
Proof. unfold os_symlink. issues_tac. Qed.

Lemma issues_shutil_move src dst : issues (OpMove src dst) (shutil_move src dst).
Proof. unfold shutil_move. issues_tac. Qed.

Lemma issues_scan dir : issues (OpScan dir) (scan dir).
Proof. unfold scan. issues_tac. Qed.

Lemma issues_disk_usage : issues OpDiskUsage disk_usage.
Proof. unfold disk_usage. issues_tac. Qed.

Lemma issues_virtual_memory_available : issues OpVirtualMemory virtual_memory_available.
Proof. unfold virtual_memory_available. issues_tac. Qed.

Lemma issues_write_config index : issues OpSaveConfig (write_config index).
Proof. unfold write_config. issues_tac. Qed.

Lemma io_issues {A} (op : fs_op) (a : IO A) (s s' : St) (r : Res A) :
  issues op a → io a s = (r, s') →
  mgr s' = mgr s ∧ trace (world s') = trace (world s) ++ [op].
Proof.
  intros Hop Hio. split; [by eapply io_mgr|].
  unfold io in Hio. destruct (a (world s)) as [r1 w1] eqn:Ha.
  injection Hio as _ <-. simpl. by eapply Hop.
Qed.

Lemma trace_ext_same (P : fs_op → Prop) (s s' : St) :
  trace (world s') = trace (world s) → trace_ext P s s'.
Proof. intros Ht. exists []. by rewrite app_nil_r. Qed.

Lemma trace_ext_one (P : fs_op → Prop) (op : fs_op) (s s' : St) :
  P op → trace (world s') = trace (world s) ++ [op] → trace_ext P s s'.
Proof. intros HP Ht. exists [op]. split; [done|]. by constructor. Qed.

#[global] Instance trace_ext_preorder P : PreOrder (trace_ext P).
Proof.
  split.
  - intros s. by apply trace_ext_same.
  - intros s1 s2 s3 (ops1 & H1 & HP1) (ops2 & H2 & HP2).
    exists (ops1 ++ ops2). rewrite H2, H1, app_assoc. split; [done|].
    by apply Forall_app.
Qed.

#[global] Instance not_copy_quiet : Quiet (trace_ext not_copy).
Proof.
  split; try apply _.
  - intros p s r s' Hio. eapply trace_ext_one; [|by eapply io_issues, Hio; apply issues_stat]. done.
  - intros p s r s' Hio. eapply trace_ext_one; [|by eapply io_issues, Hio; apply issues_os_remove]. done.
  - intros a b s r s' Hio. eapply trace_ext_one; [|by eapply io_issues, Hio; apply issues_shutil_move]. done.
  - intros d s r s' Hio. eapply trace_ext_one; [|by eapply io_issues, Hio; apply issues_scan]. done.
  - intros s r s' Hio. eapply trace_ext_one; [|by eapply io_issues, Hio; apply issues_disk_usage]. done.
  - intros s r s' Hio. eapply trace_ext_one; [|by eapply io_issues, Hio; apply issues_virtual_memory_available]. done.
  - intros i s r s' Hio. eapply trace_ext_one; [|by eapply io_issues, Hio; apply issues_write_config]. done.
  - intros lvl msg s r s' [= _ <-]. by apply trace_ext_same.
  - intros g s r s' [= _ <-]. by apply trace_ext_same.
  - intros v s r s' [= _ <-]. by apply trace_ext_same.
  - intros f s r s'. rewrite del_index_eq.
    destruct (PyDict.del f (cached_files (mgr s))); intros [= _ <-]; by apply trace_ext_same.
Qed.

Lemma copy_count_app (t1 t2 : list fs_op) :
  copy_count (t1 ++ t2) = (copy_count t1 + copy_count t2)%nat.
Proof. unfold copy_count. by rewrite filter_app, length_app. Qed.

Lemma copy_count_not_copy (ops : list fs_op) :
  Forall not_copy ops → copy_count ops = 0%nat.
Proof.
  unfold copy_count. induction 1 as [|op ops Hop _ IH]; [done|].
  rewrite filter_cons. unfold not_copy in Hop. rewrite decide_False by congruence. done.
Qed.

(** ** Migration *)

Lemma reads_only_read_file p : reads_only (read_file p).
Proof.
  intros w r w'. unfold read_file.
  destruct (issue (OpRead p) w) as [o w1] eqn:Hissue.
  apply issue_trace in Hissue as [_ Hfs].
  destruct o; [destruct (lookup_file w1 p) as [[[? ?] ?]|]|..]; by intros [= _ <-].
Qed.

Lemma reads_only_virtual_memory_available : reads_only virtual_memory_available.
Proof.
  intros w r w'. unfold virtual_memory_available.
  destruct (issue OpVirtualMemory w) as [o w1] eqn:Hissue.
  apply issue_trace in Hissue as [_ Hfs]. destruct o; by intros [= _ <-].
Qed.

Lemma io_reads_only {A} (a : IO A) (s s' : St) (r : Res A) :
  reads_only a → io a s = (r, s') → fs (world s') = fs (world s).
Proof.
  intros Ha Hio. unfold io in Hio. destruct (a (world s)) as [r1 w1] eqn:Haw.
  injection Hio as _ <-. simpl. by eapply Ha.
Qed.

(** The RAM tier's methods never raise [KeyError]; [get] touches nothing
    but the tier. *)
Lemma ram_get_spec (p : path) (s s' : St) (r : Res (option bytes)) :
  ram_get p s = (r, s') →
  ∃ data rc, r = Val data ∧ s' = mkSt (with_ram_cache rc (mgr s)) (world s).
Proof.
  unfold ram_get. rewrite bind_eq. simpl. rewrite get_eq.
  destruct (PyDict.get p (RAMCache.cache (ram_cache (mgr s)))) as [d|];
    simpl; intros [= <- <-]; eauto.
Qed.

Lemma get_available_ram_spec (s s' : St) (r : Res Z) :
  get_available_ram s = (r, s') →
  mgr s' = mgr s
  ∧ fs (world s') = fs (world s)
  ∧ trace (world s') = trace (world s) ++ [OpVirtualMemory].
Proof.
  unfold get_available_ram. rewrite bind_eq.
  destruct (io virtual_memory_available s) as [[avail|e] s1] eqn:Hvm;
    pose proof (io_issues _ _ _ _ _ issues_virtual_memory_available Hvm) as [Hm Ht];
    pose proof (io_reads_only _ _ _ _ reads_only_virtual_memory_available Hvm) as Hf.
  - rewrite bind_eq. unfold of_res.
    destruct (int_mul_float avail 0.9) as [x|e]; intros [= _ <-]; done.
  - intros [= _ <-]; done.
Qed.

Lemma ram_add_spec (p : path) (data : bytes) (s s' : St) (r : Res bool) :
  ram_add p data s = (r, s') →
  cached_files (mgr s') = cached_files (mgr s)
  ∧ hdd_dir (mgr s') = hdd_dir (mgr s)
  ∧ cache_dir (mgr s') = cache_dir (mgr s)
  ∧ fs (world s') = fs (world s)
  ∧ trace (world s') = trace (world s) ++ [OpVirtualMemory].
Proof.
  unfold ram_add. rewrite bind_eq.
  destruct (get_available_ram s) as [[n|e] s1] eqn:Hram;
    apply get_available_ram_spec in Hram as (Hm & Hf & Ht).
  - rewrite bind_eq. simpl. rewrite bind_eq, add_eq.
    destruct (decide (data_len data > n)); simpl; intros [= _ <-]; simpl;
      by rewrite Hm.
  - intros [= _ <-]. by rewrite Hm.
Qed.

(** Once the index has an entry for a path, [cache_file] on that path
    changes neither the index nor the file system; it issues no operation
    at all (RAM hit), or reads the cached copy and queries the available
    memory. *)
Lemma cache_file_indexed (p dest : path) (s s' : St) (r : Res unit) :
  PyDict.get p (cached_files (mgr s)) = Some dest →
  cache_file p s = (r, s') →
  cached_files (mgr s') = cached_files (mgr s)
  ∧ fs (world s') = fs (world s)
  ∧ ∃ ops, trace (world s') = trace (world s) ++ ops
           ∧ (ops = [] ∨ ops = [OpRead dest] ∨ ops = [OpRead dest; OpVirtualMemory]).
Proof.
  intros Hidx. unfold cache_file. rewrite bind_eq.
  destruct (ram_get p s) as [r0 s0] eqn:Hget.
  apply ram_get_spec in Hget as (data & rc & -> & ->).
  destruct data as [d|].
  - rewrite logging_eq. intros [= _ <-]. simpl. split; [done|]. split; [done|].
    exists []. rewrite app_nil_r. auto.
  - rewrite bind_eq. simpl. rewrite Hidx. rewrite bind_eq.
    destruct (io (read_file dest) _) as [[d|e] s1] eqn:Hread;
      pose proof (io_issues _ _ _ _ _ (issues_read_file dest) Hread) as [Hm1 Ht1];
      pose proof (io_reads_only _ _ _ _ (reads_only_read_file dest) Hread) as Hf1;
      simpl in *.
    + rewrite bind_eq. destruct (ram_add p d s1) as [[ok|e] s2] eqn:Hadd;
        apply ram_add_spec in Hadd as (Hi2 & _ & _ & Hf2 & Ht2).
      * assert (cached_files (mgr s2) = cached_files (mgr s)
                ∧ fs (world s2) = fs (world s)
                ∧ trace (world s2) = trace (world s) ++ [OpRead dest; OpVirtualMemory])
          as (Hi & Hf & Ht).
        { rewrite Hi2, Hm1, Hf2, Hf1, Ht2, Ht1, <- app_assoc. done. }
        destruct ok; [rewrite logging_eq|]; intros [= _ <-]; simpl;
          (split; [done|]; split; [done|]; eauto).
      * intros [= _ <-]. rewrite Hi2, Hm1, Hf2, Hf1, Ht2, Ht1, <- app_assoc. simpl.
        split; [done|]. split; [done|]. eauto.
    + intros [= _ <-]. rewrite Hm1, Hf1, Ht1. simpl. split; [done|]. split; [done|]. eauto.
Qed.

Lemma save_cache_spec (s : St) :
  ∃ s', save_cache s = (Val (), s')
        ∧ mgr s' = mgr s
        ∧ fs (world s') = fs (world s)
        ∧ trace (world s') = trace (world s) ++ [OpSaveConfig].
Proof.
  unfold save_cache, try_except. rewrite bind_eq. simpl.
  unfold io, write_config. destruct (issue _ (world s)) as [o w1] eqn:Hissue.
  apply issue_trace in Hissue as [Ht Hf]. destruct o; simpl; eauto.
Qed.

(** A system call followed by the rest of a method. *)
Lemma bind_io_inv {A B} (op : fs_op) (a : IO A) (k : A → M B)
    (s s' : St) (r : Res B) :
  issues op a → (io a ≫= k) s = (r, s') →
  (∃ e, r = Exc e ∧ mgr s' = mgr s ∧ trace (world s') = trace (world s) ++ [op])
  ∨ (∃ x s1, mgr s1 = mgr s ∧ trace (world s1) = trace (world s) ++ [op]
             ∧ k x s1 = (r, s')).
Proof.
  intros Hop. rewrite bind_eq. destruct (io a s) as [[x|e] s1] eqn:Hio;
    pose proof (io_issues _ _ _ _ _ Hop Hio) as [Hm Ht].
  - intros Hk. right. eauto.
  - intros [= <- <-]. left. eauto.
Qed.

(** The [try] body of [cache_file]: when it completes, it has issued
    exactly one copy, from the origin to the destination, and recorded the
    entry; when it raises, the index is as it was. *)
Lemma migrate_spec (p dest : path) (s s' : St) (r : Res unit) :
  migrate p dest s = (r, s') →
  match r with
  | Val _ =>
      cached_files (mgr s') = PyDict.set p dest (cached_files (mgr s))
      ∧ trace (world s') =
        trace (world s) ++ [OpRead p; OpVirtualMemory; OpMkdir (parent dest);
                            OpCopy p dest; OpRemove p; OpSymlink dest p;
                            OpSaveConfig]
  | Exc _ => cached_files (mgr s') = cached_files (mgr s)
  end.
Proof.
  unfold migrate. intros H.
  apply (bind_io_inv _ _ _ _ _ _ (issues_read_file p)) in H
    as [(e & -> & Hm & _) | (data & s1 & Hm1 & Ht1 & H)]; [congruence|].
  rewrite bind_eq in H. destruct (ram_add p data s1) as [[ok|e] s2] eqn:Hadd;
    apply ram_add_spec in Hadd as (Hi2 & _ & _ & _ & Ht2);
    [|injection H as <- <-; congruence].
  rewrite bind_eq in H.
  assert (∃ s3, (if ok then logging INFO "Cached to RAM" else mret ()) s2 = (Val (), s3)
                ∧ mgr s3 = mgr s2 ∧ trace (world s3) = trace (world s2))
    as (s3 & Hlog & Hm3 & Ht3) by (destruct ok; eauto).
  rewrite Hlog in H. clear Hlog.
  apply (bind_io_inv _ _ _ _ _ _ (issues_mkdir_parents _)) in H
    as [(e & -> & Hm & _) | ([] & s4 & Hm4 & Ht4 & H)]; [congruence|].
  apply (bind_io_inv _ _ _ _ _ _ (issues_copy2 _ _)) in H
    as [(e & -> & Hm & _) | ([] & s5 & Hm5 & Ht5 & H)]; [congruence|].
  apply (bind_io_inv _ _ _ _ _ _ (issues_os_remove _)) in H
    as [(e & -> & Hm & _) | ([] & s6 & Hm6 & Ht6 & H)]; [congruence|].
  apply (bind_io_inv _ _ _ _ _ _ (issues_os_symlink _ _)) in H
    as [(e & -> & Hm & _) | ([] & s7 & Hm7 & Ht7 & H)]; [congruence|].
  rewrite bind_eq in H. simpl in H. rewrite bind_eq in H.
  destruct (save_cache_spec
              (mkSt (with_cached_files (PyDict.set p dest (cached_files (mgr s7))) (mgr s7))
                    (world s7))) as (s9 & Hsave & Hm9 & _ & Ht9).
  rewrite Hsave, logging_eq in H. injection H as <- <-. simpl in *.
  rewrite Hm9. simpl. split; [congruence|].
  rewrite Ht9, Ht7, Ht6, Ht5, Ht4, Ht3, Ht2, Ht1, <- !app_assoc. done.
Qed.

#[global] Instance both_preorder R1 R2 `{!PreOrder R1, !PreOrder R2} :
  PreOrder (both R1 R2).
Proof.
  split.
  - intros s. split; reflexivity.
  - intros s1 s2 s3 [H12 H12'] [H23 H23']. split; by etrans.
Qed.

#[global] Instance both_quiet R1 R2 `{!Quiet R1, !Quiet R2} : Quiet (both R1 R2).
Proof.
  split; [apply _|..]; intros; intros s r s' Hrun; split.
  all: first [ by eapply quiet_stat | by eapply quiet_remove | by eapply quiet_move
             | by eapply quiet_scan | by eapply quiet_disk_usage
             | by eapply quiet_virtual_memory | by eapply quiet_write_config
             | by eapply quiet_logging | by eapply quiet_ram
             | by eapply quiet_budget | by eapply quiet_del ].
Qed.

Lemma roll_back_mgr (p dest : path) (s s' : St) (r : Res unit) :
  roll_back p dest s = (r, s') → mgr s' = mgr s.
Proof.
  unfold roll_back. rewrite bind_eq, logging_eq, bind_eq. simpl.
  destruct (path_exists dest _).
  - intros Hmv. by apply io_mgr in Hmv.
  - by intros [= _ <-].
Qed.

(** The guarded migration records the entry only when the [try] body
    completes. *)
Lemma try_migrate_spec (p dest dest' : path) (s0 s1 : St) :
  PyDict.get p (cached_files (mgr s0)) = None →
  try_except (migrate p dest') (roll_back p dest') s0 = (Val (), s1) →
  PyDict.get p (cached_files (mgr s1)) = Some dest →
  dest = dest' ∧ migrate p dest' s0 = (Val (), s1).
Proof.
  intros Habs Htry Hpres. unfold try_except in Htry.
  destruct (migrate p dest' s0) as [[[]|e] sm] eqn:Hmig;
    pose proof (migrate_spec _ _ _ _ _ Hmig) as Hspec; simpl in Hspec.
  - injection Htry as <-. destruct Hspec as [Hidx _].
    rewrite Hidx, dict_get_set in Hpres. by injection Hpres as <-.
  - destruct (is_OSError e); [|discriminate].
    apply roll_back_mgr in Htry. congruence.
Qed.

(** A call that turns an unrecorded path into a recorded one has run the
    migration to its end, after operations that copy nothing and only
    take entries out of the index. *)
Lemma cache_file_migrates (p dest : path) (s s1 : St) :
  PyDict.get p (cached_files (mgr s)) = None →
  cache_file p s = (Val (), s1) →
  PyDict.get p (cached_files (mgr s1)) = Some dest →
  ∃ rel s0,
    relative_to (hdd_dir (mgr s)) p = Some rel
    ∧ dest = cache_dir (mgr s) ++ rel
    ∧ index_sub s s0
    ∧ trace_ext not_copy s s0
    ∧ migrate p dest s0 = (Val (), s1).
Proof.
  intros Habs H Hpres. unfold cache_file in H. rewrite bind_eq in H.
  destruct (ram_get p s) as [r0 s0] eqn:Hget.
  pose proof (quiet_ram_get (both index_sub (trace_ext not_copy)) _ _ _ _ Hget) as HR0.
  apply ram_get_spec in Hget as (data & rc & -> & ->). destruct data as [d|].
  { rewrite logging_eq in H. injection H as <-. simpl in Hpres. congruence. }
  rewrite bind_eq in H. simpl in H. rewrite Habs in H.
  rewrite bind_eq in H. simpl in H. rewrite bind_eq in H.
  destruct (relative_to (hdd_dir (mgr s)) p) as [rel|] eqn:Hrel; simpl in H;
    [|discriminate].
  rewrite bind_eq in H. simpl in H. rewrite bind_eq in H.
  destruct (io (stat p) _) as [[[file_size a]|e] sa] eqn:Hstat; [|discriminate].
  pose proof (quiet_stat (R:=both index_sub (trace_ext not_copy)) p _ _ _ Hstat) as HRa.
  rewrite bind_eq in H.
  destruct (adjust_cache_size sa) as [[[]|e] sb] eqn:Hadj; [|discriminate].
  pose proof (quiet_adjust_cache_size (both index_sub (trace_ext not_copy)) _ _ _ Hadj) as HRb.
  rewrite bind_eq in H.
  destruct (has_space file_size sb) as [[enough|e] sc] eqn:Hsp; [|discriminate].
  pose proof (quiet_has_space (both index_sub (trace_ext not_copy)) _ _ _ _ Hsp) as HRc.
  assert (both index_sub (trace_ext not_copy) s sc) as HR
    by (etrans; [exact HR0|]; etrans; [exact HRa|]; etrans; [exact HRb|exact HRc]).
  rewrite bind_eq in H.
  assert (∀ sd, both index_sub (trace_ext not_copy) s sd →
                try_except (migrate p (cache_dir (mgr s) ++ rel))
                           (roll_back p (cache_dir (mgr s) ++ rel)) sd = (Val (), s1) →
                ∃ rel0 s2, Some rel = Some rel0
                           ∧ dest = cache_dir (mgr s) ++ rel0
                           ∧ index_sub s s2 ∧ trace_ext not_copy s s2
                           ∧ migrate p dest s2 = (Val (), s1)) as Hfinish.
  { intros sd [Hsub Htr] Htry.
    destruct (try_migrate_spec p dest (cache_dir (mgr s) ++ rel) sd s1)
      as [-> Hmig]; [by eapply index_sub_absent | done | done |].
    eauto 10. }
  destruct enough.
  - simpl in H. by apply Hfinish in H.
  - rewrite bind_eq in H.
    destruct (clean_cache sc) as [[[]|e] sd] eqn:Hclean; [|discriminate].
    pose proof (quiet_clean_cache (both index_sub (trace_ext not_copy)) _ _ _ Hclean) as HRd.
    destruct (has_space file_size sd) as [[enough|e] se] eqn:Hsp2; [|discriminate].
    pose proof (quiet_has_space (both index_sub (trace_ext not_copy)) _ _ _ _ Hsp2) as HRe.
    assert (both index_sub (trace_ext not_copy) s se) as HR'
      by (etrans; [exact HR|]; etrans; [exact HRd|exact HRe]).
    destruct enough.
    + by apply Hfinish in H.
    + injection H as <-. destruct HR' as [Hsub _].
      pose proof (index_sub_absent _ _ _ Hsub Habs). congruence.
Qed.

Lemma filter_not_copy (ops : list fs_op) :
  Forall not_copy ops → filter (λ op, is_copy op = true) ops = [].
Proof.
  induction 1 as [|op ops Hop _ IH]; [done|].
  rewrite filter_cons. unfold not_copy in Hop. by rewrite decide_False by congruence.
Qed.

Lemma dict_set_absent {K V : Type} `{EqDecision K} (key : K) (v : V) (d : list (K * V)) :
  PyDict.get key d = None →
  PyDict.set key v d = d ++ [(key, v)]
  ∧ filter (λ kv : K * V, kv.1 = key) d = [].
Proof.
  induction d as [|[k v0] d IH]; simpl; [done|].
  destruct (decide (k = key)) as [->|Hne]; [done|]. intros Hget.
  destruct (IH Hget) as [-> Hnone]. split; [done|].
  rewrite filter_cons. simpl. by rewrite decide_False.
Qed.

(** C6 as stated fails: without room on the fast disk both calls give
    up, and two calls leave no index entry and no copy; the second call
    goes back to the slow disk for the size of the file. *)
Lemma cache_file_twice_without_space :
  ((cache_file origin_a;; cache_file origin_a) st_no_space).1 = Val ()
  ∧ cached_files (mgr ((cache_file origin_a;; cache_file origin_a) st_no_space).2) = []
  ∧ copy_count
      (trace (world ((cache_file origin_a;; cache_file origin_a) st_no_space).2)) = 0%nat
  ∧ length
      (filter (λ op, op = OpStat origin_a)
         (trace (world ((cache_file origin_a;; cache_file origin_a) st_no_space).2)))
    = 2%nat.
Proof. repeat split; vm_compute; reflexivity. Qed.

(** C6, amended: when the first [cache_file] on a path that the index
    does not hold completes the migration (the index holds the path
    afterwards), the path has exactly one index entry after a second call,
    the two calls together issue exactly one copy, from the origin to its
    place under the cache directory, and the second call changes neither
    the index nor the file system: it issues nothing, or reads the cached
    copy and queries the available memory. *)
Theorem cache_file_twice (p dest : path) (s s1 s2 : St) (r : Res unit) :
  PyDict.get p (cached_files (mgr s)) = None →
  cache_file p s = (Val (), s1) →
  PyDict.get p (cached_files (mgr s1)) = Some dest →
  cache_file p s1 = (r, s2) →
  cached_files (mgr s2) = cached_files (mgr s1)
  ∧ length (filter (λ kv : path * path, kv.1 = p) (cached_files (mgr s2))) = 1%nat
  ∧ (∃ rel, relative_to (hdd_dir (mgr s)) p = Some rel
            ∧ dest = cache_dir (mgr s) ++ rel)
  ∧ (∃ ops, trace (world s2) = trace (world s) ++ ops
            ∧ filter (λ op, is_copy op = true) ops = [OpCopy p dest])
  ∧ fs (world s2) = fs (world s1)
  ∧ (∃ ops, trace (world s2) = trace (world s1) ++ ops
            ∧ (ops = [] ∨ ops = [OpRead dest] ∨ ops = [OpRead dest; OpVirtualMemory])).
Proof.
  intros Habs Hfirst Hpres Hsecond.
  destruct (cache_file_migrates _ _ _ _ Habs Hfirst Hpres)
    as (rel & s0 & Hrel & Hdest & Hsub & (ops0 & Ht0 & Hops0) & Hmig).
  apply migrate_spec in Hmig as [Hidx1 Ht1].
  destruct (cache_file_indexed _ _ _ _ _ Hpres Hsecond)
    as (Hidx2 & Hfs2 & ops2 & Ht2 & Hops2).
  pose proof (index_sub_absent _ _ _ Hsub Habs) as Habs0.
  destruct (dict_set_absent p dest _ Habs0) as [Hset Hnone].
  split; [done|]. split.
  { rewrite Hidx2, Hidx1, Hset, filter_app, Hnone.
    rewrite (filter_cons _ (p, dest)), filter_nil. simpl. by rewrite decide_True. }
  split; [eauto|]. split; [|split; [done|eauto]].
  eexists. split.
  { rewrite Ht2, Ht1, Ht0, <- !app_assoc. reflexivity. }
  rewrite !filter_app, (filter_not_copy _ Hops0). simpl.
  assert (filter (λ op, is_copy op = true) ops2 = []) as ->.
  { destruct Hops2 as [-> | [-> | ->]]; done. }
  done.
Qed.

Lemma cache_file_twice_witness :
  cached_files (mgr ((cache_file origin_a;; cache_file origin_a) st_fresh).2)
  = cached_files (mgr (cache_file origin_a st_fresh).2)
  ∧ length (filter (λ kv : path * path, kv.1 = origin_a)
              (cached_files (mgr ((cache_file origin_a;; cache_file origin_a) st_fresh).2)))
    = 1%nat
  ∧ (∃ rel, relative_to (hdd_dir (mgr st_fresh)) origin_a = Some rel
            ∧ cached_a = cache_dir (mgr st_fresh) ++ rel)
  ∧ (∃ ops, trace (world ((cache_file origin_a;; cache_file origin_a) st_fresh).2)
            = trace (world st_fresh) ++ ops
            ∧ filter (λ op, is_copy op = true) ops = [OpCopy origin_a cached_a])
  ∧ fs (world ((cache_file origin_a;; cache_file origin_a) st_fresh).2)
    = fs (world (cache_file origin_a st_fresh).2)
  ∧ (∃ ops, trace (world ((cache_file origin_a;; cache_file origin_a) st_fresh).2)
            = trace (world (cache_file origin_a st_fresh).2) ++ ops
            ∧ (ops = [] ∨ ops = [OpRead cached_a]
               ∨ ops = [OpRead cached_a; OpVirtualMemory])).
Proof.
  apply (cache_file_twice origin_a cached_a st_fresh (cache_file origin_a st_fresh).2
           ((cache_file origin_a;; cache_file origin_a) st_fresh).2
           ((cache_file origin_a;; cache_file origin_a) st_fresh).1).
  - vm_compute. reflexivity.
  - vm_compute. reflexivity.
  - vm_compute. reflexivity.
  - vm_compute. reflexivity.
Defined.

(** C7 (fails on the code): when the copy to the fast disk fails after
    part of the file was written, the handler moves the partial copy over
    the intact origin.  The call returns normally, nothing is recorded in
    the index and no link is left, but the origin then holds the first two
    bytes of its four: content is lost.  And when the handler's own move
    fails (the origin could not be removed, nor replaced), the exception
    leaves [cache_file] and reaches the sweep. *)
Theorem cache_file_rollback_overwrites_origin :
  lookup_file (world st_copy_fails) origin_a = Some (origin_a, content_a, 7)
  ∧ (cache_file origin_a st_copy_fails).1 = Val ()
  ∧ fs (world (cache_file origin_a st_copy_fails).2) !! origin_a
    = Some (File [Byte.x4d; Byte.x5a] 100)
  ∧ fs (world (cache_file origin_a st_copy_fails).2) !! cached_a = None
  ∧ cached_files (mgr (cache_file origin_a st_copy_fails).2) = []
  ∧ drop 7 (trace (world (cache_file origin_a st_copy_fails).2))
    = [OpCopy origin_a cached_a; OpMove cached_a origin_a]
  ∧ log (world (cache_file origin_a st_copy_fails).2)
    = [(INFO, "Cached to RAM"); (ERROR, "Failed to cache")]%string
  ∧ (cache_file origin_a st_origin_locked).1 = Exc OSError
  ∧ drop 7 (trace (world (cache_file origin_a st_origin_locked).2))
    = [OpCopy origin_a cached_a; OpRemove origin_a; OpMove cached_a origin_a].
Proof. repeat split; vm_compute; reflexivity. Qed.

(** ** The monitor *)

(** C9 as stated fails: [monitor_system] has no handler.  When the
    disk-usage query of a tick fails, or its memory query, the loop ends
    with that exception at that tick: nothing is logged and no further
    operation is issued, whatever the number of ticks allowed. *)
Lemma monitor_stops_at_failed_tick :
  running (mgr st_usage_query_fails) = true
  ∧ (monitor_system 3 st_usage_query_fails).1 = Exc OSError
  ∧ trace (world (monitor_system 3 st_usage_query_fails).2) = [OpDiskUsage]
  ∧ log (world (monitor_system 3 st_usage_query_fails).2) = []
  ∧ (monitor_system 3 st_memory_query_fails).1 = Exc OSError
  ∧ trace (world (monitor_system 3 st_memory_query_fails).2)
    = [OpDiskUsage; OpVirtualMemory]
  ∧ log (world (monitor_system 3 st_memory_query_fails).2) = [].
Proof. repeat split; vm_compute; reflexivity. Qed.

(** C9, amended: a failure raised inside a monitor tick, by the budget
    recomputation or by the update of the RAM capacity, is the outcome of
    the tick and of the whole loop: the loop ends at that tick in the
    state the failing step left, without a log record of its own and
    without a further tick; the next tick runs only after a tick that
    completes. *)
Theorem monitor_failure_ends_loop (ticks : nat) (s s' : St) (e : exn) :
  running (mgr s) = true →
  (adjust_cache_size s = (Exc e, s')
   ∨ ∃ s1, adjust_cache_size s = (Val (), s1)
           ∧ ram_update_max_size s1 = (Exc e, s')) →
  monitor_tick s = (Exc e, s')
  ∧ monitor_system (S ticks) s = (Exc e, s')
  ∧ ∀ s2, monitor_tick s = (Val (), s2) →
          monitor_system (S ticks) s = monitor_system ticks s2.
Proof.
  intros Hrun Hfail.
  assert (monitor_tick s = (Exc e, s')) as Htick.
  { unfold monitor_tick. rewrite bind_eq.
    destruct Hfail as [-> | (s1 & -> & Hram)]; done. }
  split; [done|]. simpl. rewrite !bind_eq. simpl. rewrite Hrun, !bind_eq, Htick.
  split; [done|]. intros s2 [=].
Qed.

Lemma monitor_failure_ends_loop_witness :
  monitor_tick st_usage_query_fails
  = (Exc OSError, (adjust_cache_size st_usage_query_fails).2)
  ∧ monitor_system 3 st_usage_query_fails
    = (Exc OSError, (adjust_cache_size st_usage_query_fails).2)
  ∧ ∀ s2, monitor_tick st_usage_query_fails = (Val (), s2) →
          monitor_system 3 st_usage_query_fails = monitor_system 2 s2.
Proof.
  apply (monitor_failure_ends_loop 2 st_usage_query_fails).
  - reflexivity.
  - left. vm_compute. reflexivity.
Defined.

(** * Further properties *)

(** ** The RAM tier *)

Section RAMCacheMore.
Context {K : Type} `{EqDecision K}.
Implicit Types (c : list (K * bytes)) (s : RAMCache.t K) (key : K).

Lemma dict_get_remove_ne {V : Type} (key key' : K) (d : list (K * V)) :
  key ≠ key' → PyDict.get key' (PyDict.remove key d) = PyDict.get key' d.
Proof.
  intros Hne. unfold PyDict.remove. induction d as [|[k v] d IH]; [done|].
  rewrite filter_cons. simpl. destruct (decide (k ≠ key)) as [Hk|Hk].
  - simpl. by rewrite IH.
  - apply dec_stable in Hk. subst k. by rewrite decide_False.
Qed.

Lemma dict_get_app_ne {V : Type} (key key' : K) (v : V) (d : list (K * V)) :
  key ≠ key' → PyDict.get key' (d ++ [(key, v)]) = PyDict.get key' d.
Proof.
  intros Hne. induction d as [|[k v0] d IH]; simpl.
  - by rewrite decide_False.
  - by rewrite IH.
Qed.

Lemma dict_remove_absent {V : Type} (key : K) (d : list (K * V)) :
  key ∉ PyDict.keys d → PyDict.remove key d = d.
Proof.
  unfold PyDict.remove, PyDict.keys. induction d as [|[k v] d IH]; [done|].
  rewrite fmap_cons, not_elem_of_cons, filter_cons. simpl. intros [Hne Hnin].
  rewrite decide_True by done. by rewrite IH.
Qed.

Lemma dict_keys_remove_sub {V : Type} (key : K) (d : list (K * V)) :
  PyDict.keys (PyDict.remove key d) `sublist_of` PyDict.keys d.
Proof. unfold PyDict.keys, PyDict.remove. apply fmap_sublist, sublist_filter. Qed.

(** Moving one entry of a duplicate-free dictionary to the end keeps the
    entries. *)
Lemma dict_move_to_end_perm {V : Type} (key : K) (v : V) (d : list (K * V)) :
  NoDup (PyDict.keys d) → PyDict.get key d = Some v →
  PyDict.remove key d ++ [(key, v)] ≡ₚ d.
Proof.
  unfold PyDict.keys. induction d as [|[k v0] d IH]; simpl; [done|].
  rewrite NoDup_cons. intros [Hnin Hdup]. destruct (decide (k = key)) as [->|Hne].
  - intros [= ->]. unfold PyDict.remove. rewrite filter_cons. simpl.
    rewrite decide_False by auto.
    fold (PyDict.remove key d). rewrite dict_remove_absent by done.
    by rewrite Permutation_app_comm.
  - intros Hget. unfold PyDict.remove. rewrite filter_cons. simpl.
    rewrite decide_True by done. fold (PyDict.remove key d). simpl.
    by rewrite IH.
Qed.

Lemma current_size_perm c1 c2 :
  c1 ≡ₚ c2 → RAMCache.current_size c1 = RAMCache.current_size c2.
Proof.
  induction 1 as [|[k d] c1 c2 _ IH|[k1 d1] [k2 d2] c|c1 c2 c3 _ IH1 _ IH2].
  - done.
  - by rewrite !current_size_cons, IH.
  - rewrite !current_size_cons. lia.
  - congruence.
Qed.

Lemma dict_keys_move_to_end_NoDup {V : Type} (key : K) (v : V) (d : list (K * V)) :
  NoDup (PyDict.keys d) → NoDup (PyDict.keys (PyDict.remove key d ++ [(key, v)])).
Proof.
  intros Hdup. unfold PyDict.keys. rewrite fmap_app. apply NoDup_app.
  split; [by eapply sublist_NoDup, dict_keys_remove_sub|].
  split; [|apply NoDup_singleton].
  intros x Hx Hin. apply list_elem_of_singleton in Hin. simpl in Hin. subst x.
  by apply (dict_keys_remove key d).
Qed.

Lemma suffix_is_sublist {A} (l1 l2 : list A) :
  l1 `suffix_of` l2 → l1 `sublist_of` l2.
Proof. intros [k ->]. by apply sublist_inserts_l. Qed.

Lemma suffix_snoc_cases {A} (l l' : list A) (x : A) :
  l' `suffix_of` l ++ [x] → l' = [] ∨ last l' = Some x.
Proof.
  destruct l' as [|y l'] using rev_ind; [by left|]. intros [k Hk]. right.
  rewrite app_assoc in Hk. apply app_inj_tail in Hk as [_ ->]. apply last_snoc.
Qed.

(** X1: a hit of [get] returns the stored payload and makes the key the
    most recently used entry; the tier keeps the same entries, the same
    stored size and the same capacity. *)
Theorem get_hit_refreshes key (data : bytes) s :
  NoDup (PyDict.keys (RAMCache.cache s)) →
  PyDict.get key (RAMCache.cache s) = Some data →
  ∃ s', RAMCache.get key s = Some (Some data, s')
        ∧ last (RAMCache.cache s') = Some (key, data)
        ∧ RAMCache.cache s' ≡ₚ RAMCache.cache s
        ∧ (∀ key', key' ≠ key →
             PyDict.get key' (RAMCache.cache s') = PyDict.get key' (RAMCache.cache s))
        ∧ RAMCache.current_size (RAMCache.cache s')
          = RAMCache.current_size (RAMCache.cache s)
        ∧ RAMCache.max_size s' = RAMCache.max_size s.
Proof.
  intros Hdup Hget. rewrite get_eq, Hget. eexists. split; [reflexivity|]. simpl.
  pose proof (dict_move_to_end_perm _ _ _ Hdup Hget) as Hperm.
  split; [apply last_snoc|]. split; [done|]. split.
  - intros key' Hne. rewrite dict_get_app_ne by done. by apply dict_get_remove_ne.
  - split; [by apply current_size_perm|done].
Qed.

(** X2: after a hit on a key, no trim evicts that key while another
    entry stays: whatever the capacity, the trim keeps the key or empties
    the tier. *)
Theorem get_hit_evicted_last key (data : bytes) s s' (limit : Z) :
  RAMCache.get key s = Some (Some data, s') →
  RAMCache.trim_entries limit (RAMCache.cache s') = []
  ∨ key ∈ PyDict.keys (RAMCache.trim_entries limit (RAMCache.cache s')).
Proof.
  rewrite get_eq. destruct (PyDict.get key (RAMCache.cache s)) as [d|]; [|done].
  intros [= <- <-]. simpl.
  destruct (suffix_snoc_cases _ _ _
              (trim_entries_suffix limit (PyDict.remove key (RAMCache.cache s) ++ [(key, d)])))
    as [Hnil | Hlast]; [by left|]. right.
  unfold PyDict.keys. apply (list_elem_of_fmap_2' fst _ (key, d)); [|done].
  apply last_Some in Hlast as [l' ->]. apply elem_of_app. right.
  apply list_elem_of_here.
Qed.

(** X3: [remove] never raises; the key is absent afterwards, every other
    key keeps its payload, the remaining entries keep their order, and an
    absent key leaves the tier untouched. *)
Theorem remove_spec key s :
  ∃ s', RAMCache.remove key s = Some s'
        ∧ (key ∉ PyDict.keys (RAMCache.cache s'))
        ∧ (∀ key', key' ≠ key →
             PyDict.get key' (RAMCache.cache s') = PyDict.get key' (RAMCache.cache s))
        ∧ RAMCache.cache s' `sublist_of` RAMCache.cache s
        ∧ RAMCache.max_size s' = RAMCache.max_size s
        ∧ (key ∉ PyDict.keys (RAMCache.cache s) → s' = s).
Proof.
  unfold RAMCache.remove, PyDict.del.
  destruct (PyDict.mem key (RAMCache.cache s)) eqn:Hmem; simpl.
  - eexists. split; [reflexivity|]. simpl. split; [apply dict_keys_remove|].
    split; [intros key' Hne; by apply dict_get_remove_ne|].
    split; [apply sublist_filter|]. split; [done|].
    intros Hnin. apply bool_decide_eq_true in Hmem. done.
  - exists s. split; [done|]. apply bool_decide_eq_false in Hmem.
    split; [done|]. split; [done|]. split; [done|]. done.
Qed.

(** X4: the dictionary of the tier keeps one entry per key through every
    operation: [update_max_size], [trim_cache], [add], [get] and
    [remove]. *)
Theorem one_entry_per_key s :
  NoDup (PyDict.keys (RAMCache.cache s)) →
  NoDup (PyDict.keys (RAMCache.cache (RAMCache.trim_cache s)))
  ∧ (∀ new_size,
       NoDup (PyDict.keys (RAMCache.cache (RAMCache.update_max_size new_size s))))
  ∧ (∀ new_size key (data : bytes) ok s',
       RAMCache.add new_size key data s = Some (ok, s') →
       NoDup (PyDict.keys (RAMCache.cache s')))
  ∧ (∀ key r s', RAMCache.get key s = Some (r, s') →
       NoDup (PyDict.keys (RAMCache.cache s')))
  ∧ (∀ key s', RAMCache.remove key s = Some s' →
       NoDup (PyDict.keys (RAMCache.cache s'))).
Proof.
  intros Hdup.
  assert (∀ limit, NoDup (PyDict.keys (RAMCache.trim_entries limit (RAMCache.cache s))))
    as Htrim.
  { intros limit. eapply sublist_NoDup; [exact Hdup|].
    unfold PyDict.keys. apply fmap_sublist, suffix_is_sublist, trim_entries_suffix. }
  split; [apply Htrim|]. split; [intros n; apply Htrim|]. split; [|split].
  - intros n key data ok s'. rewrite add_eq. case_decide; intros [= <- <-]; simpl.
    + apply Htrim.
    + by apply dict_keys_move_to_end_NoDup.
  - intros key r s'. rewrite get_eq.
    destruct (PyDict.get key (RAMCache.cache s)); intros [= <- <-]; simpl; [|done].
    by apply dict_keys_move_to_end_NoDup.
  - intros key s'. destruct (remove_spec key s) as (s0 & -> & _ & _ & Hsub & _).
    intros [= <-]. eapply sublist_NoDup; [exact Hdup|].
    unfold PyDict.keys. by apply fmap_sublist.
Qed.

(** X5: [trim_cache] evicts from the least recently used end and no more
    than it must: what it keeps is a suffix of the tier, fits a
    non-negative capacity, and contains every suffix of the tier that
    fits the capacity. *)
Theorem trim_keeps_longest_fitting_suffix (limit : Z) c :
  RAMCache.trim_entries limit c `suffix_of` c
  ∧ (0 <= limit → RAMCache.current_size (RAMCache.trim_entries limit c) <= limit)
  ∧ (∀ c', c' `suffix_of` c → RAMCache.current_size c' <= limit →
           c' `suffix_of` RAMCache.trim_entries limit c).
Proof.
  split; [apply trim_entries_suffix|]. split; [apply trim_entries_fits|].
  induction c as [|kv c IH]; intros c' Hsuf Hfit; simpl.
  - done.
  - case_decide as Hgt; [|done]. apply IH; [|done].
    destruct c' as [|kv' c'']; [apply suffix_nil|].
    apply suffix_cons_inv in Hsuf as [Heq | Hsuf]; [|done].
    rewrite Heq in Hfit. lia.
Qed.

(** X6: a payload that [add] accepts is what the next [get] of the key
    returns, and that [get] changes nothing in the tier. *)
Theorem add_then_get new_size key (data : bytes) s :
  data_len data <= new_size →
  ∃ s', RAMCache.add new_size key data s = Some (true, s')
        ∧ RAMCache.get key s' = Some (Some data, s').
Proof.
  intros Hfit. rewrite add_eq, decide_False by lia. eexists. split; [reflexivity|].
  rewrite get_eq. simpl. rewrite dict_get_remove_app. do 3 f_equal.
  unfold PyDict.remove at 1. rewrite filter_app, (filter_cons _ (key, data)), filter_nil.
  simpl. rewrite decide_False by auto. rewrite app_nil_r.
  fold (PyDict.remove key (PyDict.remove key (RAMCache.trim_entries new_size (RAMCache.cache s)))).
  rewrite (dict_remove_absent key (PyDict.remove key _)); [done|apply dict_keys_remove].
Qed.

(** X7: after a successful [add] the stored size exceeds the capacity by
    at most the size of the new payload, hence stays within twice the
    capacity, and the next [update_max_size] brings the tier back within
    its capacity. *)
Theorem add_overshoot_bounded new_size key (data : bytes) s s' :
  0 <= new_size →
  RAMCache.add new_size key data s = Some (true, s') →
  RAMCache.current_size (RAMCache.cache s') <= RAMCache.max_size s' + data_len data
  ∧ RAMCache.current_size (RAMCache.cache s') <= 2 * RAMCache.max_size s'
  ∧ ∀ new_size', 0 <= new_size' →
      RAMCache.within_capacity (RAMCache.update_max_size new_size' s').
Proof.
  intros Hn Hadd. pose proof (add_size_bound _ _ _ _ _ Hn Hadd) as Hbound.
  rewrite add_eq in Hadd. case_decide as Hbig; [done|]. injection Hadd as <-.
  simpl in *. split; [done|]. split; [lia|].
  intros n' Hn'. unfold RAMCache.within_capacity. simpl. by apply trim_entries_fits.
Qed.

End RAMCacheMore.

Lemma ram_with_a_b_NoDup : NoDup (PyDict.keys (RAMCache.cache ram_with_a_b)).
Proof. apply (bool_decide_unpack _). vm_compute. exact I. Defined.

Lemma get_hit_refreshes_witness :
  ∃ s', RAMCache.get "a"%string ram_with_a_b = Some (Some (zeros 600), s')
        ∧ last (RAMCache.cache s') = Some ("a"%string, zeros 600)
        ∧ RAMCache.cache s' ≡ₚ RAMCache.cache ram_with_a_b
        ∧ (∀ key', key' ≠ "a"%string →
             PyDict.get key' (RAMCache.cache s')
             = PyDict.get key' (RAMCache.cache ram_with_a_b))
        ∧ RAMCache.current_size (RAMCache.cache s')
          = RAMCache.current_size (RAMCache.cache ram_with_a_b)
        ∧ RAMCache.max_size s' = RAMCache.max_size ram_with_a_b.
Proof.
  apply (get_hit_refreshes "a"%string (zeros 600) ram_with_a_b).
  - exact ram_with_a_b_NoDup.
  - vm_compute. reflexivity.
Defined.

Lemma get_hit_evicted_last_witness :
  RAMCache.trim_entries 700 (RAMCache.cache ram_with_b_a) = []
  ∨ "a"%string ∈ PyDict.keys (RAMCache.trim_entries 700 (RAMCache.cache ram_with_b_a)).
Proof.
  apply (get_hit_evicted_last "a"%string (zeros 600) ram_with_a_b ram_with_b_a 700).
  vm_compute. reflexivity.
Defined.

Lemma one_entry_per_key_witness :
  NoDup (PyDict.keys (RAMCache.cache (RAMCache.trim_cache ram_with_a_b)))
  ∧ (∀ new_size,
       NoDup (PyDict.keys (RAMCache.cache (RAMCache.update_max_size new_size ram_with_a_b))))
  ∧ (∀ new_size key (data : bytes) ok s',
       RAMCache.add new_size key data ram_with_a_b = Some (ok, s') →
       NoDup (PyDict.keys (RAMCache.cache s')))
  ∧ (∀ key r s', RAMCache.get key ram_with_a_b = Some (r, s') →
       NoDup (PyDict.keys (RAMCache.cache s')))
  ∧ (∀ key s', RAMCache.remove key ram_with_a_b = Some s' →
       NoDup (PyDict.keys (RAMCache.cache s'))).
Proof. apply (one_entry_per_key ram_with_a_b). exact ram_with_a_b_NoDup. Defined.

Lemma add_then_get_witness :
  ∃ s', RAMCache.add 1000 "c"%string (zeros 10) ram_with_a_b = Some (true, s')
        ∧ RAMCache.get "c"%string s' = Some (Some (zeros 10), s').
Proof. apply (add_then_get 1000 "c"%string (zeros 10) ram_with_a_b). vm_compute. discriminate. Defined.

Lemma add_overshoot_bounded_witness :
  RAMCache.current_size (RAMCache.cache (RAMCache.mk (RAMCache.cache ram_with_a_b ++ [("c"%string, zeros 500)]) 1000))
  <= RAMCache.max_size (RAMCache.mk (RAMCache.cache ram_with_a_b ++ [("c"%string, zeros 500)]) 1000)
     + data_len (zeros 500)
  ∧ RAMCache.current_size (RAMCache.cache (RAMCache.mk (RAMCache.cache ram_with_a_b ++ [("c"%string, zeros 500)]) 1000))
    <= 2 * RAMCache.max_size (RAMCache.mk (RAMCache.cache ram_with_a_b ++ [("c"%string, zeros 500)]) 1000)
  ∧ ∀ new_size', 0 <= new_size' →
      RAMCache.within_capacity
        (RAMCache.update_max_size new_size'
           (RAMCache.mk (RAMCache.cache ram_with_a_b ++ [("c"%string, zeros 500)]) 1000)).
Proof.
  apply (add_overshoot_bounded 1000 "c"%string (zeros 500) ram_with_a_b).
  - lia.
  - vm_compute. reflexivity.
Defined.

(** ** System calls, case by case *)

Lemma issue_eq (op : fs_op) (w : World) :
  issue op w = (next_outcome w, advance op w).
Proof.
  unfold issue, next_outcome, advance, with_faults, with_trace. simpl.
  by destruct (faults w).
Qed.

Lemma no_partial_next (w : World) (n : nat) :
  no_partial w → next_outcome w ≠ IoFailPartial n.
Proof.
  unfold no_partial, next_outcome. destruct (faults w) as [|o rest]; simpl; [done|].
  intros Hall. apply Forall_cons in Hall as [Ho _]. apply Ho.
Qed.

Lemma no_partial_after_call (op : fs_op) (files : gmap path node) (s s' : St) :
  after_call op files s s' → no_partial (world s) → no_partial (world s').
Proof.
  intros (_ & _ & Hfaults & _). unfold no_partial. rewrite Hfaults.
  destruct (faults (world s)) as [|o rest]; simpl; [done|].
  intros Hall. by apply Forall_cons in Hall as [_ Hrest].
Qed.

Lemma after_call_advance (op : fs_op) (s : St) :
  after_call op (fs (world s)) s (mkSt (mgr s) (advance op (world s))).
Proof. done. Qed.

Lemma after_call_with_fs (op : fs_op) (files : gmap path node) (s : St) :
  after_call op files s (mkSt (mgr s) (with_fs files (advance op (world s)))).
Proof. done. Qed.

Lemma resolve_eq (fuel : nat) (m : gmap path node) (p : path) :
  resolve fuel m p =
  match m !! p with
  | None => None
  | Some (File d a) => Some (p, d, a)
  | Some (Symlink target) =>
      match fuel with
      | O => None
      | S n => resolve n m target
      end
  end.
Proof. by destruct fuel. Qed.

Lemma lookup_file_fs (w w' : World) (p : path) :
  fs w' = fs w → lookup_file w' p = lookup_file w p.
Proof. unfold lookup_file. by intros ->. Qed.

Lemma lookup_file_is_Some (w : World) (p : path) (x : path * bytes * Z) :
  lookup_file w p = Some x → is_Some (fs w !! p).
Proof.
  unfold lookup_file. rewrite resolve_eq. destruct (fs w !! p); [eauto|discriminate].
Qed.

Lemma io_read_file_cases (p : path) (s s' : St) (r : Res bytes) :
  io (read_file p) s = (r, s') →
  after_call (OpRead p) (fs (world s)) s s'
  ∧ match r with
    | Val d => ∃ q a, lookup_file (world s) p = Some (q, d, a)
    | Exc e => e = OSError
    end.
Proof.
  unfold io, read_file. rewrite issue_eq.
  destruct (next_outcome (world s));
    [|intros [= <- <-]; split; [apply after_call_advance|done]..].
  rewrite (lookup_file_fs (world s) (advance (OpRead p) (world s)) p) by done.
  destruct (lookup_file (world s) p) as [[[q d] a]|]; intros [= <- <-];
    (split; [apply after_call_advance|eauto]).
Qed.

Lemma io_stat_cases (p : path) (s s' : St) (r : Res (Z * Z)) :
  io (stat p) s = (r, s') →
  after_call (OpStat p) (fs (world s)) s s'
  ∧ match r with
    | Val (size, atime) =>
        ∃ q d, lookup_file (world s) p = Some (q, d, atime) ∧ size = data_len d
    | Exc e => e = OSError
    end.
Proof.
  unfold io, stat. rewrite issue_eq.
  destruct (next_outcome (world s));
    [|intros [= <- <-]; split; [apply after_call_advance|done]..].
  rewrite (lookup_file_fs (world s) (advance (OpStat p) (world s)) p) by done.
  destruct (lookup_file (world s) p) as [[[q d] a]|]; intros [= <- <-];
    (split; [apply after_call_advance|eauto]).
Qed.

Lemma io_mkdir_parents_cases (p : path) (s s' : St) (r : Res unit) :
  io (mkdir_parents p) s = (r, s') →
  after_call (OpMkdir p) (fs (world s)) s s'
  ∧ match r with Val _ => True | Exc e => e = OSError end.
Proof.
  unfold io, mkdir_parents. rewrite issue_eq.
  destruct (next_outcome (world s)); intros [= <- <-];
    (split; [apply after_call_advance|done]).
Qed.

Lemma io_copy2_cases (src dst : path) (s s' : St) (r : Res unit) :
  io (copy2 src dst) s = (r, s') →
  match r with
  | Val _ =>
      ∃ q d a, lookup_file (world s) src = Some (q, d, a)
               ∧ after_call (OpCopy src dst) (<[dst := File d a]> (fs (world s))) s s'
  | Exc e =>
      e = OSError
      ∧ (after_call (OpCopy src dst) (fs (world s)) s s'
         ∨ ∃ n, next_outcome (world s) = IoFailPartial n)
  end.
Proof.
  unfold io, copy2. rewrite issue_eq.
  rewrite (lookup_file_fs (world s) (advance (OpCopy src dst) (world s)) src) by done.
  destruct (lookup_file (world s) src) as [[[q d] a]|];
    [|intros [= <- <-]; split; [done|left; apply after_call_advance]].
  destruct (next_outcome (world s)) as [| |n]; intros [= <- <-].
  - exists q, d, a. split; [done|]. apply after_call_with_fs.
  - split; [done|]. left. apply after_call_advance.
  - split; [done|]. eauto.
Qed.

Lemma io_os_remove_cases (p : path) (s s' : St) (r : Res unit) :
  io (os_remove p) s = (r, s') →
  match r with
  | Val _ =>
      is_Some (fs (world s) !! p)
      ∧ after_call (OpRemove p) (delete p (fs (world s))) s s'
  | Exc e => e = OSError ∧ after_call (OpRemove p) (fs (world s)) s s'
  end.
Proof.
  unfold io, os_remove. rewrite issue_eq.
  destruct (next_outcome (world s));
    [|intros [= <- <-]; split; [done|apply after_call_advance]..].
  change (fs (advance (OpRemove p) (world s))) with (fs (world s)).
  destruct (fs (world s) !! p) as [nd|] eqn:Hp; intros [= <- <-].
  - split; [eauto|apply after_call_with_fs].
  - split; [done|apply after_call_advance].
Qed.

Lemma io_os_symlink_cases (target link : path) (s s' : St) (r : Res unit) :
  io (os_symlink target link) s = (r, s') →
  match r with
  | Val _ =>
      fs (world s) !! link = None
      ∧ after_call (OpSymlink target link)
          (<[link := Symlink target]> (fs (world s))) s s'
  | Exc e => e = OSError ∧ after_call (OpSymlink target link) (fs (world s)) s s'
  end.
Proof.
  unfold io, os_symlink. rewrite issue_eq.
  destruct (next_outcome (world s));
    [|intros [= <- <-]; split; [done|apply after_call_advance]..].
  change (fs (advance (OpSymlink target link) (world s))) with (fs (world s)).
  destruct (fs (world s) !! link) as [nd|] eqn:Hp; intros [= <- <-].
  - split; [done|apply after_call_advance].
  - split; [done|apply after_call_with_fs].
Qed.

Lemma io_shutil_move_cases (src dst : path) (s s' : St) (r : Res unit) :
  io (shutil_move src dst) s = (r, s') →
  match r with
  | Val _ =>
      ∃ nd, fs (world s) !! src = Some nd
            ∧ after_call (OpMove src dst) (<[dst := nd]> (delete src (fs (world s)))) s s'
  | Exc e =>
      e = OSError
      ∧ (after_call (OpMove src dst) (fs (world s)) s s'
         ∨ ∃ n, next_outcome (world s) = IoFailPartial n)
  end.
Proof.
  unfold io, shutil_move. rewrite issue_eq.
  change (fs (advance (OpMove src dst) (world s))) with (fs (world s)).
  destruct (fs (world s) !! src) as [nd|] eqn:Hp;
    [|intros [= <- <-]; split; [done|left; apply after_call_advance]].
  destruct (next_outcome (world s)) as [| |n]; [| |destruct nd]; intros [= <- <-].
  - exists nd. split; [done|]. apply after_call_with_fs.
  - split; [done|]. left. apply after_call_advance.
  - split; [done|]. eauto.
  - split; [done|]. eauto.
Qed.

(** The RAM tier's [add], seen from the machine: one memory query. *)
Lemma ram_add_world (p : path) (data : bytes) (s s' : St) (r : Res bool) :
  ram_add p data s = (r, s') →
  world s' = advance OpVirtualMemory (world s)
  ∧ cached_files (mgr s') = cached_files (mgr s)
  ∧ running (mgr s') = running (mgr s)
  ∧ match r with Val _ => True | Exc e => mgr s' = mgr s end.
Proof.
  unfold ram_add, get_available_ram. rewrite !bind_eq. unfold io, virtual_memory_available.
  rewrite issue_eq. destruct (next_outcome (world s)); [|by intros [= <- <-]..].
  simpl. unfold of_res. rewrite bind_eq.
  destruct (int_mul_float _ _) as [x|e]; [|by intros [= <- <-]].
  destruct (py_int x) as [n|e]; [|by intros [= <- <-]].
  rewrite !bind_eq. simpl. rewrite add_eq.
  destruct (decide (data_len data > n)); simpl; by intros [= <- <-].
Qed.

Lemma get_cache_size_world (s s' : St) (r : Res Z) :
  get_cache_size s = (r, s') →
  mgr s' = mgr s ∧ fs (world s') = fs (world s).
Proof.
  unfold get_cache_size, try_except_Exception. rewrite bind_eq. simpl.
  unfold io, scan. rewrite issue_eq.
  destruct (next_outcome (world s)); simpl; by intros [= _ <-].
Qed.

(** ** Migration and eviction, step by step *)

(** What a completed migration leaves in the file system and in the
    index. *)
Lemma migrate_completes (p dest : path) (s s1 : St) :
  migrate p dest s = (Val (), s1) →
  ∃ q d a,
    lookup_file (world s) p = Some (q, d, a)
    ∧ is_Some (fs (world s) !! p)
    ∧ fs (world s1)
      = <[p := Symlink dest]> (delete p (<[dest := File d a]> (fs (world s))))
    ∧ cached_files (mgr s1) = PyDict.set p dest (cached_files (mgr s)).
Proof.
  unfold migrate. intros H.
  rewrite bind_eq in H. destruct (io (read_file p) s) as [[data|e] sa] eqn:Hread;
    [|discriminate]. apply io_read_file_cases in Hread as [(Hma & Hfa & _) _].
  rewrite bind_eq in H. destruct (ram_add p data sa) as [[ok|e] sb] eqn:Hadd;
    [|discriminate]. apply ram_add_world in Hadd as (Hwb & Hib & _).
  assert (fs (world sb) = fs (world s)) as Hfb by (by rewrite Hwb).
  rewrite bind_eq in H.
  assert (∃ sc, (if ok then logging INFO "Cached to RAM" else mret ()) sb = (Val (), sc)
                ∧ mgr sc = mgr sb ∧ fs (world sc) = fs (world sb))
    as (sc & Hlog & Hmc & Hfc) by (destruct ok; eauto).
  rewrite Hlog in H. clear Hlog.
  rewrite bind_eq in H. destruct (io (mkdir_parents _) sc) as [[[]|e] sd] eqn:Hmk;
    [|discriminate]. apply io_mkdir_parents_cases in Hmk as [(Hmd & Hfd & _) _].
  rewrite bind_eq in H. destruct (io (copy2 p dest) sd) as [[[]|e] se] eqn:Hcp;
    [|discriminate]. apply io_copy2_cases in Hcp as (q & d & a & Hlook & (Hme & Hfe & _)).
  rewrite bind_eq in H. destruct (io (os_remove p) se) as [[[]|e] sf] eqn:Hrm;
    [|discriminate]. apply io_os_remove_cases in Hrm as [_ (Hmf & Hff & _)].
  rewrite bind_eq in H. destruct (io (os_symlink dest p) sf) as [[[]|e] sg] eqn:Hln;
    [|discriminate]. apply io_os_symlink_cases in Hln as [_ (Hmg & Hfg & _)].
  rewrite bind_eq in H. simpl in H. rewrite bind_eq in H.
  match type of H with
  | context [save_cache ?st] =>
      destruct (save_cache_spec st) as (sh & Hsave & Hmh & Hfh & _)
  end.
  rewrite Hsave, logging_eq in H. injection H as <-. simpl in *.
  assert (fs (world sd) = fs (world s)) as Hfs by congruence.
  rewrite (lookup_file_fs _ _ p Hfs) in Hlook.
  exists q, d, a. split; [done|]. split; [by eapply lookup_file_is_Some|].
  split; [congruence|]. rewrite Hmh. simpl. congruence.
Qed.

(** What a completed eviction leaves. *)
Lemma evict_completes (f : path) (s s' : St) (size : Z) :
  evict f s = (Val size, s') →
  ∃ dest nd,
    PyDict.get f (cached_files (mgr s)) = Some dest
    ∧ is_Some (fs (world s) !! f)
    ∧ delete f (fs (world s)) !! dest = Some nd
    ∧ fs (world s') = <[f := nd]> (delete dest (delete f (fs (world s))))
    ∧ cached_files (mgr s') = PyDict.remove f (cached_files (mgr s)).
Proof.
  unfold evict. intros H. rewrite bind_eq in H. simpl in H. rewrite bind_eq in H.
  destruct (PyDict.get f (cached_files (mgr s))) as [dest|] eqn:Hget; [|discriminate].
  simpl in H.
  rewrite bind_eq in H. destruct (io (os_remove f) s) as [[[]|e] sa] eqn:Hrm;
    [|discriminate]. apply io_os_remove_cases in Hrm as [Hsome (Hma & Hfa & _)].
  rewrite bind_eq in H. destruct (io (shutil_move dest f) sa) as [[[]|e] sb] eqn:Hmv;
    [|discriminate]. apply io_shutil_move_cases in Hmv as (nd & Hnd & (Hmb & Hfb & _)).
  rewrite bind_eq, del_index_eq in H.
  destruct (PyDict.del f (cached_files (mgr sb))) as [index'|] eqn:Hdel; [|discriminate].
  rewrite bind_eq in H.
  match type of H with
  | context [save_cache ?st] =>
      destruct (save_cache_spec st) as (sc & Hsave & Hmc & Hfc & _)
  end.
  rewrite Hsave in H. apply get_cache_size_world in H as [Hmd Hfd].
  exists dest, nd. rewrite Hfa in Hnd. split; [done|]. split; [done|]. split; [done|].
  split; [rewrite Hfd, Hfc; simpl; congruence|].
  rewrite Hmd, Hmc. simpl. unfold PyDict.del in Hdel.
  destruct (PyDict.mem f (cached_files (mgr sb))); [|discriminate].
  injection Hdel as <-. congruence.
Qed.

Lemma lookup_file_plain (w : World) (p : path) (d : bytes) (a : Z) :
  fs w !! p = Some (File d a) → lookup_file w p = Some (p, d, a).
Proof. unfold lookup_file. rewrite resolve_eq. by intros ->. Qed.

Lemma lookup_file_link (w : World) (p target : path) (d : bytes) (a : Z) :
  fs w !! p = Some (Symlink target) → fs w !! target = Some (File d a) →
  lookup_file w p = Some (target, d, a).
Proof.
  unfold lookup_file. rewrite resolve_eq. intros -> Ht.
  change MAXSYMLINKS with (S 39). cbv iota beta. by rewrite resolve_eq, Ht.
Qed.

Lemma lookup_file_absent (w : World) (p : path) :
  fs w !! p = None → lookup_file w p = None.
Proof. unfold lookup_file. rewrite resolve_eq. by intros ->. Qed.


(** X9: migrating a plain file and then evicting it restores the file
    system and the index: the origin is a regular file again with its
    bytes, nothing is left at the destination, every other path is as it
    was and the index is the index before.  Nothing is claimed about the
    access time the restored file carries. *)
Theorem migrate_then_evict_restores
    (p dest : path) (d : bytes) (a size : Z) (s s1 s2 : St) :
  p ≠ dest →
  fs (world s) !! p = Some (File d a) →
  fs (world s) !! dest = None →
  PyDict.get p (cached_files (mgr s)) = None →
  migrate p dest s = (Val (), s1) →
  evict p s1 = (Val size, s2) →
  (∃ a', fs (world s2) = <[p := File d a']> (fs (world s)))
  ∧ cached_files (mgr s2) = cached_files (mgr s).
Proof.
  intros Hne Hp Hd Habs Hmig Hev.
  destruct (migrate_completes _ _ _ _ Hmig) as (q & d' & a' & Hlook & _ & Hfs1 & Hidx1).
  rewrite (lookup_file_plain _ _ _ _ Hp) in Hlook. injection Hlook as <- <- <-.
  destruct (evict_completes _ _ _ _ Hev) as (dest' & nd & Hget & _ & Hnd & Hfs2 & Hidx2).
  rewrite Hidx1, dict_get_set in Hget. injection Hget as <-.
  rewrite Hfs1, lookup_delete_ne, lookup_insert_ne, lookup_delete_ne, lookup_insert_eq
    in Hnd by done. injection Hnd as <-.
  split.
  - exists a. rewrite Hfs2, Hfs1. apply map_eq. intros o.
    destruct (decide (o = p)) as [->|Hop]; [by rewrite !lookup_insert_eq|].
    rewrite !lookup_insert_ne by done.
    destruct (decide (o = dest)) as [->|Hod]; [by rewrite lookup_delete_eq|].
    by rewrite !lookup_delete_ne, lookup_insert_ne, lookup_delete_ne, lookup_insert_ne.
  - rewrite Hidx2, Hidx1, dict_remove_set. apply dict_remove_absent.
    by apply dict_get_None_keys.
Qed.

Lemma no_partial_tail (w w' : World) :
  faults w' = tail (faults w) → no_partial w → no_partial w'.
Proof.
  unfold no_partial. intros ->. destruct (faults w) as [|o rest]; simpl; [done|].
  intros Hall. by apply Forall_cons in Hall as [_ Hrest].
Qed.

(** Where a failed migration can leave the file system when no copy stops
    midway: untouched, with the complete copy beside the origin, or with
    the complete copy alone. *)
Lemma migrate_fails (p dest : path) (d : bytes) (a : Z) (s s1 : St) :
  fs (world s) !! p = Some (File d a) →
  no_partial (world s) →
  migrate p dest s = (Exc OSError, s1) →
  fs (world s1) = fs (world s)
  ∨ fs (world s1) = <[dest := File d a]> (fs (world s))
  ∨ fs (world s1) = delete p (<[dest := File d a]> (fs (world s))).
Proof.
  intros Hp Hnp. unfold migrate. intros H.
  rewrite bind_eq in H. destruct (io (read_file p) s) as [[data|e] sa] eqn:Hread;
    apply io_read_file_cases in Hread as [(Hma & Hfa & Hla & _) _];
    [|injection H as _ <-; auto].
  rewrite bind_eq in H. destruct (ram_add p data sa) as [[ok|e] sb] eqn:Hadd;
    apply ram_add_world in Hadd as (Hwb & _);
    [|injection H as _ <-; left; rewrite Hwb; done].
  assert (fs (world sb) = fs (world s)) as Hfb by (by rewrite Hwb).
  assert (no_partial (world sb)) as Hnb.
  { apply (no_partial_tail (world sa)); [by rewrite Hwb|].
    by apply (no_partial_tail (world s)). }
  rewrite bind_eq in H.
  assert (∃ sc, (if ok then logging INFO "Cached to RAM" else mret ()) sb = (Val (), sc)
                ∧ fs (world sc) = fs (world sb) ∧ faults (world sc) = faults (world sb))
    as (sc & Hlog & Hfc & Hlc) by (destruct ok; eauto).
  rewrite Hlog in H. clear Hlog.
  assert (no_partial (world sc)) as Hnc by (unfold no_partial; by rewrite Hlc).
  rewrite bind_eq in H. destruct (io (mkdir_parents _) sc) as [[[]|e] sd] eqn:Hmk;
    apply io_mkdir_parents_cases in Hmk as [(Hmd & Hfd & Hld & _) _];
    [|injection H as _ <-; left; congruence].
  assert (fs (world sd) = fs (world s)) as Hfs by congruence.
  assert (no_partial (world sd)) as Hnd by (by apply (no_partial_tail (world sc))).
  rewrite bind_eq in H. destruct (io (copy2 p dest) sd) as [[[]|e] se] eqn:Hcp;
    apply io_copy2_cases in Hcp.
  2: { injection H as _ <-. destruct Hcp as [_ [(_ & Hfe & _) | [n Hn]]].
       - left. congruence.
       - by apply no_partial_next in Hn. }
  destruct Hcp as (q & d' & a' & Hlook & (Hme & Hfe & Hle & _)).
  rewrite (lookup_file_fs _ _ p Hfs), (lookup_file_plain _ _ _ _ Hp) in Hlook.
  injection Hlook as <- <- <-. rewrite Hfs in Hfe.
  rewrite bind_eq in H. destruct (io (os_remove p) se) as [[[]|e] sf] eqn:Hrm;
    apply io_os_remove_cases in Hrm.
  2: { injection H as _ <-. destruct Hrm as [_ (_ & Hff & _)]. right. left. congruence. }
  destruct Hrm as [_ (Hmf & Hff & _)]. rewrite Hfe in Hff.
  rewrite bind_eq in H. destruct (io (os_symlink dest p) sf) as [[[]|e] sg] eqn:Hln;
    apply io_os_symlink_cases in Hln.
  2: { injection H as _ <-. destruct Hln as [_ (_ & Hfg & _)]. right. right. congruence. }
  rewrite bind_eq in H. simpl in H. rewrite bind_eq in H.
  match type of H with
  | context [save_cache ?st] => destruct (save_cache_spec st) as (sh & Hsave & _)
  end.
  rewrite Hsave, logging_eq in H. discriminate.
Qed.

(** The handler, case by case. *)
Lemma roll_back_cases (p dest : path) (s s' : St) (r : Res unit) :
  roll_back p dest s = (r, s') →
  mgr s' = mgr s
  ∧ (lookup_file (world s) dest = None ∧ r = Val () ∧ fs (world s') = fs (world s)
     ∨ is_Some (lookup_file (world s) dest)
       ∧ match r with
         | Val _ =>
             ∃ nd, fs (world s) !! dest = Some nd
                   ∧ fs (world s') = <[p := nd]> (delete dest (fs (world s)))
         | Exc e => e = OSError
         end).
Proof.
  unfold roll_back. rewrite bind_eq, logging_eq, bind_eq. simpl.
  unfold path_exists.
  rewrite (lookup_file_fs (world s) (with_log _ (world s)) dest) by done.
  destruct (lookup_file (world s) dest) as [x|] eqn:Hlook.
  - rewrite bool_decide_eq_true_2 by eauto. intros Hmv.
    pose proof (io_shutil_move_cases _ _ _ _ _ Hmv) as Hcases.
    apply io_mgr in Hmv. split; [done|]. right. split; [eauto|].
    destruct r as [[]|e].
    + destruct Hcases as (nd & Hnd & (_ & Hfs & _)). eauto.
    + by destruct Hcases.
  - rewrite bool_decide_eq_false_2 by (intros [? ?]; done).
    intros [= <- <-]. split; [done|]. left. done.
Qed.

(** X10: when the migration of a plain file fails with an [OSError] and
    no copy stopped midway, a handler that completes puts the file system
    back: the origin is a regular file with its bytes, nothing is left at
    the destination, every other path is as it was, and the index is
    unchanged.  Nothing is claimed about the access time the origin
    carries afterwards. *)
Theorem failed_migration_is_undone
    (p dest : path) (d : bytes) (a : Z) (s s1 s2 : St) :
  p ≠ dest →
  fs (world s) !! p = Some (File d a) →
  fs (world s) !! dest = None →
  no_partial (world s) →
  migrate p dest s = (Exc OSError, s1) →
  roll_back p dest s1 = (Val (), s2) →
  (∃ a', fs (world s2) = <[p := File d a']> (fs (world s)))
  ∧ cached_files (mgr s2) = cached_files (mgr s).
Proof.
  intros Hne Hp Hd Hnp Hmig Hrb.
  pose proof (migrate_spec _ _ _ _ _ Hmig) as Hidx. simpl in Hidx.
  pose proof (migrate_fails _ _ _ _ _ _ Hp Hnp Hmig) as Hfs1.
  destruct (roll_back_cases _ _ _ _ _ Hrb) as [Hm Hcases].
  split; [|congruence]. exists a. rewrite (insert_id _ _ _ Hp).
  destruct Hfs1 as [Hfs1 | [Hfs1 | Hfs1]].
  - destruct Hcases as [(_ & _ & Hfs2) | [Hsome _]]; [congruence|].
    rewrite lookup_file_absent in Hsome by (by rewrite Hfs1). by destruct Hsome.
  - destruct Hcases as [(Hnone & _) | (_ & nd & Hnd & Hfs2)].
    + rewrite (lookup_file_plain _ _ d a) in Hnone; [done|].
      rewrite Hfs1. apply lookup_insert_eq.
    + rewrite Hfs1, lookup_insert_eq in Hnd. injection Hnd as <-.
      rewrite Hfs2, Hfs1. apply map_eq. intros o.
      destruct (decide (o = p)) as [->|Hop]; [by rewrite lookup_insert_eq|].
      rewrite lookup_insert_ne by done.
      destruct (decide (o = dest)) as [->|Hod]; [by rewrite lookup_delete_eq|].
      by rewrite lookup_delete_ne, lookup_insert_ne.
  - destruct Hcases as [(Hnone & _) | (_ & nd & Hnd & Hfs2)].
    + rewrite (lookup_file_plain _ _ d a) in Hnone; [done|].
      rewrite Hfs1, lookup_delete_ne by done. apply lookup_insert_eq.
    + rewrite Hfs1, lookup_delete_ne, lookup_insert_eq in Hnd by done.
      injection Hnd as <-.
      rewrite Hfs2, Hfs1. apply map_eq. intros o.
      destruct (decide (o = p)) as [->|Hop]; [by rewrite lookup_insert_eq|].
      rewrite lookup_insert_ne by done.
      destruct (decide (o = dest)) as [->|Hod]; [by rewrite lookup_delete_eq|].
      by rewrite !lookup_delete_ne, lookup_insert_ne.
Qed.


Lemma migrate_then_evict_restores_witness :
  (∃ a', fs (world (evict origin_a (migrate origin_a cached_a st_fresh).2).2)
         = <[origin_a := File content_a a']> (fs (world st_fresh)))
  ∧ cached_files (mgr (evict origin_a (migrate origin_a cached_a st_fresh).2).2)
    = cached_files (mgr st_fresh).
Proof.
  apply (migrate_then_evict_restores origin_a cached_a content_a 7 0 st_fresh
           (migrate origin_a cached_a st_fresh).2).
  - discriminate.
  - vm_compute. reflexivity.
  - vm_compute. reflexivity.
  - reflexivity.
  - vm_compute. reflexivity.
  - vm_compute. reflexivity.
Defined.

Lemma failed_migration_is_undone_witness :
  (∃ a', fs (world (roll_back origin_a cached_a
                      (migrate origin_a cached_a st_remove_fails).2).2)
         = <[origin_a := File content_a a']> (fs (world st_remove_fails)))
  ∧ cached_files (mgr (roll_back origin_a cached_a
                         (migrate origin_a cached_a st_remove_fails).2).2)
    = cached_files (mgr st_remove_fails).
Proof.
  apply (failed_migration_is_undone origin_a cached_a content_a 7 st_remove_fails
           (migrate origin_a cached_a st_remove_fails).2).
  - discriminate.
  - vm_compute. reflexivity.
  - vm_compute. reflexivity.
  - unfold no_partial. simpl. repeat (constructor; [intros n; discriminate|]). constructor.
  - vm_compute. reflexivity.
  - vm_compute. reflexivity.
Defined.

(** ** Eviction order and reach *)

Lemma first_min_least (best : path * Z) (rest : list (path * Z)) :
  ∃ a, (first_min best rest, a) ∈ best :: rest
       ∧ ∀ x, x ∈ best :: rest → a <= x.2.
Proof.
  revert best. induction rest as [|x rest IH]; intros [k0 a0]; simpl.
  - exists a0. split; [apply list_elem_of_here|].
    intros x Hx. apply list_elem_of_singleton in Hx. subst x. simpl. lia.
  - case_decide as Hlt.
    + destruct (IH x) as (a & Hin & Hleast). exists a.
      split; [by apply list_elem_of_further|].
      pose proof (Hleast x (list_elem_of_here _ _)) as Hax.
      intros y Hy. apply elem_of_cons in Hy as [-> | Hy]; [simpl in *; lia|auto].
    + destruct (IH (k0, a0)) as (a & Hin & Hleast). exists a. split.
      * apply elem_of_cons in Hin as [Heq | Hin]; [rewrite Heq; apply list_elem_of_here|].
        by do 2 apply list_elem_of_further.
      * pose proof (Hleast (k0, a0) (list_elem_of_here _ _)) as Ha0. simpl in *.
        intros y Hy. apply elem_of_cons in Hy as [-> | Hy]; [simpl; lia|].
        apply elem_of_cons in Hy as [-> | Hy]; [lia|].
        apply Hleast. by apply list_elem_of_further.
Qed.

Lemma atimes_spec (ks : list path) (s s' : St) (keyed : list (path * Z)) :
  atimes ks s = (Val keyed, s') →
  Forall (λ ka, ∃ q d, lookup_file (world s) ka.1 = Some (q, d, ka.2)) keyed.
Proof.
  revert s s' keyed. induction ks as [|f ks IH]; intros s s' keyed; simpl.
  - intros [= <- _]. constructor.
  - rewrite bind_eq. destruct (io (stat f) s) as [[[sz a]|e] s1] eqn:Hstat; [|discriminate].
    apply io_stat_cases in Hstat as [(_ & Hfs & _) (q & d & Hlook & _)].
    rewrite bind_eq. destruct (atimes ks s1) as [[rest|e] s2] eqn:Hrest; [|discriminate].
    intros [= <- _]. constructor; [cbn [fst snd]; eauto|].
    apply IH in Hrest. eapply Forall_impl; [exact Hrest|].
    intros [k a'] (q' & d' & Hl). exists q', d'. cbn [fst snd] in *.
    by rewrite <- (lookup_file_fs (world s) (world s1) k Hfs).
Qed.

(** X11: the entry that [clean_cache] selects is an entry of the index
    whose file, read through the origin, has the least access time of all
    the entries. *)
Theorem select_oldest_is_oldest (s s1 : St) (f : path) :
  select_oldest s = (Val f, s1) →
  ∃ q d a,
    lookup_file (world s) f = Some (q, d, a)
    ∧ f ∈ PyDict.keys (cached_files (mgr s))
    ∧ ∀ g, g ∈ PyDict.keys (cached_files (mgr s)) →
           ∃ q' d' a', lookup_file (world s) g = Some (q', d', a') ∧ a <= a'.
Proof.
  intros Hsel. pose proof (select_oldest_in _ _ _ Hsel) as Hin.
  unfold select_oldest in Hsel. rewrite bind_eq in Hsel. simpl in Hsel.
  rewrite bind_eq in Hsel.
  destruct (atimes _ s) as [[keyed|e] s0] eqn:Hat; [|discriminate].
  pose proof (atimes_keys _ _ _ _ Hat) as Hkeys.
  pose proof (atimes_spec _ _ _ _ Hat) as Hall.
  destruct keyed as [|x rest]; [discriminate|]. injection Hsel as <- _.
  destruct (first_min_least x rest) as (a & Hfa & Hleast).
  rewrite Forall_forall in Hall.
  destruct (Hall _ Hfa) as (q & d & Hlook). simpl in Hlook.
  exists q, d, a. split; [done|]. split; [done|].
  intros g Hg. rewrite <- Hkeys in Hg.
  apply list_elem_of_fmap in Hg as ([g' a'] & -> & Hga).
  destruct (Hall _ Hga) as (q' & d' & Hlook'). simpl in Hlook'.
  exists q', d', a'. split; [done|]. apply (Hleast _ Hga).
Qed.

Lemma select_oldest_is_oldest_witness :
  ∃ q d a,
    lookup_file (world st_two_migrated) origin_b = Some (q, d, a)
    ∧ origin_b ∈ PyDict.keys (cached_files (mgr st_two_migrated))
    ∧ ∀ g, g ∈ PyDict.keys (cached_files (mgr st_two_migrated)) →
           ∃ q' d' a', lookup_file (world st_two_migrated) g = Some (q', d', a')
                       ∧ a <= a'.
Proof.
  apply (select_oldest_is_oldest st_two_migrated (select_oldest st_two_migrated).2).
  vm_compute. reflexivity.
Defined.

Lemma tree_size_nonneg (dir : path) (w : World) : 0 <= tree_size dir w.
Proof.
  unfold tree_size. apply (map_fold_weak_ind (λ r _, 0 <= r)); [done|].
  intros p nd m r _ Hr. destruct (below dir p); [|done].
  destruct (lookup_file w p) as [[[q d] a]|]; [|done].
  pose proof (data_len_nonneg d). lia.
Qed.

Lemma tree_size_fs (dir : path) (w w' : World) :
  fs w' = fs w → tree_size dir w' = tree_size dir w.
Proof.
  destruct w, w'. cbn [fs]. intros ->. reflexivity.
Qed.

(** The usage scan in closed form. *)
Lemma get_cache_size_eq (s : St) :
  get_cache_size s =
  match next_outcome (world s) with
  | IoOk =>
      (Val (tree_size (cache_dir (mgr s)) (world s)),
       mkSt (mgr s) (advance (OpScan (cache_dir (mgr s))) (world s)))
  | _ =>
      (Val 0,
       mkSt (mgr s)
            (with_log (log (world s) ++ [(ERROR, "Error calculating cache size"%string)])
                      (advance (OpScan (cache_dir (mgr s))) (world s))))
  end.
Proof.
  unfold get_cache_size, try_except_Exception. rewrite bind_eq. simpl.
  unfold io, scan. rewrite issue_eq.
  destruct (next_outcome (world s)); simpl; [|done..].
  by rewrite (tree_size_fs _ (world s) (advance _ (world s))).
Qed.

(** X12: [clean_cache] evicts nothing when the cache directory holds no
    more than the budget, or when the index is empty: it returns normally,
    the index and the file system are unchanged and the only operation
    issued is the usage scan. *)
Theorem clean_cache_within_budget (s : St) :
  tree_size (cache_dir (mgr s)) (world s) <= cache_size_bytes (mgr s)
  ∨ cached_files (mgr s) = [] →
  ∃ s', clean_cache s = (Val (), s')
        ∧ cached_files (mgr s') = cached_files (mgr s)
        ∧ fs (world s') = fs (world s)
        ∧ trace (world s') = trace (world s) ++ [OpScan (cache_dir (mgr s))].
Proof.
  intros Hcond. unfold clean_cache. rewrite bind_eq. simpl.
  rewrite bind_eq, get_cache_size_eq. simpl.
  pose proof (tree_size_nonneg (cache_dir (mgr s)) (world s)) as Hnn.
  assert (∀ cur, cur = 0 ∨ cur = tree_size (cache_dir (mgr s)) (world s) →
                 clean_guard cur (with_ram_cache (RAMCache.trim_cache (ram_cache (mgr s))) (mgr s))
                 = false) as Hguard.
  { intros cur Hcur. unfold clean_guard. simpl. destruct Hcond as [Hle | ->].
    - rewrite bool_decide_eq_false_2; [done|]. destruct Hcur; lia.
    - rewrite (bool_decide_eq_false_2 ([] ≠ [])) by auto. apply andb_false_r. }
  destruct (next_outcome (world s)); rewrite !bind_eq; simpl; rewrite !bind_eq; simpl;
    rewrite Hguard by auto; simpl; eauto.
Qed.

Lemma clean_cache_within_budget_witness :
  ∃ s', clean_cache st_two_migrated = (Val (), s')
        ∧ cached_files (mgr s') = cached_files (mgr st_two_migrated)
        ∧ fs (world s') = fs (world st_two_migrated)
        ∧ trace (world s')
          = trace (world st_two_migrated) ++ [OpScan (cache_dir (mgr st_two_migrated))].
Proof.
  apply (clean_cache_within_budget st_two_migrated). left. vm_compute. discriminate.
Defined.

(** X13: eviction, budget adjustment and the free-space check never add
    an entry to the index nor reorder it: the index they leave is a
    sublist of the index they found, whatever their outcome. *)
Theorem index_only_shrinks (s : St) :
  (∀ r s', clean_cache s = (r, s') →
           cached_files (mgr s') `sublist_of` cached_files (mgr s))
  ∧ (∀ r s', adjust_cache_size s = (r, s') →
             cached_files (mgr s') `sublist_of` cached_files (mgr s))
  ∧ (∀ size r s', has_space size s = (r, s') →
                  cached_files (mgr s') `sublist_of` cached_files (mgr s)).
Proof.
  split; [|split].
  - intros r s'. apply (quiet_clean_cache index_sub).
  - intros r s'. apply (quiet_adjust_cache_size index_sub).
  - intros size r s'. apply (quiet_has_space index_sub).
Qed.

(** ** What every method leaves alone *)

Ltac steady_step :=
  lazymatch goal with
  | |- frame _ (mret _) => apply frame_ret; tc_solve
  | |- frame _ (raise _) => apply frame_raise; tc_solve
  | |- frame _ (of_res _) => apply frame_of_res; tc_solve
  | |- frame _ (of_option _ _) => apply frame_of_option; tc_solve
  | |- frame _ (gets _) => apply frame_gets; tc_solve
  | |- frame _ (ask _) => apply frame_ask; tc_solve
  | |- frame _ (attempt _) => apply frame_attempt; [tc_solve|]
  | |- frame _ (try_except _ _) => apply frame_try_except; [tc_solve| |]
  | |- frame _ (try_except_Exception _ _) =>
      apply frame_try_except_Exception; [tc_solve| |]
  | |- frame _ (_ ≫= _) => apply frame_bind; [tc_solve| |intros ?]
  | |- frame _ (io _) => apply steady_io
  | |- frame _ (logging _ _) => apply steady_logging
  | |- frame _ (modify (with_ram_cache ?r)) => apply (steady_ram (λ _, r))
  | |- frame _ (modify (λ m, with_ram_cache _ m)) => apply steady_ram
  | |- frame _ (del_index _) => apply steady_del
  | |- frame _ (if ?b then _ else _) => destruct b
  | |- frame _ (match ?x with _ => _ end) => destruct x
  end.

Create HintDb steady.

Ltac steady_solve := repeat steady_step; eauto with steady.

Section SteadyMethods.
Context (R : relation St) `{!Steady R}.

Lemma steady_get_available_ram : frame R get_available_ram.
Proof. unfold get_available_ram. steady_solve. Qed.
Local Hint Resolve steady_get_available_ram : steady.

Lemma steady_ram_update_max_size : frame R ram_update_max_size.
Proof. unfold ram_update_max_size. steady_solve. Qed.

Lemma steady_ram_trim_cache : frame R ram_trim_cache.
Proof. unfold ram_trim_cache. steady_solve. Qed.

Lemma steady_ram_add p data : frame R (ram_add p data).
Proof. unfold ram_add. steady_solve. Qed.

Lemma steady_ram_get p : frame R (ram_get p).
Proof. unfold ram_get. steady_solve. Qed.

Lemma steady_save_cache : frame R save_cache.
Proof. unfold save_cache. steady_solve. Qed.

Lemma steady_get_cache_size : frame R get_cache_size.
Proof. unfold get_cache_size. steady_solve. Qed.
Local Hint Resolve steady_ram_update_max_size steady_ram_trim_cache steady_ram_add
  steady_ram_get steady_save_cache steady_get_cache_size : steady.

Lemma steady_atimes ks : frame R (atimes ks).
Proof. induction ks as [|f ks IH]; simpl; steady_solve. Qed.
Local Hint Resolve steady_atimes : steady.

Lemma steady_select_oldest : frame R select_oldest.
Proof. unfold select_oldest. steady_solve. Qed.

Lemma steady_evict f : frame R (evict f).
Proof. unfold evict. steady_solve. Qed.

Lemma steady_evict_failed o : frame R (evict_failed o).
Proof. unfold evict_failed. steady_solve. Qed.
Local Hint Resolve steady_select_oldest steady_evict steady_evict_failed : steady.

Lemma steady_clean_iteration o cur : frame R (clean_iteration o cur).
Proof. unfold clean_iteration. steady_solve. Qed.
Local Hint Resolve steady_clean_iteration : steady.

Lemma steady_clean_loop fuel : ∀ o cur, frame R (clean_loop fuel o cur).
Proof. induction fuel as [|fuel IH]; intros o cur; simpl; steady_solve. Qed.
Local Hint Resolve steady_clean_loop : steady.

Lemma steady_clean_cache : frame R clean_cache.
Proof. unfold clean_cache. steady_solve. Qed.

Lemma steady_has_space file_size : frame R (has_space file_size).
Proof. unfold has_space. steady_solve. Qed.
Local Hint Resolve steady_clean_cache steady_has_space : steady.

(** The methods that set the budget. *)
Section WithBudget.
Hypothesis Hbudget : ∀ v, frame R (modify (with_cache_size_bytes v)).

Lemma steady_adjust_cache_size : frame R adjust_cache_size.
Proof. unfold adjust_cache_size. steady_solve. Qed.
Local Hint Resolve steady_adjust_cache_size : steady.

Lemma steady_monitor_tick : frame R monitor_tick.
Proof. unfold monitor_tick. steady_solve. Qed.
Local Hint Resolve steady_monitor_tick : steady.

Lemma steady_monitor_system ticks : frame R (monitor_system ticks).
Proof. induction ticks as [|ticks IH]; simpl; steady_solve. Qed.

(** The method that records a path in the index. *)
Lemma steady_cache_file p :
  (∀ dest, frame R (modify (λ m, with_cached_files
                                   (PyDict.set p dest (cached_files m)) m))) →
  frame R (cache_file p).
Proof.
  intros Hset.
  assert (∀ dest, frame R (migrate p dest)) as Hmigrate
    by (intros dest; unfold migrate; steady_solve).
  assert (∀ dest, frame R (roll_back p dest)) as Hroll
    by (intros dest; unfold roll_back; steady_solve).
  unfold cache_file. steady_solve.
Qed.

End WithBudget.
End SteadyMethods.

Lemma keeps_of_mgr {X} (proj : AutoCacheManager → X) (s s' : St) :
  mgr s' = mgr s → keeps proj s s'.
Proof. unfold keeps. by intros ->. Qed.

#[global] Instance keeps_preorder {X} (proj : AutoCacheManager → X) : PreOrder (keeps proj).
Proof.
  split.
  - by intros s.
  - intros s1 s2 s3 H12 H23. unfold keeps in *. congruence.
Qed.

(** A component other than the RAM tier and the index is kept by every
    steady operation. *)
Lemma keeps_steady {X} (proj : AutoCacheManager → X) :
  (∀ r m, proj (with_ram_cache r m) = proj m) →
  (∀ i m, proj (with_cached_files i m) = proj m) →
  Steady (keeps proj).
Proof.
  intros Hram Hidx. split.
  - apply _.
  - intros A a s r s' Hio. apply keeps_of_mgr. by eapply io_mgr.
  - intros lvl msg s r s' [= _ <-]. by apply keeps_of_mgr.
  - intros g s r s' [= _ <-]. unfold keeps. simpl. apply Hram.
  - intros f s r s'. rewrite del_index_eq.
    destruct (PyDict.del f (cached_files (mgr s))); intros [= _ <-];
      [|by apply keeps_of_mgr].
    unfold keeps. simpl. apply Hidx.
Qed.

#[global] Instance keeps_budget_steady : Steady (keeps cache_size_bytes).
Proof. by apply keeps_steady. Qed.

#[global] Instance keeps_running_steady : Steady (keeps running).
Proof. by apply keeps_steady. Qed.

Lemma keeps_running_cache_file (p : path) : frame (keeps running) (cache_file p).
Proof.
  apply steady_cache_file; [apply _| |]; by intros v s r s' [= _ <-].
Qed.

#[global] Instance adds_only_preorder P : PreOrder (adds_only P).
Proof.
  split.
  - by intros s q _ Hq.
  - intros s1 s2 s3 H12 H23 q Hq Hget. by apply H23, H12.
Qed.

Lemma adds_only_of_index_sub P (s s' : St) : index_sub s s' → adds_only P s s'.
Proof. intros Hsub q _. by apply index_sub_absent. Qed.

#[global] Instance adds_only_steady P : Steady (adds_only P).
Proof.
  split.
  - apply _.
  - intros A a s r s' Hio. apply adds_only_of_index_sub, index_sub_of_mgr.
    by eapply io_mgr.
  - intros lvl msg s r s' Hlog. apply adds_only_of_index_sub.
    by eapply (quiet_logging (R:=index_sub)).
  - intros g s r s' Hram. apply adds_only_of_index_sub.
    by eapply (quiet_ram (R:=index_sub)).
  - intros f s r s' Hdel. apply adds_only_of_index_sub.
    by eapply (quiet_del (R:=index_sub)).
Qed.

Lemma adds_only_cache_file (P : path → Prop) (p : path) :
  P p → frame (adds_only P) (cache_file p).
Proof.
  intros HP. apply steady_cache_file; [apply _| |].
  - intros v s r s' Hb. apply adds_only_of_index_sub.
    by eapply (quiet_budget (R:=index_sub)).
  - intros dest s r s' [= _ <-] q Hq Hget. simpl.
    rewrite dict_get_set_ne; [done|]. by intros ->.
Qed.

(** X14: [cache_file p] records no path other than [p]: a path that is
    not in the index before the call is not in it after, whatever the
    outcome of the call. *)
Theorem cache_file_indexes_only_its_path (p q : path) (s s' : St) (r : Res unit) :
  cache_file p s = (r, s') →
  q ≠ p →
  PyDict.get q (cached_files (mgr s)) = None →
  PyDict.get q (cached_files (mgr s')) = None.
Proof.
  intros Hrun Hne Hget.
  by apply (adds_only_cache_file (λ x, x = p) p eq_refl s r s' Hrun q).
Qed.

Lemma cache_file_indexes_only_its_path_witness :
  PyDict.get origin_b (cached_files (mgr (cache_file origin_a st_fresh).2)) = None.
Proof.
  apply (cache_file_indexes_only_its_path origin_a origin_b st_fresh _
           (cache_file origin_a st_fresh).1).
  - by destruct (cache_file origin_a st_fresh).
  - discriminate.
  - reflexivity.
Defined.

(** ** The budget between two adjustments *)

Lemma io_disk_usage_cases (s s' : St) (r : Res (Z * Z)) :
  io disk_usage s = (r, s') → after_call OpDiskUsage (fs (world s)) s s'.
Proof.
  unfold io, disk_usage. rewrite issue_eq.
  destruct (next_outcome (world s)); intros [= _ <-]; apply after_call_advance.
Qed.

(** X15: [adjust_cache_size] has a dead band of 1 GiB.  Either the budget
    stays as it is, and then the call has evicted nothing and issued
    nothing but the disk-usage query; or the budget moves by more than
    1 GiB to a value within the configured bounds, which the eviction that
    follows does not touch. *)
Theorem adjust_cache_size_dead_band (s s' : St) (r : Res unit) :
  min_cache_bytes (mgr s) <= max_cache_bytes (mgr s) →
  adjust_cache_size s = (r, s') →
  (cache_size_bytes (mgr s') = cache_size_bytes (mgr s)
   ∧ cached_files (mgr s') = cached_files (mgr s)
   ∧ fs (world s') = fs (world s)
   ∧ trace (world s') = trace (world s) ++ [OpDiskUsage])
  ∨ (Z.abs (cache_size_bytes (mgr s') - cache_size_bytes (mgr s)) > GiB
     ∧ min_cache_bytes (mgr s) <= cache_size_bytes (mgr s') <= max_cache_bytes (mgr s)).
Proof.
  intros Hle. unfold adjust_cache_size. rewrite bind_eq.
  destruct (io disk_usage s) as [[[total free]|e] s1] eqn:Hdu;
    apply io_disk_usage_cases in Hdu as (Hm & Hf & _ & Ht & _);
    [|intros [= _ <-]; left; by rewrite Hm].
  unfold gets, of_res. repeat (rewrite bind_eq; simpl). rewrite !Hm.
  pose proof (compute_disk_budget_range free total (cache_percent (mgr s))
                _ _ Hle) as Hrange.
  destruct (compute_disk_budget _ _ _ _ _) as [new|e];
    [|intros [= _ <-]; left; by rewrite Hm].
  rewrite bind_eq. simpl. rewrite Hm.
  destruct (decide (Z.abs (new - cache_size_bytes (mgr s)) > GiB)) as [Hfar|Hnear];
    [|intros [= _ <-]; left; by rewrite Hm].
  rewrite bind_eq. simpl.
  destruct (clean_cache _) as [r1 s2] eqn:Hclean.
  apply (steady_clean_cache (keeps cache_size_bytes)) in Hclean.
  unfold keeps in Hclean. simpl in Hclean.
  intros Hres. right.
  assert (s' = s2) as -> by (destruct r1 as [[]|?]; by injection Hres).
  by rewrite Hclean.
Qed.

Lemma adjust_cache_size_dead_band_witness :
  (cache_size_bytes (mgr (adjust_cache_size st_no_space).2)
   = cache_size_bytes (mgr st_no_space)
   ∧ cached_files (mgr (adjust_cache_size st_no_space).2)
     = cached_files (mgr st_no_space)
   ∧ fs (world (adjust_cache_size st_no_space).2) = fs (world st_no_space)
   ∧ trace (world (adjust_cache_size st_no_space).2)
     = trace (world st_no_space) ++ [OpDiskUsage])
  ∨ (Z.abs (cache_size_bytes (mgr (adjust_cache_size st_no_space).2)
            - cache_size_bytes (mgr st_no_space)) > GiB
     ∧ min_cache_bytes (mgr st_no_space)
       <= cache_size_bytes (mgr (adjust_cache_size st_no_space).2)
       <= max_cache_bytes (mgr st_no_space)).
Proof.
  apply (adjust_cache_size_dead_band st_no_space _ (adjust_cache_size st_no_space).1).
  - vm_compute. discriminate.
  - by destruct (adjust_cache_size st_no_space).
Defined.

(** X16: at start-up and at a later adjustment the same budget is
    computed, unless the free space is below a tenth of the disk:
    [set_initial_cache_size] has no fallback for that case. *)
Theorem budgets_agree_without_pressure
    (free total lo hi : Z) (pct threshold : float) :
  int_mul_float total 0.1 = Val threshold →
  int_lt_float free threshold = false →
  compute_disk_budget free total pct lo hi = initial_cache_size free pct lo hi.
Proof.
  intros Hthr Hlt. unfold compute_disk_budget, proposed_cache_size, initial_cache_size.
  rewrite Hthr, Hlt.
  destruct (int_mul_float free pct) as [x|e]; [|done]. by destruct (py_int x).
Qed.

Lemma budgets_agree_without_pressure_witness :
  compute_disk_budget (600 * GiB) (1000 * GiB) 0.5 (10 * GiB) (500 * GiB)
  = initial_cache_size (600 * GiB) 0.5 (10 * GiB) (500 * GiB).
Proof.
  eapply (budgets_agree_without_pressure (600 * GiB) (1000 * GiB)).
  - vm_compute. reflexivity.
  - vm_compute. reflexivity.
Defined.

(** ** The usage scan *)

(** X17: [get_cache_size] never raises and changes neither the manager
    nor the file system.  When the scan succeeds the answer is the total
    size of the files below the cache directory, which is not negative;
    when it fails the answer is 0 and an error is logged, so a cache that
    cannot be scanned counts as empty. *)
Theorem get_cache_size_total (s : St) :
  ∃ used s',
    get_cache_size s = (Val used, s')
    ∧ mgr s' = mgr s
    ∧ fs (world s') = fs (world s)
    ∧ trace (world s') = trace (world s) ++ [OpScan (cache_dir (mgr s))]
    ∧ 0 <= used
    ∧ (next_outcome (world s) = IoOk →
       used = tree_size (cache_dir (mgr s)) (world s)
       ∧ log (world s') = log (world s))
    ∧ (next_outcome (world s) ≠ IoOk →
       used = 0
       ∧ log (world s')
         = log (world s) ++ [(ERROR, "Error calculating cache size"%string)]).
Proof.
  rewrite get_cache_size_eq.
  pose proof (tree_size_nonneg (cache_dir (mgr s)) (world s)).
  destruct (next_outcome (world s)); eexists _, _;
    (split; [reflexivity|]); simpl; repeat split; try done; lia.
Qed.

(** ** The early exits of [cache_file] *)

(** X18: a file held in RAM is served without any system call: no query
    of the disk or of the memory, no read.  The call returns normally,
    the file system, the index, the budget and the fault schedule are as
    before, the entry becomes the most recently used one of the RAM tier
    and one INFO record is logged. *)
Theorem cache_file_ram_hit (p : path) (data : bytes) (s : St) :
  PyDict.get p (RAMCache.cache (ram_cache (mgr s))) = Some data →
  ∃ s', cache_file p s = (Val (), s')
        ∧ trace (world s') = trace (world s)
        ∧ faults (world s') = faults (world s)
        ∧ fs (world s') = fs (world s)
        ∧ cached_files (mgr s') = cached_files (mgr s)
        ∧ cache_size_bytes (mgr s') = cache_size_bytes (mgr s)
        ∧ RAMCache.cache (ram_cache (mgr s'))
          = PyDict.remove p (RAMCache.cache (ram_cache (mgr s))) ++ [(p, data)]
        ∧ RAMCache.max_size (ram_cache (mgr s')) = RAMCache.max_size (ram_cache (mgr s))
        ∧ log (world s')
          = log (world s) ++ [(INFO, "File served from RAM cache"%string)].
Proof.
  intros Hget. unfold cache_file, ram_get. rewrite !bind_eq. simpl.
  rewrite get_eq, Hget. simpl. eexists. split; [reflexivity|]. done.
Qed.

Lemma cache_file_ram_hit_witness :
  ∃ s', cache_file origin_a st_in_ram = (Val (), s')
        ∧ trace (world s') = trace (world st_in_ram)
        ∧ faults (world s') = faults (world st_in_ram)
        ∧ fs (world s') = fs (world st_in_ram)
        ∧ cached_files (mgr s') = cached_files (mgr st_in_ram)
        ∧ cache_size_bytes (mgr s') = cache_size_bytes (mgr st_in_ram)
        ∧ RAMCache.cache (ram_cache (mgr s'))
          = PyDict.remove origin_a (RAMCache.cache (ram_cache (mgr st_in_ram)))
            ++ [(origin_a, content_a)]
        ∧ RAMCache.max_size (ram_cache (mgr s'))
          = RAMCache.max_size (ram_cache (mgr st_in_ram))
        ∧ log (world s')
          = log (world st_in_ram) ++ [(INFO, "File served from RAM cache"%string)].
Proof.
  apply (cache_file_ram_hit origin_a content_a st_in_ram). reflexivity.
Defined.

Lemma bind_gets {A B} (f : AutoCacheManager → A) (k : A → M B) (s : St) :
  (gets f ≫= k) s = k (f (mgr s)) s.
Proof. reflexivity. Qed.

Lemma bind_ret {A B} (a : A) (k : A → M B) (s : St) : (mret a ≫= k) s = k a s.
Proof. reflexivity. Qed.

Lemma bind_modify {B} (f : AutoCacheManager → AutoCacheManager) (k : unit → M B)
    (s : St) :
  (modify f ≫= k) s = k () (mkSt (f (mgr s)) (world s)).
Proof. reflexivity. Qed.

Lemma ram_get_miss (p : path) (s : St) :
  PyDict.get p (RAMCache.cache (ram_cache (mgr s))) = None →
  ram_get p s = (Val None, s).
Proof.
  intros Hget. unfold ram_get. rewrite !bind_eq. simpl. rewrite get_eq, Hget. simpl.
  by destruct s as [[] w].
Qed.



(** X20: the size of the file is taken outside the [try]: when the
    [stat] call fails, [OSError] leaves [cache_file].  Nothing but the
    [stat] has been issued, and the manager and the file system are as
    before. *)
Theorem cache_file_stat_fails (p rel : path) (s : St) :
  PyDict.get p (RAMCache.cache (ram_cache (mgr s))) = None →
  PyDict.get p (cached_files (mgr s)) = None →
  relative_to (hdd_dir (mgr s)) p = Some rel →
  next_outcome (world s) ≠ IoOk →
  ∃ s', cache_file p s = (Exc OSError, s')
        ∧ mgr s' = mgr s
        ∧ fs (world s') = fs (world s)
        ∧ trace (world s') = trace (world s) ++ [OpStat p]
        ∧ log (world s') = log (world s).
Proof.
  intros Hram Hidx Hrel Hfail. unfold cache_file.
  rewrite (bind_val _ _ _ _ _ (ram_get_miss _ _ Hram)).
  rewrite bind_gets, Hidx, bind_gets, Hrel. simpl of_option.
  rewrite bind_ret, bind_gets, bind_eq.
  assert (io (stat p) s = (Exc OSError, mkSt (mgr s) (advance (OpStat p) (world s))))
    as ->; [|by eexists].
  unfold io, stat. rewrite issue_eq. by destruct (next_outcome (world s)).
Qed.

Lemma cache_file_stat_fails_witness :
  ∃ s', cache_file origin_a st_stat_fails = (Exc OSError, s')
        ∧ mgr s' = mgr st_stat_fails
        ∧ fs (world s') = fs (world st_stat_fails)
        ∧ trace (world s') = trace (world st_stat_fails) ++ [OpStat origin_a]
        ∧ log (world s') = log (world st_stat_fails).
Proof.
  apply (cache_file_stat_fails origin_a ["apps"; "a.exe"]%string st_stat_fails);
    try reflexivity.
  vm_compute. discriminate.
Defined.

(** ** The loops that wait for [running] to be cleared *)

(** X21: no method clears [running], so the monitor loop that is entered
    with [running] set never ends normally: after any number of passes
    it is still going, or an exception has left it; [running] is still
    set. *)
Theorem monitor_ends_only_by_exception (ticks : nat) (s s' : St) (r : Res (option unit)) :
  running (mgr s) = true →
  monitor_system ticks s = (r, s') →
  running (mgr s') = true ∧ r ≠ Val (Some ()).
Proof.
  revert s. induction ticks as [|ticks IH]; intros s Hrun; simpl.
  - intros [= <- <-]. done.
  - rewrite bind_eq. simpl. rewrite Hrun. rewrite bind_eq.
    destruct (monitor_tick s) as [[[]|e] s1] eqn:Htick;
      apply (steady_monitor_tick (keeps running)) in Htick;
      try (by intros v s0 r0 s0' [= _ <-]);
      unfold keeps in Htick; rewrite Hrun in Htick.
    + by apply IH.
    + by intros [= <- <-].
Qed.

Lemma monitor_ends_only_by_exception_witness :
  running (mgr (monitor_system 3 st_fresh).2) = true
  ∧ (monitor_system 3 st_fresh).1 ≠ Val (Some ()).
Proof.
  apply (monitor_ends_only_by_exception 3 st_fresh).
  - reflexivity.
  - by destruct (monitor_system 3 st_fresh).
Defined.

(** ** The initial caching run *)

Section InitialRunFacts.
Context (is_target : path → bool).

Lemma cache_each_app (ps qs : list path) (s : St) :
  cache_each (ps ++ qs) s = (cache_each ps;; cache_each qs) s.
Proof.
  revert s. induction ps as [|p ps IH]; intros s; simpl; [done|].
  rewrite !bind_eq. destruct (cache_file p s) as [[[]|e] s1]; [|done].
  by rewrite IH, bind_eq.
Qed.

Lemma cache_files_eq (root : path) (files : list string) (s : St) :
  cache_files is_target root files s
  = cache_each (filter (λ p, is_target p = true) (map (λ file, root ++ [file]) files)) s.
Proof.
  revert s. induction files as [|file files IH]; intros s; simpl; [done|].
  rewrite filter_cons. rewrite bind_eq. destruct (is_target (root ++ [file])) eqn:Ht.
  - rewrite decide_True by done. simpl. rewrite bind_eq.
    destruct (cache_file _ s) as [[[]|e] s1]; [apply IH|done].
  - rewrite decide_False by done. simpl. apply IH.
Qed.

Lemma keeps_running_cache_each (ps : list path) : frame (keeps running) (cache_each ps).
Proof.
  induction ps as [|p ps IH]; simpl.
  - apply frame_ret. apply _.
  - apply frame_bind; [apply _|apply keeps_running_cache_file|by intros _].
Qed.

(** While [running] is set the [break] is never taken: the run hands
    every target of the walk to [cache_file], in order. *)
Lemma sweep_eq (walk : list (path * list string)) (s : St) :
  running (mgr s) = true →
  sweep is_target walk s = cache_each (targets is_target walk) s.
Proof.
  revert s. induction walk as [|[root files] walk IH]; intros s Hrun; simpl; [done|].
  rewrite bind_eq. simpl. rewrite Hrun. rewrite cache_each_app, !bind_eq.
  rewrite cache_files_eq.
  destruct (cache_each _ s) as [[[]|e] s1] eqn:Hfiles; [|done].
  apply keeps_running_cache_each in Hfiles. unfold keeps in Hfiles.
  apply IH. congruence.
Qed.

Lemma adds_only_cache_files (P : path → Prop) (root : path) (files : list string) :
  (∀ file, file ∈ files → is_target (root ++ [file]) = true → P (root ++ [file])) →
  frame (adds_only P) (cache_files is_target root files).
Proof.
  induction files as [|file files IH]; intros HP; simpl.
  - apply frame_ret. apply _.
  - apply frame_bind; [apply _| |intros _].
    + destruct (is_target (root ++ [file])) eqn:Ht.
      * apply adds_only_cache_file. apply HP; [apply list_elem_of_here|done].
      * apply frame_ret. apply _.
    + apply IH. intros f Hf. apply HP. by apply list_elem_of_further.
Qed.

Lemma adds_only_sweep (P : path → Prop) (walk : list (path * list string)) :
  (∀ p, p ∈ targets is_target walk → P p) →
  frame (adds_only P) (sweep is_target walk).
Proof.
  induction walk as [|[root files] walk IH]; intros HP; simpl.
  - apply frame_ret. apply _.
  - apply frame_bind; [apply _|apply frame_gets; apply _|intros continue].
    destruct continue; [|apply frame_ret; apply _].
    apply frame_bind; [apply _| |intros _].
    + apply adds_only_cache_files. intros file Hfile Ht. apply HP.
      simpl. apply elem_of_app. left. apply list_elem_of_filter. split; [done|].
      apply list_elem_of_fmap. eauto.
    + apply IH. intros p Hp. apply HP. simpl. apply elem_of_app. by right.
Qed.

(** X22: one exception ends the initial run.  When [cache_file] raises on
    a target of the walk, the run raises the same exception at once: the
    targets after it are not visited, the final [clean_cache] does not
    take place and the state is the one the failed call left. *)
Theorem initial_run_stops_at_first_exception
    (walk : list (path * list string)) (visited rest : list path) (p : path)
    (s s1 s2 : St) (e : exn) :
  running (mgr s) = true →
  targets is_target walk = visited ++ p :: rest →
  cache_each visited s = (Val (), s1) →
  cache_file p s1 = (Exc e, s2) →
  initial_run is_target walk s = (Exc e, s2).
Proof.
  intros Hrun Htargets Hvisited Hfail. unfold initial_run.
  rewrite bind_eq, (sweep_eq walk s Hrun), Htargets, cache_each_app, bind_eq, Hvisited.
  simpl. by rewrite bind_eq, Hfail.
Qed.

(** X23: the initial run records no path but targets of the walk: a
    path that is not among them and is not in the index before the run
    is not in it after, however the run ends. *)
Theorem initial_run_indexes_only_targets
    (walk : list (path * list string)) (q : path) (s s' : St) (r : Res unit) :
  initial_run is_target walk s = (r, s') →
  q ∉ targets is_target walk →
  PyDict.get q (cached_files (mgr s)) = None →
  PyDict.get q (cached_files (mgr s')) = None.
Proof.
  intros Hrun Hq.
  assert (frame (adds_only (λ p, p ∈ targets is_target walk))
                (initial_run is_target walk)) as Hframe.
  { unfold initial_run. apply frame_bind; [apply _|by apply adds_only_sweep|intros _].
    apply frame_bind; [apply _|apply steady_clean_cache; apply _|intros _].
    apply steady_logging. }
  by apply (Hframe s r s' Hrun q).
Qed.

End InitialRunFacts.

Lemma initial_run_stops_at_first_exception_witness :
  initial_run is_exe walk_apps st_dangling
  = (Exc OSError,
     mkSt (mgr st_dangling) (advance (OpStat origin_ghost) (world st_dangling))).
Proof.
  apply (initial_run_stops_at_first_exception is_exe walk_apps [] [origin_a]
           origin_ghost st_dangling st_dangling).
  - reflexivity.
  - vm_compute. reflexivity.
  - reflexivity.
  - vm_compute. reflexivity.
Defined.

Lemma initial_run_indexes_only_targets_witness :
  PyDict.get notes (cached_files (mgr (initial_run is_exe walk_plain st_fresh).2)) = None.
Proof.
  apply (initial_run_indexes_only_targets is_exe walk_plain notes st_fresh _
           (initial_run is_exe walk_plain st_fresh).1).
  - by destruct (initial_run is_exe walk_plain st_fresh).
  - vm_compute. intros Hin. repeat (apply elem_of_cons in Hin as [Hin|Hin]; [discriminate|]).
    by apply elem_of_nil in Hin.
  - reflexivity.
Defined.

(** ** Persistence of the index *)

(** X24: [save_cache] never raises and changes neither the manager nor
    the file system.  When the write succeeds the configuration file holds
    the index as it is in memory; when it fails an error is logged, and
    the file is as before or, after a partial write, unreadable. *)
Theorem save_cache_total (s : St) :
  ∃ s',
    save_cache s = (Val (), s')
    ∧ mgr s' = mgr s
    ∧ fs (world s') = fs (world s)
    ∧ trace (world s') = trace (world s) ++ [OpSaveConfig]
    ∧ match next_outcome (world s) with
      | IoOk =>
          config_file (world s') = Some (cached_files (mgr s))
          ∧ log (world s') = log (world s)
      | IoFail =>
          config_file (world s') = config_file (world s)
          ∧ log (world s')
            = log (world s) ++ [(ERROR, "Failed to save cache config"%string)]
      | IoFailPartial _ =>
          config_file (world s') = None
          ∧ log (world s')
            = log (world s) ++ [(ERROR, "Failed to save cache config"%string)]
      end.
Proof.
  unfold save_cache, try_except. rewrite bind_gets. unfold io, write_config.
  rewrite issue_eq. destruct (next_outcome (world s)); simpl; eauto 10.
Qed.

(** ** Eviction when no call fails *)

Lemma faults_nil_next (w : World) : faults w = [] → next_outcome w = IoOk.
Proof. unfold next_outcome. by intros ->. Qed.

Lemma after_call_faults_nil (op : fs_op) (files : gmap path node) (s s' : St) :
  after_call op files s s' → faults (world s) = [] → faults (world s') = [].
Proof. intros (_ & _ & -> & _) ->. done. Qed.

Lemma io_stat_ok (p q : path) (d : bytes) (a : Z) (s : St) :
  next_outcome (world s) = IoOk →
  lookup_file (world s) p = Some (q, d, a) →
  ∃ s', io (stat p) s = (Val (data_len d, a), s')
        ∧ after_call (OpStat p) (fs (world s)) s s'.
Proof.
  intros Hok Hlook. unfold io, stat. rewrite issue_eq.
  destruct (next_outcome (world s)); try discriminate.
  rewrite (lookup_file_fs (world s) (advance (OpStat p) (world s)) p), Hlook by done.
  eexists. split; [reflexivity|]. apply after_call_advance.
Qed.

Lemma io_os_remove_ok (p : path) (s : St) :
  next_outcome (world s) = IoOk →
  is_Some (fs (world s) !! p) →
  ∃ s', io (os_remove p) s = (Val (), s')
        ∧ after_call (OpRemove p) (delete p (fs (world s))) s s'.
Proof.
  intros Hok [nd Hp]. unfold io, os_remove. rewrite issue_eq.
  destruct (next_outcome (world s)); try discriminate.
  change (fs (advance (OpRemove p) (world s))) with (fs (world s)). rewrite Hp.
  eexists. split; [reflexivity|]. apply after_call_with_fs.
Qed.

Lemma io_shutil_move_ok (src dst : path) (nd : node) (s : St) :
  next_outcome (world s) = IoOk →
  fs (world s) !! src = Some nd →
  ∃ s', io (shutil_move src dst) s = (Val (), s')
        ∧ after_call (OpMove src dst) (<[dst := nd]> (delete src (fs (world s)))) s s'.
Proof.
  intros Hok Hsrc. unfold io, shutil_move. rewrite issue_eq.
  change (fs (advance (OpMove src dst) (world s))) with (fs (world s)). rewrite Hsrc.
  destruct (next_outcome (world s)); try discriminate.
  eexists. split; [reflexivity|]. apply after_call_with_fs.
Qed.

Lemma save_cache_ok (s : St) :
  next_outcome (world s) = IoOk →
  ∃ s', save_cache s = (Val (), s') ∧ after_call OpSaveConfig (fs (world s)) s s'.
Proof.
  intros Hok. unfold save_cache, try_except. rewrite bind_gets.
  unfold io, write_config. rewrite issue_eq.
  destruct (next_outcome (world s)); try discriminate.
  eexists. split; [reflexivity|]. done.
Qed.

Lemma get_cache_size_ok (s : St) :
  next_outcome (world s) = IoOk →
  ∃ s', get_cache_size s = (Val (tree_size (cache_dir (mgr s)) (world s)), s')
        ∧ after_call (OpScan (cache_dir (mgr s))) (fs (world s)) s s'.
Proof.
  intros Hok. rewrite get_cache_size_eq.
  destruct (next_outcome (world s)); try discriminate.
  eexists. split; [reflexivity|]. apply after_call_advance.
Qed.

Lemma atimes_ok (ks : list path) (s : St) :
  faults (world s) = [] →
  (∀ f, f ∈ ks → is_Some (lookup_file (world s) f)) →
  ∃ keyed s', atimes ks s = (Val keyed, s')
              ∧ mgr s' = mgr s
              ∧ fs (world s') = fs (world s)
              ∧ faults (world s') = [].
Proof.
  revert s. induction ks as [|f ks IH]; intros s Hfl Hall; simpl.
  - eexists _, _. split; [reflexivity|done].
  - destruct (Hall f (list_elem_of_here _ _)) as [[[q d] a] Hlook].
    destruct (io_stat_ok f q d a s (faults_nil_next _ Hfl) Hlook) as (s1 & Hstat & Hac).
    rewrite (bind_val _ _ _ _ _ Hstat). cbv beta iota.
    pose proof (after_call_faults_nil _ _ _ _ Hac Hfl) as Hfl1.
    destruct Hac as (Hm1 & Hfs1 & _).
    destruct (IH s1 Hfl1) as (keyed & s2 & Hat & Hm2 & Hfs2 & Hfl2).
    { intros g Hg. rewrite (lookup_file_fs (world s) (world s1) g Hfs1).
      apply Hall. by apply list_elem_of_further. }
    rewrite (bind_val _ _ _ _ _ Hat). eexists _, _. split; [reflexivity|].
    split; [congruence|]. split; [congruence|done].
Qed.

Lemma select_oldest_ok (s : St) :
  faults (world s) = [] →
  (∀ f, f ∈ PyDict.keys (cached_files (mgr s)) → is_Some (lookup_file (world s) f)) →
  cached_files (mgr s) ≠ [] →
  ∃ f s', select_oldest s = (Val f, s')
          ∧ f ∈ PyDict.keys (cached_files (mgr s))
          ∧ mgr s' = mgr s
          ∧ fs (world s') = fs (world s)
          ∧ faults (world s') = [].
Proof.
  intros Hfl Hall Hne. unfold select_oldest. rewrite bind_gets.
  destruct (atimes_ok _ s Hfl Hall) as (keyed & s1 & Hat & Hm & Hfs & Hfl1).
  rewrite (bind_val _ _ _ _ _ Hat). apply atimes_keys in Hat.
  destruct keyed as [|x rest].
  - destruct (cached_files (mgr s)); [done|discriminate].
  - eexists _, _. split; [reflexivity|]. split; [|done].
    rewrite <- Hat. apply first_min_in.
Qed.

Lemma evict_ok (f dest : path) (nd : node) (s : St) :
  faults (world s) = [] →
  PyDict.get f (cached_files (mgr s)) = Some dest →
  is_Some (fs (world s) !! f) →
  delete f (fs (world s)) !! dest = Some nd →
  ∃ s', evict f s = (Val (tree_size (cache_dir (mgr s)) (world s')), s')
        ∧ mgr s' = with_cached_files (PyDict.remove f (cached_files (mgr s))) (mgr s)
        ∧ fs (world s') = <[f := nd]> (delete dest (delete f (fs (world s))))
        ∧ faults (world s') = [].
Proof.
  intros Hfl Hget Hf Hdest. unfold evict. rewrite bind_gets, Hget. simpl of_option.
  rewrite bind_ret.
  destruct (io_os_remove_ok f s (faults_nil_next _ Hfl) Hf) as (s1 & H1 & Hac1).
  rewrite (bind_val _ _ _ _ _ H1).
  pose proof (after_call_faults_nil _ _ _ _ Hac1 Hfl) as Hfl1.
  destruct Hac1 as (Hm1 & Hfs1 & _).
  destruct (io_shutil_move_ok dest f nd s1 (faults_nil_next _ Hfl1)) as (s2 & H2 & Hac2);
    [by rewrite Hfs1|].
  rewrite (bind_val _ _ _ _ _ H2).
  pose proof (after_call_faults_nil _ _ _ _ Hac2 Hfl1) as Hfl2.
  destruct Hac2 as (Hm2 & Hfs2 & _).
  rewrite bind_eq, del_index_eq, Hm2, Hm1. unfold PyDict.del.
  assert (PyDict.mem f (cached_files (mgr s)) = true) as ->
    by (apply dict_mem_get; eauto).
  destruct (save_cache_ok (mkSt (with_cached_files
                                   (PyDict.remove f (cached_files (mgr s))) (mgr s))
                                (world s2)) (faults_nil_next _ Hfl2))
    as (s4 & H4 & Hac4).
  rewrite (bind_val _ _ _ _ _ H4).
  pose proof (after_call_faults_nil _ _ _ _ Hac4 Hfl2) as Hfl4.
  destruct Hac4 as (Hm4 & Hfs4 & _).
  destruct (get_cache_size_ok s4 (faults_nil_next _ Hfl4)) as (s5 & H5 & Hac5).
  rewrite H5.
  pose proof (after_call_faults_nil _ _ _ _ Hac5 Hfl4) as Hfl5.
  destruct Hac5 as (Hm5 & Hfs5 & _).
  exists s5. split.
  - f_equal. f_equal. rewrite Hm4. simpl. by apply tree_size_fs.
  - split; [by rewrite Hm5, Hm4|]. split; [|done].
    rewrite Hfs5, Hfs4. simpl. by rewrite Hfs2, Hfs1.
Qed.

Lemma dict_keys_get {V : Type} (key : path) (d : list (path * V)) :
  key ∈ PyDict.keys d → ∃ v, PyDict.get key d = Some v ∧ (key, v) ∈ d.
Proof.
  unfold PyDict.keys. induction d as [|[k v0] d IH]; simpl.
  - intros Hin. inversion Hin.
  - rewrite elem_of_cons. intros Hin. destruct (decide (k = key)) as [->|Hne].
    + exists v0. split; [done|]. apply list_elem_of_here.
    + destruct Hin as [->|Hin]; [done|]. destruct (IH Hin) as (v & Hget & Hv).
      exists v. split; [done|]. by apply list_elem_of_further.
Qed.

Lemma dict_remove_elem {V : Type} (key f : path) (v : V) (d : list (path * V)) :
  (f, v) ∈ PyDict.remove key d ↔ f ≠ key ∧ (f, v) ∈ d.
Proof. unfold PyDict.remove. by rewrite list_elem_of_filter. Qed.

Lemma NoDup_snd_inj {A B : Type} (l : list (A * B)) (a b : A) (c : B) :
  NoDup l.*2 → (a, c) ∈ l → (b, c) ∈ l → a = b.
Proof.
  induction l as [|[x y] l IH]; simpl; intros Hnd Ha Hb; [inversion Ha|].
  apply NoDup_cons in Hnd as [Hy Hnd].
  assert (∀ z, (z, c) ∈ l → c ∈ l.*2) as Hin
    by (intros z Hz; apply list_elem_of_fmap; by exists (z, c)).
  apply elem_of_cons in Ha as [Ha|Ha]; apply elem_of_cons in Hb as [Hb|Hb].
  - congruence.
  - injection Ha as -> ->. destruct Hy. eauto.
  - injection Hb as -> ->. destruct Hy. eauto.
  - by apply IH.
Qed.

Section Consistent.
Context (index : PyDict.t path path) (files : gmap path node).
Hypothesis Hcons : index_consistent index files.

Lemma consistent_target (f d1 d2 : path) :
  (f, d1) ∈ index → (f, d2) ∈ index → d1 = d2.
Proof.
  intros H1 H2. destruct Hcons as [_ Hall].
  destruct (Hall _ _ H1) as [Hf1 _]. destruct (Hall _ _ H2) as [Hf2 _]. congruence.
Qed.

Lemma consistent_origin (f1 f2 d : path) :
  (f1, d) ∈ index → (f2, d) ∈ index → f1 = f2.
Proof. destruct Hcons as [Hnd _]. by apply NoDup_snd_inj. Qed.

Lemma consistent_apart (f d g dg : path) :
  (f, d) ∈ index → (g, dg) ∈ index → f ≠ dg.
Proof.
  intros H1 H2 ->. destruct Hcons as [_ Hall].
  destruct (Hall _ _ H1) as [Hf _]. destruct (Hall _ _ H2) as [_ (x & a & Hd)]. congruence.
Qed.

Lemma restored_from_start (s : St) :
  cached_files (mgr s) = index → fs (world s) = files → restored_from index files s.
Proof.
  intros Hi Hf. unfold restored_from. rewrite Hi, Hf. split; [done|]. split; [done|].
  split; [|done]. intros f dest Hin Hnin. done.
Qed.

(** What is left of the index is consistent with what is left of the
    files. *)
Lemma restored_from_consistent (s : St) :
  restored_from index files s →
  index_consistent (cached_files (mgr s)) (fs (world s)).
Proof.
  intros (Hsub & Hkept & _). destruct Hcons as [Hnd Hall]. split.
  - apply (sublist_NoDup _ index.*2 Hnd). by apply fmap_sublist.
  - intros f dest Hin. destruct (Hkept _ _ Hin) as [-> ->].
    apply Hall. by eapply elem_of_sublist.
Qed.

(** One pass of the loop completes, and with an eviction. *)
Lemma clean_iteration_ok (o : option path) (cur : Z) (s : St) :
  faults (world s) = [] →
  restored_from index files s →
  cached_files (mgr s) ≠ [] →
  ∃ f s',
    clean_iteration o cur s
    = (Val (Some f, tree_size (cache_dir (mgr s)) (world s')), s')
    ∧ faults (world s') = []
    ∧ restored_from index files s'
    ∧ (length (cached_files (mgr s')) < length (cached_files (mgr s)))%nat
    ∧ cache_size_bytes (mgr s') = cache_size_bytes (mgr s)
    ∧ cache_dir (mgr s') = cache_dir (mgr s).
Proof.
  intros Hfl Hres Hne. pose proof (restored_from_consistent s Hres) as [_ Hnow].
  destruct Hres as (Hsub & Hkept & Hgone & Hrest).
  rewrite clean_iteration_eq.
  destruct (select_oldest_ok s Hfl) as (g & s1 & Hsel & Hg & Hm1 & Hfs1 & Hfl1); [|done|].
  { intros f Hf. apply dict_keys_get in Hf as (dest & _ & Hin).
    destruct (Hnow _ _ Hin) as [Hlink (d & a & Hfile)].
    rewrite (lookup_file_link _ _ _ _ _ Hlink Hfile). eauto. }
  rewrite Hsel. apply dict_keys_get in Hg as (dg & Hget & Hin).
  destruct (Hnow _ _ Hin) as [Hlink (d & a & Hfile)].
  assert ((g, dg) ∈ index) as Hin0 by by eapply elem_of_sublist.
  assert (g ≠ dg) as Hgdg by by eapply consistent_apart.
  destruct (evict_ok g dg (File d a) s1 Hfl1) as (s2 & Hev & Hm2 & Hfs2 & Hfl2).
  { by rewrite Hm1. }
  { rewrite Hfs1, Hlink. eauto. }
  { rewrite Hfs1, lookup_delete_ne; done. }
  rewrite Hev, Hm1. rewrite Hm1 in Hm2. rewrite Hfs1 in Hfs2.
  assert (cached_files (mgr s2) = PyDict.remove g (cached_files (mgr s))) as Hidx2
    by by rewrite Hm2.
  exists g, s2. split; [done|]. split; [done|].
  split; [|split; [|by rewrite Hm2]].
  - unfold restored_from. rewrite Hidx2, Hfs2. split; [|split; [|split]].
    + etrans; [apply sublist_filter|done].
    + intros f dest Hfd. apply dict_remove_elem in Hfd as [Hfg Hfd].
      assert ((f, dest) ∈ index) as Hfd0 by by eapply elem_of_sublist.
      destruct (Hkept _ _ Hfd) as [Hf Hd].
      assert (f ≠ dg) by by eapply consistent_apart.
      assert (g ≠ dest) by by eapply consistent_apart.
      assert (dest ≠ dg) by (intros ->; apply Hfg; by eapply consistent_origin).
      by rewrite !lookup_insert_ne, !lookup_delete_ne.
    + intros f dest Hfd0 Hnin.
      destruct (decide ((f, dest) ∈ cached_files (mgr s))) as [Hfd|Hfd].
      * assert (f = g) as ->.
        { destruct (decide (f = g)); [done|]. destruct Hnin.
          by apply dict_remove_elem. }
        assert (dest = dg) as -> by by eapply consistent_target.
        rewrite lookup_insert_eq, lookup_insert_ne, lookup_delete_eq by done.
        destruct (Hkept _ _ Hfd) as [_ <-]. done.
      * destruct (Hgone _ _ Hfd0 Hfd) as [Hf Hd].
        assert (f ≠ g) as Hfg.
        { intros ->. apply Hfd.
          by rewrite (consistent_target g dest dg Hfd0 Hin0). }
        assert (f ≠ dg) by by eapply consistent_apart.
        assert (g ≠ dest) by by eapply consistent_apart.
        rewrite !lookup_insert_ne, !lookup_delete_ne by done. split; [done|].
        destruct (decide (dest = dg)) as [->|Hne'];
          [apply lookup_delete_eq|by rewrite !lookup_delete_ne].
    + intros x Hx1 Hx2.
      assert (x ≠ g)
        by (intros ->; apply Hx1, list_elem_of_fmap; by exists (g, dg)).
      assert (x ≠ dg)
        by (intros ->; apply Hx2, list_elem_of_fmap; by exists (g, dg)).
      rewrite !lookup_insert_ne, !lookup_delete_ne by done. by apply Hrest.
  - rewrite Hidx2. apply dict_remove_shorter.
    apply list_elem_of_fmap. by exists (g, dg).
Qed.

(** The loop ends normally, within the budget or with an empty index. *)
Lemma clean_loop_ok (fuel : nat) :
  ∀ (o : option path) (s : St),
    faults (world s) = [] →
    restored_from index files s →
    (length (cached_files (mgr s)) < fuel)%nat →
    ∃ s',
      clean_loop fuel o (tree_size (cache_dir (mgr s)) (world s)) s = (Val (Some ()), s')
      ∧ restored_from index files s'
      ∧ (cached_files (mgr s') = []
         ∨ tree_size (cache_dir (mgr s)) (world s') <= cache_size_bytes (mgr s)).
Proof.
  induction fuel as [|fuel IH]; intros o s Hfl Hres Hlen; [lia|].
  simpl. rewrite bind_gets. unfold clean_guard.
  destruct (decide (tree_size (cache_dir (mgr s)) (world s) > cache_size_bytes (mgr s)))
    as [Hover|Hfits].
  - destruct (decide (cached_files (mgr s) ≠ [])) as [Hne|Hempty].
    + rewrite !bool_decide_eq_true_2 by done. simpl.
      destruct (clean_iteration_ok o (tree_size (cache_dir (mgr s)) (world s)) s
                  Hfl Hres Hne)
        as (f & s1 & Hit & Hfl1 & Hres1 & Hlen1 & Hb1 & Hd1).
      rewrite (bind_val _ _ _ _ _ Hit). cbv beta iota. rewrite <- Hd1, <- Hb1.
      apply IH; [done..|lia].
    + rewrite (bool_decide_eq_false_2 (cached_files (mgr s) ≠ [])), andb_false_r by done.
      exists s. split; [done|]. split; [done|]. left.
      destruct (cached_files (mgr s)); [done|]. by destruct Hempty.
  - rewrite (bool_decide_eq_false_2 (_ > _)) by done. simpl.
    exists s. split; [done|]. split; [done|]. right. lia.
Qed.

End Consistent.



(** ** Migration when no call fails *)

Lemma io_read_file_ok (p q : path) (d : bytes) (a : Z) (s : St) :
  next_outcome (world s) = IoOk →
  lookup_file (world s) p = Some (q, d, a) →
  io (read_file p) s = (Val d, mkSt (mgr s) (advance (OpRead p) (world s))).
Proof.
  intros Hok Hlook. unfold io, read_file. rewrite issue_eq.
  destruct (next_outcome (world s)); try discriminate.
  by rewrite (lookup_file_fs (world s) (advance (OpRead p) (world s)) p), Hlook.
Qed.

Lemma ram_add_ok (p : path) (data : bytes) (x : float) (n : Z) (s : St) :
  next_outcome (world s) = IoOk →
  int_mul_float (mem_available (world s)) 0.9 = Val x →
  py_int x = Val n →
  ∃ ok s', ram_add p data s = (Val ok, s')
           ∧ world s' = advance OpVirtualMemory (world s)
           ∧ cached_files (mgr s') = cached_files (mgr s).
Proof.
  intros Hok Hx Hn. unfold ram_add, get_available_ram. rewrite !bind_eq.
  unfold io, virtual_memory_available. rewrite issue_eq.
  destruct (next_outcome (world s)); try discriminate.
  change (mem_available (advance OpVirtualMemory (world s)))
    with (mem_available (world s)).
  unfold of_res. rewrite Hx, bind_eq. cbv beta iota. rewrite Hn. cbv beta iota.
  rewrite bind_gets, add_eq.
  destruct (decide (data_len data > n)); eexists _, _; (split; [reflexivity|done]).
Qed.

Lemma io_mkdir_parents_ok (p : path) (s : St) :
  next_outcome (world s) = IoOk →
  ∃ s', io (mkdir_parents p) s = (Val (), s')
        ∧ after_call (OpMkdir p) (fs (world s)) s s'.
Proof.
  intros Hok. unfold io, mkdir_parents. rewrite issue_eq.
  destruct (next_outcome (world s)); try discriminate.
  eexists. split; [reflexivity|]. apply after_call_advance.
Qed.

Lemma io_copy2_ok (src dst q : path) (d : bytes) (a : Z) (s : St) :
  next_outcome (world s) = IoOk →
  lookup_file (world s) src = Some (q, d, a) →
  ∃ s', io (copy2 src dst) s = (Val (), s')
        ∧ after_call (OpCopy src dst) (<[dst := File d a]> (fs (world s))) s s'.
Proof.
  intros Hok Hlook. unfold io, copy2. rewrite issue_eq.
  rewrite (lookup_file_fs (world s) (advance (OpCopy src dst) (world s)) src), Hlook
    by done.
  destruct (next_outcome (world s)); try discriminate.
  eexists. split; [reflexivity|]. apply after_call_with_fs.
Qed.

Lemma io_os_symlink_ok (target link : path) (s : St) :
  next_outcome (world s) = IoOk →
  fs (world s) !! link = None →
  ∃ s', io (os_symlink target link) s = (Val (), s')
        ∧ after_call (OpSymlink target link)
            (<[link := Symlink target]> (fs (world s))) s s'.
Proof.
  intros Hok Hfree. unfold io, os_symlink. rewrite issue_eq.
  destruct (next_outcome (world s)); try discriminate.
  change (fs (advance (OpSymlink target link) (world s))) with (fs (world s)).
  rewrite Hfree. eexists. split; [reflexivity|]. apply after_call_with_fs.
Qed.

Lemma save_cache_writes (s : St) :
  next_outcome (world s) = IoOk →
  ∃ s', save_cache s = (Val (), s')
        ∧ after_call OpSaveConfig (fs (world s)) s s'
        ∧ config_file (world s') = Some (cached_files (mgr s)).
Proof.
  intros Hok. unfold save_cache, try_except. rewrite bind_gets.
  unfold io, write_config. rewrite issue_eq.
  destruct (next_outcome (world s)); try discriminate.
  eexists. split; [reflexivity|]. done.
Qed.

(** X26: migration when no call fails.  For a regular file at [p], a
    free destination other than [p] and a memory query whose result is
    computed, the [try] body of [cache_file] completes: the destination
    is a regular file with the content of the file, the origin is a link
    to it, no other path changes, the index maps [p] to the destination
    and the index written to the configuration file is the index in
    memory.  Nothing is claimed about the access time of the copy. *)
Theorem migrate_succeeds
    (p dest : path) (d : bytes) (a n : Z) (x : float) (s : St) :
  faults (world s) = [] →
  p ≠ dest →
  fs (world s) !! p = Some (File d a) →
  fs (world s) !! dest = None →
  int_mul_float (mem_available (world s)) 0.9 = Val x →
  py_int x = Val n →
  ∃ s',
    migrate p dest s = (Val (), s')
    ∧ (∃ a', fs (world s')
             = <[p := Symlink dest]> (<[dest := File d a']> (fs (world s))))
    ∧ cached_files (mgr s') = PyDict.set p dest (cached_files (mgr s))
    ∧ config_file (world s') = Some (cached_files (mgr s'))
    ∧ faults (world s') = [].
Proof.
  intros Hfl Hne Hp Hdest Hx Hn. unfold migrate.
  pose proof (lookup_file_plain _ _ _ _ Hp) as Hlook.
  rewrite (bind_val _ _ _ _ _ (io_read_file_ok _ _ _ _ _ (faults_nil_next _ Hfl) Hlook)).
  set (s1 := mkSt (mgr s) (advance (OpRead p) (world s))).
  assert (faults (world s1) = []) as Hfl1 by (simpl; by rewrite Hfl).
  destruct (ram_add_ok p d x n s1 (faults_nil_next _ Hfl1) Hx Hn)
    as (ok & s2 & Hadd & Hw2 & Hi2).
  rewrite (bind_val _ _ _ _ _ Hadd).
  assert (faults (world s2) = []) as Hfl2 by (rewrite Hw2; simpl; by rewrite Hfl).
  assert (fs (world s2) = fs (world s)) as Hfs2 by by rewrite Hw2.
  assert (∃ s3, (if ok then logging INFO "Cached to RAM" else mret ()) s2 = (Val (), s3)
                ∧ mgr s3 = mgr s2 ∧ fs (world s3) = fs (world s2)
                ∧ faults (world s3) = faults (world s2))
    as (s3 & Hlog & Hm3 & Hfs3 & Hfl3)
    by (destruct ok; eexists; (split; [reflexivity|done])).
  rewrite (bind_val _ _ _ _ _ Hlog). rewrite Hfl2 in Hfl3.
  destruct (io_mkdir_parents_ok (parent dest) s3 (faults_nil_next _ Hfl3))
    as (s4 & Hmk & Hac4).
  rewrite (bind_val _ _ _ _ _ Hmk).
  pose proof (after_call_faults_nil _ _ _ _ Hac4 Hfl3) as Hfl4.
  destruct Hac4 as (Hm4 & Hfs4 & _).
  destruct (io_copy2_ok p dest p d a s4 (faults_nil_next _ Hfl4)) as (s5 & Hcp & Hac5).
  { rewrite <- Hlook. apply lookup_file_fs. congruence. }
  rewrite (bind_val _ _ _ _ _ Hcp).
  pose proof (after_call_faults_nil _ _ _ _ Hac5 Hfl4) as Hfl5.
  destruct Hac5 as (Hm5 & Hfs5 & _).
  destruct (io_os_remove_ok p s5 (faults_nil_next _ Hfl5)) as (s6 & Hrm & Hac6).
  { rewrite Hfs5, lookup_insert_ne, Hfs4, Hfs3, Hfs2, Hp by done. eauto. }
  rewrite (bind_val _ _ _ _ _ Hrm).
  pose proof (after_call_faults_nil _ _ _ _ Hac6 Hfl5) as Hfl6.
  destruct Hac6 as (Hm6 & Hfs6 & _).
  destruct (io_os_symlink_ok dest p s6 (faults_nil_next _ Hfl6)) as (s7 & Hln & Hac7).
  { rewrite Hfs6. apply lookup_delete_eq. }
  rewrite (bind_val _ _ _ _ _ Hln).
  pose proof (after_call_faults_nil _ _ _ _ Hac7 Hfl6) as Hfl7.
  destruct Hac7 as (Hm7 & Hfs7 & _).
  rewrite bind_modify.
  set (s8 := mkSt (with_cached_files (PyDict.set p dest (cached_files (mgr s7))) (mgr s7))
                  (world s7)).
  destruct (save_cache_writes s8 (faults_nil_next _ Hfl7)) as (s9 & Hsave & Hac9 & Hcfg).
  rewrite (bind_val _ _ _ _ _ Hsave).
  pose proof (after_call_faults_nil _ _ _ _ Hac9 Hfl7) as Hfl9.
  destruct Hac9 as (Hm9 & Hfs9 & _).
  rewrite logging_eq. eexists. split; [reflexivity|]. simpl.
  assert (cached_files (mgr s7) = cached_files (mgr s)) as Hidx
    by (rewrite Hm7, Hm6, Hm5, Hm4, Hm3; exact Hi2).
  split; [|split; [|split; [|done]]].
  - exists a. rewrite Hfs9. simpl.
    rewrite Hfs7, Hfs6, insert_delete_eq, Hfs5, Hfs4, Hfs3, Hfs2. done.
  - rewrite Hm9. simpl. by rewrite Hidx.
  - rewrite Hcfg, Hm9. done.
Qed.

Lemma migrate_succeeds_witness :
  ∃ s',
    migrate origin_a cached_a st_fresh = (Val (), s')
    ∧ (∃ a', fs (world s')
             = <[origin_a := Symlink cached_a]>
                 (<[cached_a := File content_a a']> (fs (world st_fresh))))
    ∧ cached_files (mgr s')
      = PyDict.set origin_a cached_a (cached_files (mgr st_fresh))
    ∧ config_file (world s') = Some (cached_files (mgr s'))
    ∧ faults (world s') = [].
Proof.
  eapply (migrate_succeeds origin_a cached_a content_a 7 _ _ st_fresh).
  - reflexivity.
  - discriminate.
  - vm_compute. reflexivity.
  - vm_compute. reflexivity.
  - vm_compute. reflexivity.
  - vm_compute. reflexivity.
Defined.

(** ** The RAM tier as the manager drives it *)

Lemma trim_entries_bound (limit : Z) (c : PyDict.t path bytes) :
  RAMCache.current_size (RAMCache.trim_entries limit c) <= Z.max 0 limit.
Proof.
  induction c as [|kv c IH]; simpl; [rewrite current_size_nil; lia|].
  case_decide; [done|]. lia.
Qed.

Lemma get_available_ram_measures (s s' : St) (n : Z) :
  get_available_ram s = (Val n, s') →
  ∃ x, int_mul_float (mem_available (world s)) 0.9 = Val x ∧ py_int x = Val n.
Proof.
  unfold get_available_ram. rewrite bind_eq. unfold io, virtual_memory_available.
  rewrite issue_eq. destruct (next_outcome (world s)); [|discriminate..].
  change (mem_available (advance OpVirtualMemory (world s)))
    with (mem_available (world s)).
  cbv beta iota. rewrite bind_eq. unfold of_res.
  destruct (int_mul_float (mem_available (world s)) 0.9) as [x|e]; [|discriminate].
  destruct (py_int x) as [m|e] eqn:Hx; [|discriminate]. intros [= <- _]. eauto.
Qed.

(** X27: every monitor pass that completes leaves the RAM tier trimmed to
    the capacity measured in that pass.  The capacity of the tier is
    [int(available * 0.9)] for the memory available when the pass queries
    it, after the budget step; the entries are a suffix of the entries the
    budget step left; the stored payloads total no more than the capacity,
    or the tier is empty when the capacity is negative; and every suffix
    that fits the capacity is kept.  The overshoot that [add] may leave
    lasts until the next pass at most. *)
Theorem monitor_pass_trims_ram (s s' : St) :
  monitor_tick s = (Val (), s') →
  ∃ (s1 s2 : St) (x : float) (n : Z),
    adjust_cache_size s = (Val (), s1)
    ∧ get_available_ram s1 = (Val n, s2)
    ∧ int_mul_float (mem_available (world s1)) 0.9 = Val x
    ∧ py_int x = Val n
    ∧ RAMCache.max_size (ram_cache (mgr s')) = n
    ∧ RAMCache.cache (ram_cache (mgr s'))
      `suffix_of` RAMCache.cache (ram_cache (mgr s1))
    ∧ RAMCache.current_size (RAMCache.cache (ram_cache (mgr s'))) <= Z.max 0 n
    ∧ ∀ kept, kept `suffix_of` RAMCache.cache (ram_cache (mgr s1)) →
              RAMCache.current_size kept <= n →
              kept `suffix_of` RAMCache.cache (ram_cache (mgr s')).
Proof.
  unfold monitor_tick. rewrite bind_eq.
  destruct (adjust_cache_size s) as [[[]|e] s1]; [|discriminate].
  unfold ram_update_max_size. rewrite bind_eq.
  destruct (get_available_ram s1) as [[n|e] s2] eqn:Hram; [|discriminate].
  pose proof (get_available_ram_spec _ _ _ Hram) as (Hm2 & _).
  destruct (get_available_ram_measures _ _ _ Hram) as (x & Hx & Hn).
  intros [= <-]. exists s1, s2, x, n. simpl. rewrite Hm2.
  split; [done|]. split; [done|]. split; [done|]. split; [done|]. split; [done|].
  split; [apply trim_entries_suffix|]. split; [apply trim_entries_bound|].
  intros kept. apply trim_entries_longest.
Qed.

(** The tier holds 1100 bytes and the pass measures room for 1000: "a"
    goes. *)
Lemma monitor_pass_trims_ram_witness :
  ∃ (s1 s2 : St) (x : float) (n : Z),
    adjust_cache_size st_ram_overfull = (Val (), s1)
    ∧ get_available_ram s1 = (Val n, s2)
    ∧ int_mul_float (mem_available (world s1)) 0.9 = Val x
    ∧ py_int x = Val n
    ∧ RAMCache.max_size (ram_cache (mgr (monitor_tick st_ram_overfull).2)) = n
    ∧ RAMCache.cache (ram_cache (mgr (monitor_tick st_ram_overfull).2))
      `suffix_of` RAMCache.cache (ram_cache (mgr s1))
    ∧ RAMCache.current_size
        (RAMCache.cache (ram_cache (mgr (monitor_tick st_ram_overfull).2)))
      <= Z.max 0 n
    ∧ ∀ kept, kept `suffix_of` RAMCache.cache (ram_cache (mgr s1)) →
              RAMCache.current_size kept <= n →
              kept `suffix_of`
                RAMCache.cache (ram_cache (mgr (monitor_tick st_ram_overfull).2)).
Proof.
  apply (monitor_pass_trims_ram st_ram_overfull). vm_compute. reflexivity.
Defined.

Lemma ram_add_accepts (p : path) (data : bytes) (x : float) (n : Z) (s : St) :
  next_outcome (world s) = IoOk →
  int_mul_float (mem_available (world s)) 0.9 = Val x →
  py_int x = Val n →
  data_len data <= n →
  ∃ s', ram_add p data s = (Val true, s')
        ∧ world s' = advance OpVirtualMemory (world s)
        ∧ cached_files (mgr s') = cached_files (mgr s)
        ∧ RAMCache.cache (ram_cache (mgr s'))
          = PyDict.remove p (RAMCache.trim_entries n
                               (RAMCache.cache (ram_cache (mgr s))))
            ++ [(p, data)].
Proof.
  intros Hok Hx Hn Hfit. unfold ram_add, get_available_ram. rewrite !bind_eq.
  unfold io, virtual_memory_available. rewrite issue_eq.
  destruct (next_outcome (world s)); try discriminate.
  change (mem_available (advance OpVirtualMemory (world s)))
    with (mem_available (world s)).
  unfold of_res. rewrite Hx, bind_eq. cbv beta iota. rewrite Hn. cbv beta iota.
  rewrite bind_gets, add_eq, decide_False by lia.
  eexists. split; [reflexivity|done].
Qed.

(** X28: an indexed file is loaded into RAM from its cached copy, and is
    served from RAM afterwards.  When no call fails, the copy recorded in
    the index is a file that fits the measured capacity and the path is
    not in RAM yet, the first [cache_file] reads the cached copy, queries
    the memory and stores the bytes in RAM under the path; the second
    [cache_file] issues no system call at all.  Neither call changes the
    file system or the index. *)
Theorem index_hit_then_ram_hit
    (p dest q : path) (d : bytes) (a n : Z) (x : float) (s : St) :
  faults (world s) = [] →
  PyDict.get p (RAMCache.cache (ram_cache (mgr s))) = None →
  PyDict.get p (cached_files (mgr s)) = Some dest →
  lookup_file (world s) dest = Some (q, d, a) →
  int_mul_float (mem_available (world s)) 0.9 = Val x →
  py_int x = Val n →
  data_len d <= n →
  ∃ s1 s2,
    cache_file p s = (Val (), s1)
    ∧ PyDict.get p (RAMCache.cache (ram_cache (mgr s1))) = Some d
    ∧ trace (world s1) = trace (world s) ++ [OpRead dest; OpVirtualMemory]
    ∧ cache_file p s1 = (Val (), s2)
    ∧ trace (world s2) = trace (world s1)
    ∧ fs (world s2) = fs (world s)
    ∧ cached_files (mgr s2) = cached_files (mgr s).
Proof.
  intros Hfl Hram Hidx Hlook Hx Hn Hfit.
  assert (∃ s1, cache_file p s = (Val (), s1)
                ∧ PyDict.get p (RAMCache.cache (ram_cache (mgr s1))) = Some d
                ∧ trace (world s1) = trace (world s) ++ [OpRead dest; OpVirtualMemory]
                ∧ fs (world s1) = fs (world s)
                ∧ cached_files (mgr s1) = cached_files (mgr s))
    as (s1 & Hfirst & Hram1 & Ht1 & Hfs1 & Hidx1).
  { unfold cache_file. rewrite (bind_val _ _ _ _ _ (ram_get_miss _ _ Hram)).
    rewrite bind_gets, Hidx.
    rewrite (bind_val _ _ _ _ _
               (io_read_file_ok _ _ _ _ _ (faults_nil_next _ Hfl) Hlook)).
    set (s0 := mkSt (mgr s) (advance (OpRead dest) (world s))).
    assert (next_outcome (world s0) = IoOk) as Hok0
      by (apply faults_nil_next; simpl; by rewrite Hfl).
    destruct (ram_add_accepts p d x n s0 Hok0 Hx Hn Hfit)
      as (s1 & Hadd & Hw1 & Hi1 & Hc1).
    rewrite (bind_val _ _ _ _ _ Hadd), logging_eq. eexists. split; [reflexivity|].
    simpl. rewrite Hc1, Hw1, Hi1. split; [apply dict_get_remove_app|].
    split; [|done]. simpl. by rewrite <- app_assoc. }
  exists s1. unfold cache_file at 2, ram_get. rewrite !bind_eq. simpl.
  rewrite get_eq, Hram1. simpl. eexists. split; [done|]. split; [done|].
  split; [done|]. split; [reflexivity|]. done.
Qed.

Lemma index_hit_then_ram_hit_witness :
  ∃ s1 s2,
    cache_file origin_a st_migrated = (Val (), s1)
    ∧ PyDict.get origin_a (RAMCache.cache (ram_cache (mgr s1))) = Some content_a
    ∧ trace (world s1) = trace (world st_migrated) ++ [OpRead cached_a; OpVirtualMemory]
    ∧ cache_file origin_a s1 = (Val (), s2)
    ∧ trace (world s2) = trace (world s1)
    ∧ fs (world s2) = fs (world st_migrated)
    ∧ cached_files (mgr s2) = cached_files (mgr st_migrated).
Proof.
  eapply (index_hit_then_ram_hit origin_a cached_a cached_a content_a 7 _ _ st_migrated).
  - reflexivity.
  - reflexivity.
  - reflexivity.
  - vm_compute. reflexivity.
  - vm_compute. reflexivity.
  - vm_compute. reflexivity.
  - vm_compute. discriminate.
Defined.
